(** * The transcript bridge of orbitz-translator

    A shallow embedding of [src/components/DatabaseBridge.tsx]: the text
    segmenter, the snapshot detector ([processNewData]) and the queue
    consumer ([processQueueLoop]), followed by the properties of the
    specification that concern them.

    Conventions of the embedding.
    - A JavaScript string is the list of its UTF-16 code units.
    - A [useRef] cell is a field of the record [State].
    - Everything the component reads from outside (the wall clock, the
      status of the main client, the settings, the audio streamers) is
      gathered in a record [Env]; one value of [Env] is the snapshot seen
      by one synchronous run of the code, between two suspension points,
      during which nothing outside changes.
    - A call of the [async] function [processQueueLoop] suspended at an
      [await] is a value of [Susp], kept in the state; the events of
      [Event] are the tasks of the event loop: each one runs the code
      from where it is entered to its next [await] or to its end, and
      several suspended calls may coexist.
    - What the code does to the outside is the list of [Out] that a run
      returns.
    - The calls to the outside ([sendToSpeaker],
      [getAudioStreamerState], [addTurn], [updateTurn]) are taken not to
      throw. *)

From Stdlib Require Import List Bool Arith NArith ZArith QArith Lia Lqa.
From Stdlib Require Import Strings.String Strings.Ascii.
Import ListNotations.

Set Implicit Arguments.

(* ================================================================== *)
(** * JavaScript strings *)

Module Js.

(** A UTF-16 code unit. *)
Definition unit := N.

Definition jsstring := list unit.

Definition LF : unit := 10%N.
Definition CR : unit := 13%N.

(** The string literal [s] of the source, as code units; the escapes
    [\n] and [\r] are read as the source reads them. *)
Fixpoint lit (s : string) : jsstring :=
  match s with
  | EmptyString => []
  | String "\" (String "n" s') => LF :: lit s'
  | String "\" (String "r" s') => CR :: lit s'
  | String c s' => N_of_ascii c :: lit s'
  end.

(** [WhiteSpace] and [LineTerminator] of ECMAScript, the characters
    that [String.prototype.trim] removes. *)
Definition isWhite (c : unit) : bool :=
  ((9 <=? c) && (c <=? 13) || (c =? 32) || (c =? 160) || (c =? 5760)
   || (8192 <=? c) && (c <=? 8202) || (c =? 8232) || (c =? 8233)
   || (c =? 8239) || (c =? 8287) || (c =? 12288) || (c =? 65279))%N.

Fixpoint trimStart (s : jsstring) : jsstring :=
  match s with
  | [] => []
  | c :: s' => if isWhite c then trimStart s' else s
  end.

Definition trimEnd (s : jsstring) : jsstring := rev (trimStart (rev s)).

(** [s.trim()] *)
Definition trim (s : jsstring) : jsstring := trimEnd (trimStart s).

Definition eqb (s t : jsstring) : bool :=
  if list_eq_dec N.eq_dec s t then true else false.

Definition isEmpty (s : jsstring) : bool :=
  match s with [] => true | _ :: _ => false end.

(** [s.startsWith(p)] *)
Fixpoint startsWith (s p : jsstring) : bool :=
  match p, s with
  | [], _ => true
  | _ :: _, [] => false
  | a :: p', c :: s' => (a =? c)%N && startsWith s' p'
  end.

(** [s.replace(p, r)] for a string pattern [p]: the first occurrence of
    [p] is replaced. ([r] is taken literally; the source only ever
    passes the empty string.) *)
Fixpoint replace (s p r : jsstring) : jsstring :=
  if startsWith s p then r ++ skipn (List.length p) s
  else match s with
       | [] => []
       | c :: s' => c :: replace s' p r
       end.

(** [s.split(/\r?\n+/)]. A separator is one optional CR followed by a
    maximal run of LF. [insep] says that the previous code unit was an
    LF of a separator, so that further LFs extend it; [cur] is the piece
    being read, reversed. A CR directly before an LF opens a separator:
    it is skipped and the LF after it closes the piece. *)
Fixpoint splitGo (insep : bool) (cur : jsstring) (s : jsstring)
  : list jsstring :=
  match s with
  | [] => [rev cur]
  | c :: s' =>
      if (c =? LF)%N then
        if insep then splitGo true cur s'
        else rev cur :: splitGo true [] s'
      else if (c =? CR)%N && startsWith s' [LF] then
        splitGo false cur s'
      else splitGo false (c :: cur) s'
  end.

Definition splitNewlines (s : jsstring) : list jsstring :=
  splitGo false [] s.

End Js.

Abbreviation jsstring := Js.jsstring.
Notation "'js' s" := (Js.lit s%string) (at level 9, only parsing).

(* ================================================================== *)
(** * Data model *)

(** Modelled from the spec: the row type [Transcript] is declared in
    [lib/supabase], outside the files embedded here; the record has the
    fields the bridge reads ("identity (opaque id), full source text, ...
    owning session/user identifiers"). A missing or null text is the
    empty string: both are falsy for the guard of [processNewData]. *)
Record Transcript := {
  id : jsstring;
  full_transcript_text : jsstring;
  session_id : jsstring;
  user_id : jsstring
}.

(** [type QueueItem] *)
Record QueueItem := {
  text : jsstring;
  refData : option Transcript;
  turnId : option jsstring
}.

(** The keys of the speech channels, ['default'], ['Male 1'], ... *)
Inductive Speaker := Default | Male1 | Male2 | Female1 | Female2.

(** [type VoiceStyle] of [lib/state.ts] *)
Inductive VoiceStyle :=
  Natural | Conversational | Formal | Enthusiastic | Breathy | Dramatic.

(** What [getAudioStreamerState] returns, in seconds; the doubles of the
    source are read as rationals. *)
Record AudioState := {
  duration : Q;
  endOfQueueTime : Q
}.

(** The row passed to [supabase.from('translations').insert]. *)
Record Translation := {
  meeting_id : jsstring;
  tr_user_id : jsstring;
  original_text : jsstring;
  translated_text : jsstring;
  tr_language : jsstring
}.

(** What one synchronous run of the component reads from outside:
    [Date.now()] in milliseconds, [client.status === 'connected'],
    [voiceStyleRef.current], [languageRef.current] and
    [getAudioStreamerState]. *)
Record Env := {
  now : Z;
  clientConnected : bool;
  voiceStyle : VoiceStyle;
  language : jsstring;
  audio : Speaker -> AudioState
}.

(* ================================================================== *)
(** * Segmenter and style annotator *)

(** [segmentText] *)
Definition segmentText (text : jsstring) : list jsstring :=
  if Js.isEmpty text then []
  else filter (fun t => (0 <? List.length t)%nat)
              (map Js.trim (Js.splitNewlines text)).

Definition CLEARS_THROAT : jsstring := js "(clears throat)".

(** The chain of [startsWith] tests that both [processNewData] and
    [processQueueLoop] run on a segment: the target speaker and the text
    without its tag. *)
Definition parseSpeaker (rawText : jsstring) : Speaker * jsstring :=
  if Js.startsWith rawText (js "Male 1:") then
    (Male1, Js.trim (Js.replace rawText (js "Male 1:") []))
  else if Js.startsWith rawText (js "Male 2:") then
    (Male2, Js.trim (Js.replace rawText (js "Male 2:") []))
  else if Js.startsWith rawText (js "Female 1:") then
    (Female1, Js.trim (Js.replace rawText (js "Female 1:") []))
  else if Js.startsWith rawText (js "Female 2:") then
    (Female2, Js.trim (Js.replace rawText (js "Female 2:") []))
  else (Default, rawText).

(** [scriptedText] of [processQueueLoop]: the stage directions of the
    active style around [textToSend]. *)
Definition scriptText (style : VoiceStyle) (textToSend : jsstring) : jsstring :=
  if Js.eqb textToSend CLEARS_THROAT then textToSend
  else match style with
       | Breathy => js "(soft inhale) " ++ textToSend ++ js " ... (pause)"
       | Dramatic => js "(slowly) " ++ textToSend ++ js " ... (long pause)"
       | Enthusiastic => js "(excitedly) " ++ textToSend
       | Formal => js "(professionally) " ++ textToSend
       | Conversational => js "(casually) " ++ textToSend
       | Natural => textToSend
       end.

(** [!scriptedText || !scriptedText.trim()] *)
Definition isBlank (s : jsstring) : bool :=
  Js.isEmpty s || Js.isEmpty (Js.trim s).

(* ================================================================== *)
(** * The component state and its suspended loops *)

(** How a pending [workerWait] will be resolved: by a message of the
    worker, by the [setTimeout] fallback (taken when [workerRef.current]
    is null at the call), or never, once the worker that should answer
    has been terminated by the effect clean-up. *)
Inductive WaitVia := ViaWorker | ViaTimeout | Never.

(** A pending [workerWait(ms)], called when the clock read [issuedAt]. *)
Record Wait := {
  via : WaitVia;
  issuedAt : Z;
  ms : Z
}.

(** The [await] at which a call of [processQueueLoop] is suspended, with
    the local variables that are live there. *)
Inductive Susp :=
| AtArrival (item : QueueItem) (target : Speaker) (preSendState : AudioState)
            (waitStart : Z) (w : Wait)        (* [await workerWait(250)] *)
| AtDrain (item : QueueItem) (target : Speaker)
          (playStart : Z) (w : Wait)          (* [await workerWait(100)] *)
| AtInsert (item : QueueItem).                (* [await supabase...insert] *)

(** The refs of the component, and the calls of [processQueueLoop] that
    are suspended, each under the number it got when it was called. *)
Record State := {
  lastProcessedId : option jsstring;
  paragraphCount : N;
  currentTurnId : option jsstring;
  currentTranslationBuffer : jsstring;
  queue : list QueueItem;
  isProcessing : bool;
  worker : bool;                       (* [workerRef.current !== null] *)
  loops : list (nat * Susp);
  nextLoop : nat
}.

Definition initial : State := {|
  lastProcessedId := None;
  paragraphCount := 0;
  currentTurnId := None;
  currentTranslationBuffer := [];
  queue := [];
  isProcessing := false;
  worker := false;
  loops := [];
  nextLoop := 0
|}.

Definition setLastProcessedId v (st : State) : State :=
  {| lastProcessedId := v; paragraphCount := paragraphCount st;
     currentTurnId := currentTurnId st;
     currentTranslationBuffer := currentTranslationBuffer st;
     queue := queue st; isProcessing := isProcessing st;
     worker := worker st; loops := loops st; nextLoop := nextLoop st |}.

Definition setParagraphCount v (st : State) : State :=
  {| lastProcessedId := lastProcessedId st; paragraphCount := v;
     currentTurnId := currentTurnId st;
     currentTranslationBuffer := currentTranslationBuffer st;
     queue := queue st; isProcessing := isProcessing st;
     worker := worker st; loops := loops st; nextLoop := nextLoop st |}.

Definition setCurrentTurnId v (st : State) : State :=
  {| lastProcessedId := lastProcessedId st;
     paragraphCount := paragraphCount st; currentTurnId := v;
     currentTranslationBuffer := currentTranslationBuffer st;
     queue := queue st; isProcessing := isProcessing st;
     worker := worker st; loops := loops st; nextLoop := nextLoop st |}.

Definition setBuffer v (st : State) : State :=
  {| lastProcessedId := lastProcessedId st;
     paragraphCount := paragraphCount st;
     currentTurnId := currentTurnId st; currentTranslationBuffer := v;
     queue := queue st; isProcessing := isProcessing st;
     worker := worker st; loops := loops st; nextLoop := nextLoop st |}.

Definition setQueue v (st : State) : State :=
  {| lastProcessedId := lastProcessedId st;
     paragraphCount := paragraphCount st;
     currentTurnId := currentTurnId st;
     currentTranslationBuffer := currentTranslationBuffer st;
     queue := v; isProcessing := isProcessing st;
     worker := worker st; loops := loops st; nextLoop := nextLoop st |}.

Definition setIsProcessing v (st : State) : State :=
  {| lastProcessedId := lastProcessedId st;
     paragraphCount := paragraphCount st;
     currentTurnId := currentTurnId st;
     currentTranslationBuffer := currentTranslationBuffer st;
     queue := queue st; isProcessing := v;
     worker := worker st; loops := loops st; nextLoop := nextLoop st |}.

Definition setWorker v (st : State) : State :=
  {| lastProcessedId := lastProcessedId st;
     paragraphCount := paragraphCount st;
     currentTurnId := currentTurnId st;
     currentTranslationBuffer := currentTranslationBuffer st;
     queue := queue st; isProcessing := isProcessing st;
     worker := v; loops := loops st; nextLoop := nextLoop st |}.

Definition setLoops v (st : State) : State :=
  {| lastProcessedId := lastProcessedId st;
     paragraphCount := paragraphCount st;
     currentTurnId := currentTurnId st;
     currentTranslationBuffer := currentTranslationBuffer st;
     queue := queue st; isProcessing := isProcessing st;
     worker := worker st; loops := v; nextLoop := nextLoop st |}.

Definition setNextLoop v (st : State) : State :=
  {| lastProcessedId := lastProcessedId st;
     paragraphCount := paragraphCount st;
     currentTurnId := currentTurnId st;
     currentTranslationBuffer := currentTranslationBuffer st;
     queue := queue st; isProcessing := isProcessing st;
     worker := worker st; loops := loops st; nextLoop := v |}.

(** What a run of the code does that can be seen from outside (calls of
    the channel, of the log store, of the storage, of the console),
    together with the marks [Segmented], [Enqueued], [Dropped],
    [Dequeued], [Drained] and [Aborted] that record where the control has
    gone, and with which values: [Dropped] and [Drained] carry the item at
    hand and the translation buffer as it is at that point, [Aborted] the
    queue that is left behind. *)
Inductive Out :=
| Segmented (d : Transcript)          (* [segmentText(source)] is called *)
| AddTurn (turn text sourceText : jsstring) (speaker : Speaker)
| Enqueued (item : QueueItem)         (* [queueRef.current.push] *)
| Dropped (item : QueueItem) (buffer : jsstring)
                                      (* the [shift] before [continue] *)
| Dequeued (item : QueueItem)         (* the [shift] after the send *)
| Sent (scriptedText : jsstring) (target : Speaker)   (* [sendToSpeaker] *)
| Warned                              (* the arrival wait timed out *)
| Drained (item : QueueItem) (buffer : jsstring)
                                      (* the drain wait is over *)
| Inserted (row : Translation)        (* [insert] is called *)
| InsertFailed                        (* [console.error] of the [catch] *)
| UpdateTurn (turn translation : jsstring)
| Aborted (abandoned : list QueueItem). (* the client is not connected *)

(* ================================================================== *)
(** * The consumer: [processQueueLoop] *)

Definition Qltb (x y : Q) : bool := negb (Qle_bool y x).

(** [workerWait(ms)] *)
Definition workerWait (env : Env) (st : State) (ms : Z) : Wait :=
  {| via := if worker st then ViaWorker else ViaTimeout;
     issuedAt := now env;
     ms := ms |}.

(** The call [me] of the loop stops at an [await]. *)
Definition suspend (me : nat) (s : Susp) (st : State) : State :=
  setLoops ((me, s) :: loops st) st.

(** [item.turnId || null] *)
Definition orNull (t : option jsstring) : option jsstring :=
  match t with
  | Some (_ :: _) => t
  | _ => None
  end.

Section Iteration.

Variable env : Env.
Variable me : nat.

(** What follows the body of the [while]: its next iteration. *)
Variable continue : State -> State * list Out.

(** The end of the body: [currentTurnIdRef.current = null]. *)
Definition endOfBody (st : State) : State * list Out :=
  continue (setCurrentTurnId None st).

(** The [if] that guards the insert. *)
Definition commit (item : QueueItem) (st : State) : State * list Out :=
  match refData item with
  | Some d =>
      let translated := Js.trim (currentTranslationBuffer st) in
      if (0 <? List.length translated)%nat then
        (suspend me (AtInsert item) st,
         [Inserted {| meeting_id := session_id d;
                      tr_user_id := user_id d;
                      original_text := text item;
                      translated_text := translated;
                      tr_language := language env |}])
      else endOfBody st
  | None => endOfBody st
  end.

(** The drain wait, from the test of its [while]. *)
Definition drainLoop (item : QueueItem) (target : Speaker) (playStart : Z)
                     (st : State) : State * list Out :=
  let drained :=
    let '(st', o) := commit item st in
    (st', Drained item (currentTranslationBuffer st) :: o) in
  if (now env - playStart <? 60000)%Z then
    if Qle_bool (duration (audio env target)) (1 # 2) then drained
    else (suspend me (AtDrain item target playStart
                              (workerWait env st 100)) st,
          [])
  else drained.

(** The arrival wait, from the test of its [while], and what follows. *)
Definition arrivalLoop (item : QueueItem) (target : Speaker)
                       (preSendState : AudioState) (waitStart : Z)
                       (st : State) : State * list Out :=
  if (now env - waitStart <? 15000)%Z then
    if Qltb (endOfQueueTime preSendState + (1 # 10))
            (endOfQueueTime (audio env target))
    then drainLoop item target (now env) st
    else (suspend me (AtArrival item target preSendState waitStart
                                (workerWait env st 250)) st,
          [])
  else let '(st', o) := drainLoop item target (now env) st in
       (st', Warned :: o).

End Iteration.

(** The [while] of [processQueueLoop] from its test, for the queue [q],
    which is [queue st], up to the next [await] or to the [return]. *)
Fixpoint whileQueue (env : Env) (me : nat) (q : list QueueItem) (st : State)
  : State * list Out :=
  match q with
  | [] => (setIsProcessing false st, [])
  | item :: rest =>
      if negb (clientConnected env) then
        (setIsProcessing false st, [Aborted q])
      else
        let rawText := text item in
        let st := setCurrentTurnId (orNull (turnId item)) st in
        let '(targetSpeaker, textToSend) := parseSpeaker rawText in
        let scriptedText := scriptText (voiceStyle env) textToSend in
        if isBlank scriptedText then
          let '(st', o) := whileQueue env me rest (setQueue rest st) in
          (st', Dropped item (currentTranslationBuffer st) :: o)
        else
          let st := setBuffer [] st in
          let preSendState := audio env targetSpeaker in
          let st := setQueue rest st in
          let '(st', o) :=
            arrivalLoop env me (whileQueue env me rest)
                        item targetSpeaker preSendState (now env) st in
          (st', Sent scriptedText targetSpeaker :: Dequeued item :: o)
  end.

(** The loop carries on with the queue as it is now. *)
Definition resumeWhile (env : Env) (me : nat) (st : State)
  : State * list Out :=
  whileQueue env me (queue st) st.

(** [processQueueLoop()] up to its first [await] or its [return]. *)
Definition processQueueLoop (env : Env) (st : State) : State * list Out :=
  if isProcessing st then (st, [])
  else
    let me := nextLoop st in
    resumeWhile env me (setNextLoop (S me) (setIsProcessing true st)).

(* ================================================================== *)
(** * The detector: [processNewData] *)

Definition filler : QueueItem :=
  {| text := CLEARS_THROAT; refData := None; turnId := None |}.

(** The body of the [forEach] for the segment [seg], whose turn gets the
    identifier [uuid]. The counter is a JavaScript number; it is exact far
    beyond any count of segments a session reaches. *)
Definition enqueueSegment (data : Transcript) (uuid seg : jsstring)
                          (st : State) : State * list Out :=
  let '(speaker, uiText) := parseSpeaker seg in
  let item := {| text := seg; refData := Some data; turnId := Some uuid |} in
  let st := setQueue (queue st ++ [item]) st in
  let st := setParagraphCount (paragraphCount st + 1)%N st in
  if ((0 <? paragraphCount st) && (paragraphCount st mod 3 =? 0))%N then
    (setQueue (queue st ++ [filler]) st,
     [AddTurn uuid uiText seg speaker; Enqueued item; Enqueued filler])
  else (st, [AddTurn uuid uiText seg speaker; Enqueued item]).

(** [segments.forEach]; [randomUUID i] is the identifier that
    [crypto.randomUUID()] returns for the segment of index [i]. *)
Fixpoint forEachSegment (data : Transcript) (randomUUID : nat -> jsstring)
                        (i : nat) (segments : list jsstring) (st : State)
  : State * list Out :=
  match segments with
  | [] => (st, [])
  | seg :: segments' =>
      let '(st1, o1) := enqueueSegment data (randomUUID i) seg st in
      let '(st2, o2) := forEachSegment data randomUUID (S i) segments' st1 in
      (st2, o1 ++ o2)
  end.

Definition sameId (last : option jsstring) (i : jsstring) : bool :=
  match last with
  | Some l => Js.eqb l i
  | None => false
  end.

(** [processNewData(data)] *)
Definition processNewData (env : Env) (randomUUID : nat -> jsstring)
                          (data : Transcript) (st : State)
  : State * list Out :=
  let source := full_transcript_text data in
  if Js.isEmpty source then (st, [])
  else if sameId (lastProcessedId st) (id data) then (st, [])
  else
    let st := setLastProcessedId (Some (id data)) st in
    let segments := segmentText source in
    if (0 <? List.length segments)%nat then
      let '(st1, o1) := forEachSegment data randomUUID 0 segments st in
      let '(st2, o2) := processQueueLoop env st1 in
      (st2, Segmented data :: o1 ++ o2)
    else (st, [Segmented data]).

(* ================================================================== *)
(** * Events *)

(** What can happen to the component: the effect of line 86 runs (after
    the clean-up of its previous run), a snapshot is delivered by the poll
    or by the push path, the output listener receives a piece of text, a
    pending [workerWait] of a suspended loop is resolved, or its pending
    insert is settled. *)
Inductive Event :=
| EffectRun (env : Env) (connected : bool)
| Deliver (env : Env) (randomUUID : nat -> jsstring) (data : Transcript)
| OutputText (chunk : jsstring)
| WaitOver (env : Env) (loop : nat)
| InsertSettled (env : Env) (loop : nat) (ok : bool).

Fixpoint lookupLoop (me : nat) (l : list (nat * Susp)) : option Susp :=
  match l with
  | [] => None
  | (n, s) :: l' => if Nat.eqb n me then Some s else lookupLoop me l'
  end.

Fixpoint removeLoop (me : nat) (l : list (nat * Susp)) : list (nat * Susp) :=
  match l with
  | [] => []
  | (n, s) :: l' =>
      if Nat.eqb n me then removeLoop me l' else (n, s) :: removeLoop me l'
  end.

(** [workerRef.current.terminate()]: the waits the worker should have
    answered stay pending for ever. *)
Definition orphanWait (w : Wait) : Wait :=
  match via w with
  | ViaWorker => {| via := Never; issuedAt := issuedAt w; ms := ms w |}
  | _ => w
  end.

Definition orphan (s : Susp) : Susp :=
  match s with
  | AtArrival item target pre waitStart w =>
      AtArrival item target pre waitStart (orphanWait w)
  | AtDrain item target playStart w =>
      AtDrain item target playStart (orphanWait w)
  | AtInsert item => s
  end.

(** The clean-up function returned by the effect. *)
Definition cleanup (st : State) : State :=
  setWorker false
    (setLoops (map (fun p => (fst p, orphan (snd p))) (loops st)) st).

(** The body of the effect of line 86. *)
Definition effectBody (env : Env) (connected : bool) (st : State)
  : State * list Out :=
  let st := setIsProcessing false st in
  if negb connected then (st, [])
  else
    let '(st', o) :=
      if (0 <? List.length (queue st))%nat then processQueueLoop env st
      else (st, []) in
    (setWorker true st', o).

(** The output listener. *)
Definition onOutput (chunk : jsstring) (st : State) : State * list Out :=
  let st := setBuffer (currentTranslationBuffer st ++ chunk) st in
  match currentTurnId st with
  | Some ((_ :: _) as t) => (st, [UpdateTurn t (currentTranslationBuffer st)])
  | _ => (st, [])
  end.

Definition waitPending (w : Wait) : bool :=
  match via w with Never => false | _ => true end.

(** The loop [me] wakes up from its [workerWait]. *)
Definition onWaitOver (env : Env) (me : nat) (st : State)
  : State * list Out :=
  match lookupLoop me (loops st) with
  | Some (AtArrival item target pre waitStart w) =>
      if waitPending w then
        arrivalLoop env me (resumeWhile env me) item target pre waitStart
                    (setLoops (removeLoop me (loops st)) st)
      else (st, [])
  | Some (AtDrain item target playStart w) =>
      if waitPending w then
        drainLoop env me (resumeWhile env me) item target playStart
                  (setLoops (removeLoop me (loops st)) st)
      else (st, [])
  | _ => (st, [])
  end.

(** The insert of the loop [me] resolves, or rejects into the [catch]. *)
Definition onInsertSettled (env : Env) (me : nat) (ok : bool) (st : State)
  : State * list Out :=
  match lookupLoop me (loops st) with
  | Some (AtInsert item) =>
      let '(st', o) :=
        endOfBody (resumeWhile env me)
                  (setLoops (removeLoop me (loops st)) st) in
      (st', if ok then o else InsertFailed :: o)
  | _ => (st, [])
  end.

Definition step (e : Event) (st : State) : State * list Out :=
  match e with
  | EffectRun env connected => effectBody env connected (cleanup st)
  | Deliver env randomUUID data => processNewData env randomUUID data st
  | OutputText chunk => onOutput chunk st
  | WaitOver env me => onWaitOver env me st
  | InsertSettled env me ok => onInsertSettled env me ok st
  end.

(** A history of the component: the state it ends in and all it did. *)
Fixpoint run (es : list Event) (st : State) : State * list Out :=
  match es with
  | [] => (st, [])
  | e :: es' =>
      let '(st1, o1) := step e st in
      let '(st2, o2) := run es' st1 in
      (st2, o1 ++ o2)
  end.

(* ================================================================== *)
(** * Reading a history *)

(** The snapshots handed to the segmenter, in order. *)
Fixpoint segmented (o : list Out) : list Transcript :=
  match o with
  | [] => []
  | Segmented d :: o' => d :: segmented o'
  | _ :: o' => segmented o'
  end.

Definition segmentedIds (o : list Out) : list jsstring :=
  map id (segmented o).

(** The snapshots delivered, in order. *)
Fixpoint deliveries (es : list Event) : list Transcript :=
  match es with
  | [] => []
  | Deliver _ _ d :: es' => d :: deliveries es'
  | _ :: es' => deliveries es'
  end.

(** The items pushed on the queue, in order. *)
Fixpoint enqueued (o : list Out) : list QueueItem :=
  match o with
  | [] => []
  | Enqueued i :: o' => i :: enqueued o'
  | _ :: o' => enqueued o'
  end.

(** The items shifted from the queue, sent or not, in order. *)
Fixpoint shifted (o : list Out) : list QueueItem :=
  match o with
  | [] => []
  | Dropped i _ :: o' => i :: shifted o'
  | Dequeued i :: o' => i :: shifted o'
  | _ :: o' => shifted o'
  end.

(** The items shifted from the queue after they were sent, in order. *)
Fixpoint dequeued (o : list Out) : list QueueItem :=
  match o with
  | [] => []
  | Dequeued i :: o' => i :: dequeued o'
  | _ :: o' => dequeued o'
  end.

(** The texts sent to the channels, in order. *)
Fixpoint sent (o : list Out) : list (jsstring * Speaker) :=
  match o with
  | [] => []
  | Sent t s :: o' => (t, s) :: sent o'
  | _ :: o' => sent o'
  end.

(** The rows handed to the storage, in order. *)
Fixpoint inserted (o : list Out) : list Translation :=
  match o with
  | [] => []
  | Inserted r :: o' => r :: inserted o'
  | _ :: o' => inserted o'
  end.

(** What the consumer and the output listener can do. *)
Definition consumerOut (x : Out) : bool :=
  match x with
  | Dropped _ _ | Dequeued _ | Sent _ _ | Warned | Drained _ _ | Inserted _
  | InsertFailed | UpdateTurn _ _ | Aborted _ => true
  | _ => false
  end.

(** A snapshot that passes the first guard of [processNewData]. *)
Definition hasText (d : Transcript) : bool :=
  negb (Js.isEmpty (full_transcript_text d)).

(** A repeated element is dropped when it directly follows its equal;
    [prev] is the element before the list. *)
Fixpoint squeeze (prev : option jsstring) (l : list jsstring)
  : list jsstring :=
  match l with
  | [] => []
  | x :: l' =>
      if sameId prev x then squeeze prev l' else x :: squeeze (Some x) l'
  end.

(** Each element once, at its first place; [seen] came before the list. *)
Fixpoint firstSeen (seen l : list jsstring) : list jsstring :=
  match l with
  | [] => []
  | x :: l' =>
      if existsb (Js.eqb x) seen then firstSeen seen l'
      else x :: firstSeen (x :: seen) l'
  end.

(** The consumer writes neither [lastProcessedIdRef] nor
    [paragraphCountRef], and only does what [consumerOut] lists. *)
Definition consumerFrame (st : State) (r : State * list Out) : Prop :=
  lastProcessedId (fst r) = lastProcessedId st
  /\ paragraphCount (fst r) = paragraphCount st
  /\ forallb consumerOut (snd r) = true.


(* ================================================================== *)
(** * Sample data *)

Definition silent : AudioState := {| duration := 0; endOfQueueTime := 0 |}.

(** Two seconds of audio are buffered, up to second 5 of the stream. *)
Definition playing : AudioState := {| duration := 2; endOfQueueTime := 5 |}.

(** The same stream when 0.3 seconds remain to be played. *)
Definition fading : AudioState :=
  {| duration := 3 # 10; endOfQueueTime := 5 |}.

Definition envAt (t : Z) (connected : bool) (style : VoiceStyle)
                 (a : AudioState) : Env :=
  {| now := t; clientConnected := connected; voiceStyle := style;
     language := js "Spanish"; audio := fun _ => a |}.

(** The identifiers "t0", "t1", ... stand for those of
    [crypto.randomUUID]. *)
Definition uuids (i : nat) : jsstring := js "t" ++ [N.of_nat (48 + i)].

Definition snapshot (i t : string) : Transcript :=
  {| id := Js.lit i; full_transcript_text := Js.lit t;
     session_id := js "meeting"; user_id := js "user" |}.

(* ================================================================== *)
(** * The statements of the specification *)

(** "The Segmenter receives each distinct id exactly once, in first-seen
    order." *)
Definition dedupClaim (es : list Event) : Prop :=
  segmentedIds (snd (run es initial))
  = firstSeen [] (map id (deliveries es)).

(** The pieces of [s] between its line feeds; [cur] is the piece being
    read, reversed. *)
Fixpoint pieces (cur s : jsstring) : list jsstring :=
  match s with
  | [] => [rev cur]
  | c :: s' =>
      if (c =? Js.LF)%N then rev cur :: pieces [] s'
      else pieces (c :: cur) s'
  end.

(** "Split on one-or-more newline boundaries; trim each piece; drop empty
    pieces": the text is cut at its line feeds, every piece is trimmed,
    and the empty pieces (those inside a run of line feeds among them) are
    dropped. *)
Definition paragraphs (text : jsstring) : list jsstring :=
  filter (fun t => (0 <? List.length t)%nat) (map Js.trim (pieces [] text)).

(** What [segmentText] does to the pieces of a split. *)
Definition tidy (l : list jsstring) : list jsstring :=
  filter (fun t => (0 <? List.length t)%nat) (map Js.trim l).

(** An item that comes from a snapshot. *)
Definition isReal (item : QueueItem) : bool :=
  match refData item with Some _ => true | None => false end.

(** The items that [forEach] pushes for the segments themselves. *)
Fixpoint realItems (data : Transcript) (randomUUID : nat -> jsstring)
                   (i : nat) (segments : list jsstring) : list QueueItem :=
  match segments with
  | [] => []
  | seg :: segments' =>
      {| text := seg; refData := Some data; turnId := Some (randomUUID i) |}
      :: realItems data randomUUID (S i) segments'
  end.

(** "A filler is injected after every third real segment": the items
    [reals], of which [n] real ones came before, with the filler after
    each one whose rank in the session is a multiple of three. *)
Fixpoint interleave (n : N) (reals : list QueueItem) : list QueueItem :=
  match reals with
  | [] => []
  | r :: reals' =>
      if ((n + 1) mod 3 =? 0)%N
      then r :: filler :: interleave (n + 1) reals'
      else r :: interleave (n + 1) reals'
  end.

(** The pair [p] is what the loop sends for [item] under some style. *)
Definition dispatchOf (p : jsstring * Speaker) (item : QueueItem) : Prop :=
  snd p = fst (parseSpeaker (text item))
  /\ exists style,
       fst p = scriptText style (snd (parseSpeaker (text item))).

(** The consumer takes the items from the head of the queue, in order,
    and what it sends is what it has taken. *)
Definition consumerOrder (st : State) (r : State * list Out) : Prop :=
  queue st = shifted (snd r) ++ queue (fst r)
  /\ Forall2 dispatchOf (sent (snd r)) (dequeued (snd r)).

(** The same for a step that may also push items. *)
Definition historyOrder (st : State) (r : State * list Out) : Prop :=
  queue st ++ enqueued (snd r) = shifted (snd r) ++ queue (fst r)
  /\ Forall2 dispatchOf (sent (snd r)) (dequeued (snd r)).

(** What a history pushes: the real items [reals], interleaved with the
    fillers that the counter calls for, where the texts of [reals] are the
    segments of the snapshots handed to the segmenter, in order. *)
Definition detectorSpec (st : State) (r : State * list Out)
                        (reals : list QueueItem) : Prop :=
  forallb isReal reals = true
  /\ enqueued (snd r) = interleave (paragraphCount st) reals
  /\ paragraphCount (fst r)
     = (paragraphCount st + N.of_nat (List.length reals))%N
  /\ map text reals
     = flat_map (fun d => segmentText (full_transcript_text d))
                (segmented (snd r)).

(** [l] is [m] with some elements left out. *)
Inductive Subseq {A : Type} : list A -> list A -> Prop :=
| Subseq_nil : Subseq [] []
| Subseq_skip x l m : Subseq l m -> Subseq l (x :: m)
| Subseq_take x l m : Subseq l m -> Subseq (x :: l) (x :: m).

(** The table of styles of the specification: the stage directions around
    a text. *)
Definition styleWrap (style : VoiceStyle) (t : jsstring) : jsstring :=
  match style with
  | Breathy => js "(soft inhale) " ++ t ++ js " ... (pause)"
  | Dramatic => js "(slowly) " ++ t ++ js " ... (long pause)"
  | Enthusiastic => js "(excitedly) " ++ t
  | Formal => js "(professionally) " ++ t
  | Conversational => js "(casually) " ++ t
  | Natural => t
  end.

(** The iteration of the loop that finds [item] at the head of the queue,
    under [env], sends [scripted] to the channel [target] and shifts the
    item. *)
Definition dispatches (env : Env) (item : QueueItem)
                      (scripted : jsstring) (target : Speaker) : Prop :=
  forall me rest st,
  exists st' o,
    whileQueue env me (item :: rest) st
    = (st', Sent scripted target :: Dequeued item :: o).

(** "For every dispatched segment, the text sent is the tag-stripped text
    wrapped per the active style." *)
Definition wrapClaim (env : Env) (item : QueueItem) : Prop :=
  clientConnected env = true ->
  isBlank (scriptText (voiceStyle env) (snd (parseSpeaker (text item))))
  = false ->
  dispatches env item
    (styleWrap (voiceStyle env) (snd (parseSpeaker (text item))))
    (fst (parseSpeaker (text item))).

(** The queues left behind by the aborts of a history. *)
Fixpoint leftBehind (o : list Out) : list QueueItem :=
  match o with
  | [] => []
  | Aborted q :: o' => q ++ leftBehind o'
  | _ :: o' => leftBehind o'
  end.

(** "The abandoned queue items are lost: they are never dispatched
    afterwards": what a history has left behind at an abort is not
    dispatched by any continuation of it. *)
Definition abandonClaim (es1 es2 : list Event) : Prop :=
  forall item,
    In item (leftBehind (snd (run es1 initial))) ->
    ~ In item (dequeued (snd (run es2 (fst (run es1 initial))))).

(** A session in which the client is found disconnected when the first of
    two segments has been played. *)
Definition sessionWithAbort : list Event :=
  [EffectRun (envAt 0 true Natural silent) true;
   Deliver (envAt 10 true Natural silent) uuids (snapshot "s1" "one\ntwo");
   WaitOver (envAt 300 false Natural fading) 0].

(** The client is connected again and the effect runs. *)
Definition sessionResumed : list Event :=
  [EffectRun (envAt 5000 true Natural silent) true].

(** A snapshot of one line, "(clears throat)", played in the dramatic
    style while the output listener receives a translation. *)
Definition sessionClearsThroat : list Event :=
  [EffectRun (envAt 0 true Dramatic silent) true;
   Deliver (envAt 10 true Dramatic silent) uuids
           (snapshot "s1" "(clears throat)");
   OutputText (js "ejem");
   WaitOver (envAt 300 true Dramatic playing) 0;
   WaitOver (envAt 2100 true Dramatic fading) 0].

(** A snapshot whose only line is a bare speaker tag, in the natural
    style. *)
Definition sessionBareTag : list Event :=
  [EffectRun (envAt 0 true Natural silent) true;
   Deliver (envAt 10 true Natural silent) uuids (snapshot "s1" "Male 1:")].

(** The same, and then a piece of translation arrives. *)
Definition sessionBareTagThenText : list Event :=
  sessionBareTag ++ [OutputText (js "tarde")].

(** The same snapshot delivered twice by the poll and by the push path,
    then a second one, twice as well. *)
Definition sessionTwoSnapshots : list Event :=
  [EffectRun (envAt 0 true Natural silent) true;
   Deliver (envAt 10 true Natural silent) uuids (snapshot "s1" "one");
   Deliver (envAt 15 true Natural silent) uuids (snapshot "s1" "one");
   OutputText (js "uno");
   Deliver (envAt 20 true Natural silent) uuids (snapshot "s2" "two");
   Deliver (envAt 30 true Natural silent) uuids (snapshot "s2" "two")].

(** Snapshot "s1" comes back after "s2". *)
Definition sessionBackAndForth : list Event :=
  [EffectRun (envAt 0 true Natural silent) true;
   Deliver (envAt 10 true Natural silent) uuids (snapshot "s1" "one");
   Deliver (envAt 20 true Natural silent) uuids (snapshot "s2" "two");
   Deliver (envAt 30 true Natural silent) uuids (snapshot "s1" "one")].

(** The state in which two segments are queued and the client is not
    connected. *)
Definition queuedWhileDisconnected : State :=
  fst (run [EffectRun (envAt 0 true Natural silent) true;
            Deliver (envAt 10 false Natural silent) uuids
                    (snapshot "s1" "one\ntwo")] initial).

(** A row without its language: meeting, user, original text and
    translated text. *)
Definition Row : Type := jsstring * jsstring * jsstring * jsstring.

Definition core (r : Translation) : Row :=
  (meeting_id r, tr_user_id r, original_text r, translated_text r).

(** "A result record is persisted if and only if the item had a non-null
    snapshot reference and the translation buffer is non-empty after
    trimming": the rows due for an item and the buffer found with it. *)
Definition commitOf (m : QueueItem * jsstring) : list Row :=
  match refData (fst m) with
  | Some d =>
      if (0 <? List.length (Js.trim (snd m)))%nat
      then [(session_id d, user_id d, text (fst m), Js.trim (snd m))]
      else []
  | None => []
  end.

(** The items whose drain wait has ended, each with the buffer found. *)
Fixpoint drainedMarks (o : list Out) : list (QueueItem * jsstring) :=
  match o with
  | [] => []
  | Drained i b :: o' => (i, b) :: drainedMarks o'
  | _ :: o' => drainedMarks o'
  end.

(** The items that have left the queue for good, dropped or played, each
    with the buffer found. *)
Fixpoint settledMarks (o : list Out) : list (QueueItem * jsstring) :=
  match o with
  | [] => []
  | Dropped i b :: o' => (i, b) :: settledMarks o'
  | Drained i b :: o' => (i, b) :: settledMarks o'
  | _ :: o' => settledMarks o'
  end.

(** "For every dequeued item, a result record is persisted if and only
    if ..." *)
Definition commitClaim (es : list Event) : Prop :=
  map core (inserted (snd (run es initial)))
  = flat_map commitOf (settledMarks (snd (run es initial))).

(** The rows stored are those due for the items played. *)
Definition gated (r : State * list Out) : Prop :=
  map core (inserted (snd r)) = flat_map commitOf (drainedMarks (snd r)).

(** Two segments, the second a bare tag, in the natural style; the first
    is played and its translation stored. *)
Definition sessionDropAfterTranslation : list Event :=
  [EffectRun (envAt 0 true Natural silent) true;
   Deliver (envAt 10 true Natural silent) uuids
           (snapshot "s1" "Hello\nMale 1:");
   OutputText (js "hola");
   WaitOver (envAt 300 true Natural playing) 0;
   WaitOver (envAt 2100 true Natural fading) 0;
   InsertSettled (envAt 2200 true Natural fading) 0 true].

(** No text is sent while another one is in flight: [inflight] says that
    a text has been sent whose drain wait is not over yet. *)
Fixpoint singleFlight (inflight : bool) (o : list Out) : bool :=
  match o with
  | [] => true
  | Sent _ _ :: o' => negb inflight && singleFlight true o'
  | Drained _ _ :: o' => singleFlight false o'
  | _ :: o' => singleFlight inflight o'
  end.

(** Whether a text is in flight after [o]. *)
Fixpoint flightAfter (inflight : bool) (o : list Out) : bool :=
  match o with
  | [] => inflight
  | Sent _ _ :: o' => flightAfter true o'
  | Drained _ _ :: o' => flightAfter false o'
  | _ :: o' => flightAfter inflight o'
  end.

Definition waitsForAudio (s : Susp) : bool :=
  match s with
  | AtInsert _ => false
  | _ => true
  end.

(** There is no loop and the flag is down, or there is one loop and the
    flag is up; a text is in flight when the loop waits for its audio. *)
Definition oneLoop (st : State) (inflight : bool) : Prop :=
  (loops st = [] /\ isProcessing st = false /\ inflight = false)
  \/ (exists me s, loops st = [(me, s)] /\ isProcessing st = true
                   /\ inflight = waitsForAudio s).

(** The state of a loop that runs: it holds the flag and no other loop is
    suspended. *)
Definition ready (st : State) : Prop :=
  loops st = [] /\ isProcessing st = true.

Definition flies (inflight : bool) (r : State * list Out) : Prop :=
  singleFlight inflight (snd r) = true
  /\ oneLoop (fst r) (flightAfter inflight (snd r)).

Fixpoint noEffectRun (es : list Event) : bool :=
  match es with
  | [] => true
  | EffectRun _ _ :: _ => false
  | _ :: es' => noEffectRun es'
  end.

(** "At no point during a drain are two sends issued without an
    intervening completion of the drain wait for the prior item", and "at
    most one consumer loop instance exists". *)
Definition flightClaim (es : list Event) : Prop :=
  singleFlight false (snd (run es initial)) = true
  /\ (List.length (loops (fst (run es initial))) <= 1)%nat.

(** Three segments; the effect runs again while the insert for the first
    one is pending. *)
Definition sessionRemount : list Event :=
  [EffectRun (envAt 0 true Natural silent) true;
   Deliver (envAt 10 true Natural silent) uuids
           (snapshot "s1" "one\ntwo\nthree");
   OutputText (js "uno");
   WaitOver (envAt 300 true Natural playing) 0;
   WaitOver (envAt 2100 true Natural fading) 0;
   EffectRun (envAt 2150 true Natural fading) true;
   InsertSettled (envAt 2200 true Natural fading) 0 true].

(** The loop [me] is woken up once for each snapshot of [envs]. *)
Definition wakeUps (envs : list Env) (me : nat) (st : State)
  : State * list Out :=
  run (map (fun e => WaitOver e me) envs) st.

(** A snapshot of one segment is delivered and its text sent; a piece
    of translation arrives; while the loop waits for the audio to arrive,
    the connection closes: the effect is cleaned up and runs with
    [connected] false. *)
Definition sessionStalled : list Event :=
  [EffectRun (envAt 0 true Natural silent) true;
   Deliver (envAt 10 true Natural silent) uuids (snapshot "s1" "one");
   OutputText (js "uno");
   EffectRun (envAt 100 false Natural silent) false].

(** The item sent in [sessionStalled], and the [await] at which its loop
    is left: the arrival wait, on a [workerWait] that the terminated
    worker will not answer. *)
Definition oneItem : QueueItem :=
  {| text := js "one";
     refData := Some (snapshot "s1" "one");
     turnId := Some (js "t0") |}.

Definition lostWait : Susp :=
  AtArrival oneItem Default silent 10
            {| via := Never; issuedAt := 10; ms := 250 |}.

(** The scenario of the specification: snapshot "s1" with two segments,
    one of them tagged, in the enthusiastic style; each segment is played
    to its end before the next one is sent. *)
Definition sessionEndToEnd : list Event :=
  [EffectRun (envAt 0 true Enthusiastic silent) true;
   Deliver (envAt 10 true Enthusiastic silent) uuids
           (snapshot "s1" "Male 1: Hi there\nHello world");
   WaitOver (envAt 300 true Enthusiastic playing) 0;
   WaitOver (envAt 2100 true Enthusiastic fading) 0].

(* ================================================================== *)
(** * Further reading of the segmenter *)

(** [segments.join('\n')]: the texts of [l] with a line feed between
    two of them. *)
Fixpoint joinLines (l : list jsstring) : jsstring :=
  match l with
  | [] => []
  | [s] => s
  | s :: l' => s ++ Js.LF :: joinLines l'
  end.

(** A paragraph as the segmenter yields them: not empty, nothing to trim,
    no line feed. *)
Definition paragraph (s : jsstring) : Prop :=
  s <> [] /\ Js.trim s = s /\ ~ In Js.LF s.

(** The tag that routes a segment to a speaker; the default speaker has
    none. *)
Definition tagOf (sp : Speaker) : option jsstring :=
  match sp with
  | Default => None
  | Male1 => Some (js "Male 1:")
  | Male2 => Some (js "Male 2:")
  | Female1 => Some (js "Female 1:")
  | Female2 => Some (js "Female 2:")
  end.

Definition bareTags : list jsstring :=
  [js "Male 1:"; js "Male 2:"; js "Female 1:"; js "Female 2:"].

(* ================================================================== *)
(** * Further reading of a history *)

(** The updates of the log store that the output listener asks for. *)
Fixpoint updates (o : list Out) : list (jsstring * jsstring) :=
  match o with
  | [] => []
  | UpdateTurn t tr :: o' => (t, tr) :: updates o'
  | _ :: o' => updates o'
  end.

(** What a run of the consumer sends has something in it, and the
    consumer itself never writes to the log store. *)
Definition soundSends (r : State * list Out) : Prop :=
  Forall (fun p => isBlank (fst p) = false) (sent (snd r))
  /\ updates (snd r) = [].

(** A suspended loop that can still be resumed: its insert is pending, or
    its [workerWait] is and the timer behind it still exists. *)
Definition alive (s : Susp) : bool :=
  match s with
  | AtArrival _ _ _ _ w => waitPending w
  | AtDrain _ _ _ w => waitPending w
  | AtInsert _ => true
  end.

(** A loop whose pending [workerWait] is to be answered by the worker. *)
Definition onWorker (s : Susp) : bool :=
  match s with
  | AtArrival _ _ _ _ w | AtDrain _ _ _ w =>
      match via w with ViaWorker => true | _ => false end
  | AtInsert _ => false
  end.

(** What a run of the loop [me] leaves of the state it starts from: the
    buffer is emptied if a text is sent and kept otherwise; the other
    loops, the counter of loops and the worker are untouched; and either
    the loop has returned, with the flag down, or it is suspended, alive,
    with the flag as it was. *)
Definition loopFrame (me : nat) (st : State) (r : State * list Out) : Prop :=
  currentTranslationBuffer (fst r)
  = match sent (snd r) with
    | [] => currentTranslationBuffer st
    | _ :: _ => []
    end
  /\ (forall m, m <> me ->
        lookupLoop m (loops (fst r)) = lookupLoop m (loops st))
  /\ nextLoop (fst r) = nextLoop st
  /\ worker (fst r) = worker st
  /\ (isProcessing (fst r) = false
      /\ lookupLoop me (loops (fst r)) = lookupLoop me (loops st)
      \/ isProcessing (fst r) = isProcessing st
         /\ exists s, lookupLoop me (loops (fst r)) = Some s
                      /\ alive s = true).

(** The flag is up only if some loop can still be resumed. *)
Definition flagHeld (st : State) : Prop :=
  isProcessing st = true ->
  exists me s, lookupLoop me (loops st) = Some s /\ alive s = true.

(* ================================================================== *)
(** * The log store: [useLogStore] of [lib/state.ts] *)

Inductive Role := RoleUser | RoleAgent | RoleSystem.

Section LogStore.

(** The types of [@google/genai] that the tool fields of a turn hold. *)
Variables ToolCall ToolResponse Grounding : Type.

(** [interface ConversationTurn]; the timestamp is in milliseconds. *)
Record ConversationTurn := {
  turn_id : option jsstring;
  timestamp : Z;
  role : Role;
  turn_text : jsstring;
  translation : option jsstring;
  sourceText : option jsstring;
  isFinal : bool;
  speaker : option jsstring;
  toolUseRequest : option ToolCall;
  toolUseResponse : option ToolResponse;
  groundingChunks : option (list Grounding)
}.

(** [Partial<ConversationTurn>]: a key is present with a value, or
    absent. *)
Record TurnUpdate := {
  u_id : option (option jsstring);
  u_timestamp : option Z;
  u_role : option Role;
  u_text : option jsstring;
  u_translation : option (option jsstring);
  u_sourceText : option (option jsstring);
  u_isFinal : option bool;
  u_speaker : option (option jsstring);
  u_toolUseRequest : option (option ToolCall);
  u_toolUseResponse : option (option ToolResponse);
  u_groundingChunks : option (option (list Grounding))
}.

Definition orKeep {A : Type} (u : option A) (old : A) : A :=
  match u with
  | Some v => v
  | None => old
  end.

(** [{ ...turn, ...update }] *)
Definition spread (turn : ConversationTurn) (update : TurnUpdate)
  : ConversationTurn :=
  {| turn_id := orKeep (u_id update) (turn_id turn);
     timestamp := orKeep (u_timestamp update) (timestamp turn);
     role := orKeep (u_role update) (role turn);
     turn_text := orKeep (u_text update) (turn_text turn);
     translation := orKeep (u_translation update) (translation turn);
     sourceText := orKeep (u_sourceText update) (sourceText turn);
     isFinal := orKeep (u_isFinal update) (isFinal turn);
     speaker := orKeep (u_speaker update) (speaker turn);
     toolUseRequest := orKeep (u_toolUseRequest update) (toolUseRequest turn);
     toolUseResponse :=
       orKeep (u_toolUseResponse update) (toolUseResponse turn);
     groundingChunks :=
       orKeep (u_groundingChunks update) (groundingChunks turn) |}.

(** [turn.id === id] *)
Definition hasId (id : jsstring) (turn : ConversationTurn) : bool :=
  match turn_id turn with
  | Some i => Js.eqb i id
  | None => false
  end.

(** [addTurn]: [{ ...turn, timestamp: new Date() }] goes to the end. *)
Definition addTurn (date : Z) (turn : ConversationTurn)
                   (turns : list ConversationTurn) : list ConversationTurn :=
  turns ++ [spread turn {| u_id := None; u_timestamp := Some date;
                           u_role := None; u_text := None;
                           u_translation := None; u_sourceText := None;
                           u_isFinal := None; u_speaker := None;
                           u_toolUseRequest := None;
                           u_toolUseResponse := None;
                           u_groundingChunks := None |}].

(** [updateLastTurn] *)
Definition updateLastTurn (update : TurnUpdate)
                          (turns : list ConversationTurn)
  : list ConversationTurn :=
  match rev turns with
  | [] => turns
  | lastTurn :: before => rev before ++ [spread lastTurn update]
  end.

(** [updateTurn] *)
Definition updateTurn (id : jsstring) (update : TurnUpdate)
                      (turns : list ConversationTurn)
  : list ConversationTurn :=
  map (fun turn => if hasId id turn then spread turn update else turn) turns.

(** [clearTurns] *)
Definition clearTurns (turns : list ConversationTurn)
  : list ConversationTurn := [].

(** The update [{ translation }] of the output listener. *)
Definition translationOnly (tr : jsstring) : TurnUpdate :=
  {| u_id := None; u_timestamp := None; u_role := None; u_text := None;
     u_translation := Some (Some tr); u_sourceText := None;
     u_isFinal := None; u_speaker := None; u_toolUseRequest := None;
     u_toolUseResponse := None; u_groundingChunks := None |}.

End LogStore.

(* ================================================================== *)
(** * The bridge and the log store *)

(** The keys of the speakers, as [processNewData] and [processQueueLoop]
    write them. *)
Definition speakerKey (sp : Speaker) : jsstring :=
  match sp with
  | Default => js "default"
  | Male1 => js "Male 1"
  | Male2 => js "Male 2"
  | Female1 => js "Female 1"
  | Female2 => js "Female 2"
  end.

(** The turns that [processNewData] adds, in order. *)
Fixpoint added (o : list Out)
  : list (jsstring * jsstring * jsstring * Speaker) :=
  match o with
  | [] => []
  | AddTurn uuid uiText seg sp :: o' => (uuid, uiText, seg, sp) :: added o'
  | _ :: o' => added o'
  end.

(** What the log shows of a turn, its translation and its date apart. *)
Definition Brief : Type :=
  option jsstring * jsstring * option jsstring * option jsstring
  * Role * bool.

(** What the log is to show for a queue item that comes from a
    snapshot. *)
Definition itemBrief (item : QueueItem) : Brief :=
  (turnId item, snd (parseSpeaker (text item)), Some (text item),
   Some (speakerKey (fst (parseSpeaker (text item)))), RoleSystem, true).

Definition addedBrief (a : jsstring * jsstring * jsstring * Speaker)
  : Brief :=
  let '(uuid, uiText, seg, sp) := a in
  (Some uuid, uiText, Some seg, Some (speakerKey sp), RoleSystem, true).

Section BridgeLog.

Variables ToolCall ToolResponse Grounding : Type.

Definition brief (t : ConversationTurn ToolCall ToolResponse Grounding)
  : Brief :=
  (turn_id t, turn_text t, sourceText t, speaker t, role t, isFinal t).

(** The argument of [addTurn] in [processNewData]. *)
Definition bridgeTurn (uuid uiText seg : jsstring) (sp : Speaker)
  : ConversationTurn ToolCall ToolResponse Grounding :=
  {| turn_id := Some uuid;
     timestamp := 0;
     role := RoleSystem;
     turn_text := uiText;
     translation := Some [];
     sourceText := Some seg;
     isFinal := true;
     speaker := Some (speakerKey sp);
     toolUseRequest := None;
     toolUseResponse := None;
     groundingChunks := None |}.

(** The log store after the calls of [addTurn] and [updateTurn] that a
    history makes; [date n] is the date read at the call of rank [n]. *)
Fixpoint logAfter (date : nat -> Z) (n : nat) (o : list Out)
                  (turns : list (ConversationTurn ToolCall ToolResponse
                                                  Grounding))
  : list (ConversationTurn ToolCall ToolResponse Grounding) :=
  match o with
  | [] => turns
  | AddTurn uuid uiText seg sp :: o' =>
      logAfter date (S n) o'
               (addTurn (date n) (bridgeTurn uuid uiText seg sp) turns)
  | UpdateTurn t tr :: o' =>
      logAfter date (S n) o' (updateTurn t (translationOnly _ _ _ tr) turns)
  | _ :: o' => logAfter date n o' turns
  end.

End BridgeLog.

(** Every [updateTurn] of the history names a turn that an [addTurn]
    before it has put in the log; [known] are the turns added before
    [o]. *)
Fixpoint hits (known : list jsstring) (o : list Out) : Prop :=
  match o with
  | [] => True
  | AddTurn uuid _ _ _ :: o' => hits (uuid :: known) o'
  | UpdateTurn t _ :: o' => In t known /\ hits known o'
  | _ :: o' => hits known o'
  end.

(** The turns known after [o]. *)
Fixpoint knownAfter (known : list jsstring) (o : list Out) : list jsstring :=
  match o with
  | [] => known
  | AddTurn uuid _ _ _ :: o' => knownAfter (uuid :: known) o'
  | _ :: o' => knownAfter known o'
  end.

(** The active turn and the turns of the queued items are known. *)
Definition turnsKnown (known : list jsstring) (st : State) : Prop :=
  (forall t, currentTurnId st = Some t -> In t known)
  /\ (forall item t,
        In item (queue st) -> orNull (turnId item) = Some t -> In t known).

(** The active turn after a run of the consumer: the one before, none,
    or that of an item that was queued. *)
Definition turnFrame (st : State) (r : State * list Out) : Prop :=
  currentTurnId (fst r) = currentTurnId st
  \/ currentTurnId (fst r) = None
  \/ exists item,
       In item (queue st) /\ currentTurnId (fst r) = orNull (turnId item).

(* ================================================================== *)
(** * The tool store: [useTools] of [lib/state.ts] *)

From Stdlib Require Import DecimalString DecimalN.

(** [String(n)] for a natural number [n], as a template literal renders
    it: its decimal digits. *)
Definition numberToString (n : N) : jsstring :=
  map N_of_ascii
      (list_ascii_of_string (NilEmpty.string_of_uint (N.to_uint n))).

Section ToolStore.

(** The types of the fields [parameters] and [scheduling], with the two
    values that [addTool] writes: [{ type: 'OBJECT', properties: {} }]
    and [FunctionResponseScheduling.INTERRUPT]. *)
Variables Schema Scheduling : Type.
Variable emptyObject : Schema.
Variable INTERRUPT : Scheduling.

(** [interface FunctionCall] *)
Record FunctionCall := {
  name : jsstring;
  description : option jsstring;
  parameters : option Schema;
  isEnabled : bool;
  scheduling : option Scheduling
}.

(** [state.tools.some(tool => tool.name === n)] *)
Definition someNamed (n : jsstring) (tools : list FunctionCall) : bool :=
  existsb (fun tool => Js.eqb (name tool) n) tools.

Definition toggleTool (toolName : jsstring) (tools : list FunctionCall)
  : list FunctionCall :=
  map (fun tool =>
         if Js.eqb (name tool) toolName then
           {| name := name tool;
              description := description tool;
              parameters := parameters tool;
              isEnabled := negb (isEnabled tool);
              scheduling := scheduling tool |}
         else tool)
      tools.

(** The [while] of [addTool], which [fuel] bounds: [None] when the bound
    is reached with the name still taken. *)
Fixpoint whileTaken (fuel : nat) (tools : list FunctionCall)
                    (newToolName : jsstring) (counter : N)
  : option jsstring :=
  if someNamed newToolName tools then
    match fuel with
    | O => None
    | S fuel' =>
        whileTaken fuel' tools
                   (js "new_function_" ++ numberToString counter)
                   (counter + 1)%N
    end
  else Some newToolName.

Definition newTool (newToolName : jsstring) : FunctionCall :=
  {| name := newToolName;
     description := Some [];
     parameters := Some emptyObject;
     isEnabled := true;
     scheduling := Some INTERRUPT |}.

(** [addTool], the loop bounded by the number of tools. *)
Definition addTool (tools : list FunctionCall)
  : option (list FunctionCall) :=
  match whileTaken (List.length tools) tools (js "new_function") 1%N with
  | Some newToolName => Some (tools ++ [newTool newToolName])
  | None => None
  end.

Definition removeTool (toolName : jsstring) (tools : list FunctionCall)
  : list FunctionCall :=
  filter (fun tool => negb (Js.eqb (name tool) toolName)) tools.

Definition updateTool (oldName : jsstring) (updatedTool : FunctionCall)
                      (tools : list FunctionCall) : list FunctionCall :=
  if negb (Js.eqb oldName (name updatedTool))
     && someNamed (name updatedTool) tools
  then tools
  else map (fun tool =>
              if Js.eqb (name tool) oldName then updatedTool else tool)
           tools.

(** The names that [addTool] tries, in order: [new_function], then
    [new_function_1], [new_function_2], ... *)
Definition candidate (i : N) : jsstring :=
  if (i =? 0)%N then js "new_function"
  else js "new_function_" ++ numberToString i.

(** The actions of the store on its list of tools. *)
Inductive ToolAction :=
| Toggle (toolName : jsstring)
| Add
| Remove (toolName : jsstring)
| Update (oldName : jsstring) (updatedTool : FunctionCall).

Definition act (tools : list FunctionCall) (a : ToolAction)
  : list FunctionCall :=
  match a with
  | Toggle toolName => toggleTool toolName tools
  | Add => match addTool tools with Some tools' => tools' | None => tools end
  | Remove toolName => removeTool toolName tools
  | Update oldName updatedTool => updateTool oldName updatedTool tools
  end.

(** The store after a sequence of actions, from [tools: []]. *)
Definition toolsAfter (actions : list ToolAction) : list FunctionCall :=
  fold_left act actions [].

End ToolStore.

(* ================================================================== *)
(** * The speakers' channels: [useLiveApi] *)

(** The five clients of the hook. *)
Inductive Client := client | male1 | male2 | female1 | female2.

Definition SPEAKERS : list jsstring :=
  [js "default"; js "Male 1"; js "Male 2"; js "Female 1"; js "Female 2"].

(** [sendToSpeaker]: the client that the text is sent to. *)
Definition sendToSpeaker (speaker : jsstring) : Client :=
  if Js.eqb speaker (js "Male 1") then male1
  else if Js.eqb speaker (js "Male 2") then male2
  else if Js.eqb speaker (js "Female 1") then female1
  else if Js.eqb speaker (js "Female 2") then female2
  else client.

(** The key [k] of [c.on('audio', onAudio(k))]: the streamer that gets
    the audio of the client [c]. *)
Definition audioKey (c : Client) : jsstring :=
  match c with
  | client => js "default"
  | male1 => js "Male 1"
  | male2 => js "Male 2"
  | female1 => js "Female 1"
  | female2 => js "Female 2"
  end.

(** [streamersRef.current[key]], for the keys that the object itself
    holds; the streamers are given by what they would report. *)
Fixpoint streamerAt (streamers : list (jsstring * AudioState))
                    (key : jsstring) : option AudioState :=
  match streamers with
  | [] => None
  | (k, s) :: streamers' =>
      if Js.eqb k key then Some s else streamerAt streamers' key
  end.

(** The streamers once [SPEAKERS.forEach] has made them, [report key]
    being the state of the one stored under [key]. *)
Definition streamersOf (report : jsstring -> AudioState)
  : list (jsstring * AudioState) :=
  map (fun key => (key, report key)) SPEAKERS.

(** [getAudioStreamerState]. A streamer is an object, hence truthy, and
    [x || 0] is [x] for a number that is neither zero nor [NaN]. *)
Definition getAudioStreamerState (streamers : list (jsstring * AudioState))
                                 (speaker : jsstring) : AudioState :=
  let target :=
    match (if Js.isEmpty speaker then None else streamerAt streamers speaker)
    with
    | Some s => Some s
    | None => streamerAt streamers (js "default")
    end in
  match target with
  | Some s => {| duration := duration s; endOfQueueTime := endOfQueueTime s |}
  | None => {| duration := 0; endOfQueueTime := 0 |}
  end.

(* ================================================================== *)
(** * The control tray *)

(** [connectButtonTitle] *)
Definition connectButtonTitle (connected : bool) (language : jsstring)
  : jsstring :=
  if connected then js "Stop streaming"
  else if Js.isEmpty language then js "Select a language to start"
  else js "Start streaming".

(** [isPlayDisabled] *)
Definition isPlayDisabled (connected : bool) (language : jsstring) : bool :=
  negb connected && Js.isEmpty language.

(** The text of the indicator. *)
Definition textIndicator (connected : bool) (language : jsstring)
  : jsstring :=
  if connected then js "Live"
  else if negb (Js.isEmpty language) then js "Ready"
  else [].

(** The icon of the connect button and what a click on it calls. *)
Inductive Click := CallConnect | CallDisconnect.

Definition onClick (connected : bool) : Click :=
  if connected then CallDisconnect else CallConnect.

(** What a click on the connect button does; a button rendered with
    [disabled] receives no click. *)
Definition click (connected : bool) (language : jsstring) : option Click :=
  if isPlayDisabled connected language then None
  else Some (onClick connected).

(* ================================================================== *)
(** * The settings store: [useSettings] of [lib/state.ts] *)

Module Settings.

Section Store.

(** The numbers of JavaScript, and the prompt template
    [generateSystemPrompt], whose text is not modelled: the store only
    calls it. *)
Variable Num : Type.
Variable generateSystemPrompt : jsstring -> Num -> VoiceStyle -> jsstring.

(** The constants of [lib/constants] and the literals [1.0] and [0.2]. *)
Variables DEFAULT_LIVE_API_MODEL DEFAULT_VOICE : jsstring.
Variables one fifth : Num.

Record Store := {
  systemPrompt : jsstring;
  model : jsstring;
  voice : jsstring;
  voiceStyle : VoiceStyle;
  language : jsstring;
  speechRate : Num;
  backgroundPadEnabled : bool;
  backgroundPadVolume : Num
}.

Definition initial : Store :=
  {| language := js "Taglish (Philippines)";
     speechRate := one;
     voiceStyle := Conversational;
     systemPrompt :=
       generateSystemPrompt (js "Taglish (Philippines)") one Conversational;
     model := DEFAULT_LIVE_API_MODEL;
     voice := DEFAULT_VOICE;
     backgroundPadEnabled := false;
     backgroundPadVolume := fifth |}.

Definition setSystemPrompt (prompt : jsstring) (s : Store) : Store :=
  {| systemPrompt := prompt; model := model s; voice := voice s;
     voiceStyle := voiceStyle s; language := language s;
     speechRate := speechRate s;
     backgroundPadEnabled := backgroundPadEnabled s;
     backgroundPadVolume := backgroundPadVolume s |}.

Definition setModel (m : jsstring) (s : Store) : Store :=
  {| systemPrompt := systemPrompt s; model := m; voice := voice s;
     voiceStyle := voiceStyle s; language := language s;
     speechRate := speechRate s;
     backgroundPadEnabled := backgroundPadEnabled s;
     backgroundPadVolume := backgroundPadVolume s |}.

Definition setVoice (v : jsstring) (s : Store) : Store :=
  {| systemPrompt := systemPrompt s; model := model s; voice := v;
     voiceStyle := voiceStyle s; language := language s;
     speechRate := speechRate s;
     backgroundPadEnabled := backgroundPadEnabled s;
     backgroundPadVolume := backgroundPadVolume s |}.

Definition setVoiceStyle (style : VoiceStyle) (s : Store) : Store :=
  {| systemPrompt :=
       generateSystemPrompt (language s) (speechRate s) style;
     model := model s; voice := voice s;
     voiceStyle := style; language := language s;
     speechRate := speechRate s;
     backgroundPadEnabled := backgroundPadEnabled s;
     backgroundPadVolume := backgroundPadVolume s |}.

Definition setLanguage (l : jsstring) (s : Store) : Store :=
  {| systemPrompt := generateSystemPrompt l (speechRate s) (voiceStyle s);
     model := model s; voice := voice s;
     voiceStyle := voiceStyle s; language := l;
     speechRate := speechRate s;
     backgroundPadEnabled := backgroundPadEnabled s;
     backgroundPadVolume := backgroundPadVolume s |}.

Definition setSpeechRate (rate : Num) (s : Store) : Store :=
  {| systemPrompt := generateSystemPrompt (language s) rate (voiceStyle s);
     model := model s; voice := voice s;
     voiceStyle := voiceStyle s; language := language s;
     speechRate := rate;
     backgroundPadEnabled := backgroundPadEnabled s;
     backgroundPadVolume := backgroundPadVolume s |}.

Definition setBackgroundPadEnabled (enabled : bool) (s : Store) : Store :=
  {| systemPrompt := systemPrompt s; model := model s; voice := voice s;
     voiceStyle := voiceStyle s; language := language s;
     speechRate := speechRate s;
     backgroundPadEnabled := enabled;
     backgroundPadVolume := backgroundPadVolume s |}.

Definition setBackgroundPadVolume (volume : Num) (s : Store) : Store :=
  {| systemPrompt := systemPrompt s; model := model s; voice := voice s;
     voiceStyle := voiceStyle s; language := language s;
     speechRate := speechRate s;
     backgroundPadEnabled := backgroundPadEnabled s;
     backgroundPadVolume := volume |}.

(** The calls of the store's setters. *)
Inductive Action :=
| SetSystemPrompt (prompt : jsstring)
| SetModel (m : jsstring)
| SetVoice (v : jsstring)
| SetVoiceStyle (style : VoiceStyle)
| SetLanguage (l : jsstring)
| SetSpeechRate (rate : Num)
| SetBackgroundPadEnabled (enabled : bool)
| SetBackgroundPadVolume (volume : Num).

Definition act (s : Store) (a : Action) : Store :=
  match a with
  | SetSystemPrompt prompt => setSystemPrompt prompt s
  | SetModel m => setModel m s
  | SetVoice v => setVoice v s
  | SetVoiceStyle style => setVoiceStyle style s
  | SetLanguage l => setLanguage l s
  | SetSpeechRate rate => setSpeechRate rate s
  | SetBackgroundPadEnabled enabled => setBackgroundPadEnabled enabled s
  | SetBackgroundPadVolume volume => setBackgroundPadVolume volume s
  end.

(** The store after a sequence of calls. *)
Definition after (actions : list Action) : Store :=
  fold_left act actions initial.

(** The prompt is the one generated from the settings. *)
Definition generated (s : Store) : Prop :=
  systemPrompt s
  = generateSystemPrompt (language s) (speechRate s) (voiceStyle s).

(** The setters that generate the prompt anew, and the one that writes
    a prompt of the user's. *)
Definition generates (a : Action) : bool :=
  match a with
  | SetVoiceStyle _ | SetLanguage _ | SetSpeechRate _ => true
  | _ => false
  end.

Definition writesPrompt (a : Action) : bool :=
  match a with
  | SetSystemPrompt _ => true
  | _ => false
  end.

End Store.

End Settings.

(** What a run of the loop [me] leaves of that loop: it is suspended as
    it was, or at a wait that the worker is to answer only if there was
    a worker when the run began. *)
Definition viaFrame (me : nat) (st : State) (r : State * list Out) : Prop :=
  forall s,
    lookupLoop me (loops (fst r)) = Some s ->
    lookupLoop me (loops st) = Some s
    \/ (onWorker s = true -> worker st = true).
(* ================================================================== *)
(** * Basic facts *)

Lemma segmented_app a b : segmented (a ++ b) = segmented a ++ segmented b.
Proof.
  induction a as [|x a IH]; simpl; [reflexivity|].
  destruct x; simpl; rewrite IH; reflexivity.
Qed.

Lemma segmentedIds_app a b :
  segmentedIds (a ++ b) = segmentedIds a ++ segmentedIds b.
Proof. unfold segmentedIds. rewrite segmented_app. apply map_app. Qed.

Lemma shifted_app a b : shifted (a ++ b) = shifted a ++ shifted b.
Proof.
  induction a as [|x a IH]; simpl; [reflexivity|].
  destruct x; simpl; rewrite IH; reflexivity.
Qed.

Lemma enqueued_app a b : enqueued (a ++ b) = enqueued a ++ enqueued b.
Proof.
  induction a as [|x a IH]; simpl; [reflexivity|].
  destruct x; simpl; rewrite IH; reflexivity.
Qed.

Lemma dequeued_app a b : dequeued (a ++ b) = dequeued a ++ dequeued b.
Proof.
  induction a as [|x a IH]; simpl; [reflexivity|].
  destruct x; simpl; rewrite IH; reflexivity.
Qed.

Lemma sent_app a b : sent (a ++ b) = sent a ++ sent b.
Proof.
  induction a as [|x a IH]; simpl; [reflexivity|].
  destruct x; simpl; rewrite IH; reflexivity.
Qed.

Lemma inserted_app a b : inserted (a ++ b) = inserted a ++ inserted b.
Proof.
  induction a as [|x a IH]; simpl; [reflexivity|].
  destruct x; simpl; rewrite IH; reflexivity.
Qed.

Lemma consumer_not_segmented o :
  forallb consumerOut o = true -> segmented o = [] /\ enqueued o = [].
Proof.
  induction o as [|x o IH]; simpl; [auto|].
  intros H. apply andb_prop in H. destruct H as [Hx Ho].
  destruct x; simpl in *; try discriminate; auto.
Qed.

(** Splits the goal along every test the code makes. *)
Ltac branches :=
  repeat match goal with
         | |- context [if ?b then _ else _] => destruct b eqn:?
         | |- context [match ?x with _ => _ end] => destruct x eqn:?
         end.

(** ** The consumer leaves the detector alone *)


Section ConsumerFrame.

Variables (env : Env) (me : nat) (k : State -> State * list Out).
Hypothesis k_frame : forall st, consumerFrame st (k st).

Lemma endOfBody_frame st : consumerFrame st (endOfBody k st).
Proof.
  unfold endOfBody.
  destruct (k_frame (setCurrentTurnId None st)) as (H1 & H2 & H3).
  repeat split; auto.
Qed.

Lemma commit_frame item st : consumerFrame st (commit env me k item st).
Proof.
  unfold commit. branches; try apply endOfBody_frame.
  repeat split; reflexivity.
Qed.

Lemma drainLoop_frame item target playStart st :
  consumerFrame st (drainLoop env me k item target playStart st).
Proof.
  unfold drainLoop.
  pose proof (commit_frame item st) as (H1 & H2 & H3).
  destruct (commit env me k item st) as [st' o]; simpl in *.
  branches; repeat split; simpl; auto.
Qed.

Lemma arrivalLoop_frame item target pre waitStart st :
  consumerFrame st (arrivalLoop env me k item target pre waitStart st).
Proof.
  unfold arrivalLoop.
  pose proof (drainLoop_frame item target (now env) st) as (H1 & H2 & H3).
  destruct (drainLoop env me k item target (now env) st) as [st' o];
    simpl in *.
  branches; repeat split; simpl; auto.
Qed.

End ConsumerFrame.

Lemma whileQueue_frame env me q st : consumerFrame st (whileQueue env me q st).
Proof.
  revert st. induction q as [|item rest IH]; intros st; simpl.
  - repeat split; reflexivity.
  - destruct (clientConnected env); simpl; [|repeat split; reflexivity].
    destruct (parseSpeaker (text item)) as [target textToSend].
    destruct (isBlank (scriptText (voiceStyle env) textToSend)).
    + destruct (IH (setQueue rest (setCurrentTurnId (orNull (turnId item)) st)))
        as (H1 & H2 & H3).
      destruct (whileQueue env me rest _) as [st' o]; simpl in *.
      repeat split; auto.
    + match goal with
      | |- context [arrivalLoop env me ?k ?i ?t ?p ?w ?s] =>
          destruct (arrivalLoop_frame env me k IH i t p w s) as (H1 & H2 & H3);
          destruct (arrivalLoop env me k i t p w s) as [st' o]
      end; simpl in *.
      repeat split; auto.
Qed.

Lemma resumeWhile_frame env me st : consumerFrame st (resumeWhile env me st).
Proof. apply whileQueue_frame. Qed.

Lemma processQueueLoop_frame env st :
  consumerFrame st (processQueueLoop env st).
Proof.
  unfold processQueueLoop. destruct (isProcessing st).
  - repeat split; reflexivity.
  - destruct (resumeWhile_frame env (nextLoop st)
                (setNextLoop (S (nextLoop st)) (setIsProcessing true st)))
      as (H1 & H2 & H3).
    repeat split; auto.
Qed.

Lemma effectBody_frame env connected st :
  consumerFrame st (effectBody env connected st).
Proof.
  unfold effectBody. destruct connected; cbn [negb];
    [|repeat split; reflexivity].
  destruct (0 <? List.length (queue (setIsProcessing false st)))%nat.
  - destruct (processQueueLoop_frame env (setIsProcessing false st))
      as (H1 & H2 & H3).
    destruct (processQueueLoop env (setIsProcessing false st)) as [st' o].
    repeat split; auto.
  - repeat split; reflexivity.
Qed.

Lemma onOutput_frame chunk st : consumerFrame st (onOutput chunk st).
Proof. unfold onOutput; simpl. branches; repeat split; reflexivity. Qed.

Lemma onWaitOver_frame env me st : consumerFrame st (onWaitOver env me st).
Proof.
  unfold onWaitOver.
  destruct (lookupLoop me (loops st)) as [[item t pre ws w|item t ps w|item]|];
    try (repeat split; reflexivity);
    (destruct (waitPending w); [|repeat split; reflexivity]).
  - apply (arrivalLoop_frame env me _ (resumeWhile_frame env me)
             item t pre ws (setLoops (removeLoop me (loops st)) st)).
  - apply (drainLoop_frame env me _ (resumeWhile_frame env me)
             item t ps (setLoops (removeLoop me (loops st)) st)).
Qed.

Lemma onInsertSettled_frame env me ok st :
  consumerFrame st (onInsertSettled env me ok st).
Proof.
  unfold onInsertSettled.
  destruct (lookupLoop me (loops st)) as [[item t pre ws w|item t ps w|item]|];
    try (repeat split; reflexivity).
  destruct (endOfBody_frame _ (resumeWhile_frame env me)
              (setLoops (removeLoop me (loops st)) st)) as (H1 & H2 & H3).
  destruct (endOfBody _ _) as [st' o]. destruct ok; repeat split; auto.
Qed.

Lemma step_frame e st :
  match e with
  | Deliver _ _ _ => True
  | _ => consumerFrame st (step e st)
  end.
Proof.
  destruct e as [env c|env u d|chunk|env me|env me ok]; simpl step; auto.
  - apply (effectBody_frame env c (cleanup st)).
  - apply onOutput_frame.
  - apply onWaitOver_frame.
  - apply onInsertSettled_frame.
Qed.

(** ** The detector *)


Lemma forEachSegment_detector d u i segs st :
  lastProcessedId (fst (forEachSegment d u i segs st)) = lastProcessedId st
  /\ segmented (snd (forEachSegment d u i segs st)) = [].
Proof.
  revert i st. induction segs as [|seg segs IH]; intros i st; simpl; [auto|].
  unfold enqueueSegment. destruct (parseSpeaker seg) as [sp ui].
  match goal with
  | |- context [if ?b then _ else _] => destruct b
  end;
    match goal with
    | |- context [forEachSegment d u (S i) segs ?s] =>
        destruct (IH (S i) s) as [H1 H2];
        destruct (forEachSegment d u (S i) segs s) as [st2 o2]
    end; simpl in *; auto.
Qed.

Lemma js_eqb_eq s t : Js.eqb s t = true <-> s = t.
Proof.
  unfold Js.eqb. destruct (list_eq_dec N.eq_dec s t); split; intros;
    congruence.
Qed.



Lemma run_segmented es st :
  segmentedIds (snd (run es st))
  = squeeze (lastProcessedId st) (map id (filter hasText (deliveries es))).
Proof.
  unfold segmentedIds.
  revert st. induction es as [|e es IH]; intros st; [reflexivity|].
  simpl run.
  assert (Hother : consumerFrame st (step e st) ->
            deliveries (e :: es) = deliveries es ->
            map id (segmented (snd (let '(st1, o1) := step e st in
                               let '(st2, o2) := run es st1 in (st2, o1 ++ o2))))
            = squeeze (lastProcessedId st)
                (map id (filter hasText (deliveries (e :: es))))).
  { intros (H1 & _ & H3) Hd. rewrite Hd.
    destruct (step e st) as [st1 o1]. specialize (IH st1).
    destruct (run es st1) as [st2 o2]. simpl in *.
    apply consumer_not_segmented in H3. destruct H3 as [H3 _].
    rewrite segmented_app, H3. simpl. rewrite IH, H1. reflexivity. }
  pose proof (step_frame e st) as Hf.
  destruct e as [env c|env u d|chunk|env me|env me ok];
    try (apply Hother; [exact Hf|reflexivity]).
  clear Hother Hf. simpl. unfold processNewData, hasText.
  destruct (Js.isEmpty (full_transcript_text d)) eqn:He; simpl.
  - specialize (IH st). destruct (run es st) as [st2 o2]. exact IH.
  - destruct (sameId (lastProcessedId st) (id d)) eqn:Hs.
    + specialize (IH st). destruct (run es st) as [st2 o2]. exact IH.
    + destruct (0 <? List.length (segmentText (full_transcript_text d)))%nat.
      * pose proof (forEachSegment_detector d u 0
                      (segmentText (full_transcript_text d))
                      (setLastProcessedId (Some (id d)) st)) as [F1 F2].
        destruct (forEachSegment d u 0 _ _) as [st1 o1]. simpl in F1, F2.
        pose proof (processQueueLoop_frame env st1) as (P1 & _ & P3).
        destruct (processQueueLoop env st1) as [st2 o2]. simpl in P1, P3.
        apply consumer_not_segmented in P3. destruct P3 as [P3 _].
        specialize (IH st2). destruct (run es st2) as [st3 o3].
        simpl in *. rewrite !segmented_app, F2, P3. simpl.
        rewrite IH, P1, F1. reflexivity.
      * specialize (IH (setLastProcessedId (Some (id d)) st)).
        destruct (run es _) as [st3 o3]. simpl in *. rewrite IH.
        reflexivity.
Qed.

Lemma existsb_eqb_In x l : existsb (Js.eqb x) l = true <-> In x l.
Proof.
  rewrite existsb_exists. split.
  - intros (y & Hy & He). apply js_eqb_eq in He. subst. exact Hy.
  - intros H. exists x. split; [exact H|]. apply js_eqb_eq. reflexivity.
Qed.

Lemma squeeze_firstSeen l : forall prev seen,
  (forall p, prev = Some p -> In p seen) ->
  NoDup (squeeze prev l) ->
  (forall x, In x seen -> ~ In x (squeeze prev l)) ->
  squeeze prev l = firstSeen seen l.
Proof.
  induction l as [|x l IH]; intros prev seen Hp Hn Hd; [reflexivity|].
  simpl in *. destruct (sameId prev x) eqn:Hs.
  - destruct prev as [p|]; simpl in Hs; [|discriminate].
    apply js_eqb_eq in Hs. subst p.
    assert (Hx : existsb (Js.eqb x) seen = true)
      by (apply existsb_eqb_In; auto).
    rewrite Hx. apply IH; auto.
  - destruct (existsb (Js.eqb x) seen) eqn:Hx.
    + apply existsb_eqb_In in Hx. exfalso. apply (Hd x Hx). left; reflexivity.
    + inversion Hn; subst. f_equal. apply IH; auto.
      * intros p Hp'. inversion Hp'; subst. left; reflexivity.
      * intros y [Hy|Hy] Hin; [subst; auto|].
        apply (Hd y Hy). right; exact Hin.
Qed.

(* ================================================================== *)
(** * C1: de-duplication of snapshots *)

(** C1, as the specification states it, fails: the detector remembers
    only the last identifier it processed, so when snapshot "s1" is
    delivered again after "s2" it is segmented a second time. *)
Lemma C1_last_id_only : ~ dedupClaim sessionBackAndForth.
Proof. unfold dedupClaim. vm_compute. discriminate. Qed.

(** C1, amended: in every history, the snapshots handed to the segmenter
    are the delivered snapshots with a non-empty text whose identifier
    differs from that of the delivery (with text) just before, in order
    of arrival, whichever path delivered them; a run of deliveries of one
    identifier is processed once. When no identifier comes back after
    another one, each distinct identifier is processed exactly once, in
    first-seen order. *)
Theorem C1_detector_dedup (es : list Event) :
  let ids := map id (filter hasText (deliveries es)) in
  segmentedIds (snd (run es initial)) = squeeze None ids
  /\ (NoDup (squeeze None ids) ->
      segmentedIds (snd (run es initial)) = firstSeen [] ids).
Proof.
  intros ids. pose proof (run_segmented es initial) as H. simpl in H.
  split; [exact H|]. intros Hn. rewrite H.
  apply squeeze_firstSeen; auto; intros; discriminate.
Qed.

Lemma C1_detector_dedup_witness :
  segmentedIds (snd (run sessionTwoSnapshots initial))
  = firstSeen [] (map id (filter hasText (deliveries sessionTwoSnapshots))).
Proof.
  apply (proj2 (C1_detector_dedup sessionTwoSnapshots)).
  vm_compute. repeat constructor; simpl; intuition discriminate.
Defined.

(* ================================================================== *)
(** * The segmenter *)

Lemma trimEnd_snoc_white s c :
  Js.isWhite c = true -> Js.trimEnd (s ++ [c]) = Js.trimEnd s.
Proof.
  intros Hc. unfold Js.trimEnd. rewrite rev_app_distr. simpl.
  rewrite Hc. reflexivity.
Qed.

Lemma trim_snoc_white s c :
  Js.isWhite c = true -> Js.trim (s ++ [c]) = Js.trim s.
Proof.
  intros Hc. unfold Js.trim. induction s as [|a s IH]; simpl.
  - rewrite Hc. reflexivity.
  - destruct (Js.isWhite a) eqn:Ha; [exact IH|].
    change (a :: s ++ [c]) with ((a :: s) ++ [c]).
    apply trimEnd_snoc_white. exact Hc.
Qed.

Lemma tidy_cons_white p l :
  Js.trim p = [] -> tidy (p :: l) = tidy l.
Proof. intros H. unfold tidy. simpl. rewrite H. reflexivity. Qed.

Lemma tidy_cons_same p q l l' :
  Js.trim p = Js.trim q -> tidy l = tidy l' -> tidy (p :: l) = tidy (q :: l').
Proof.
  unfold tidy. simpl. intros -> H.
  destruct (0 <? List.length (Js.trim q))%nat; [f_equal|]; exact H.
Qed.

Lemma splitGo_insep s :
  tidy (Js.splitGo true [] s) = tidy (Js.splitGo false [] s).
Proof.
  destruct s as [|c s]; [reflexivity|]. simpl.
  destruct (c =? Js.LF)%N; [|reflexivity].
  symmetry. apply tidy_cons_white. reflexivity.
Qed.

Lemma splitGo_pieces s : forall cur,
  tidy (Js.splitGo false cur s) = tidy (pieces cur s).
Proof.
  induction s as [|c s IH]; intros cur; [reflexivity|].
  simpl. destruct (c =? Js.LF)%N eqn:Hlf.
  - apply tidy_cons_same; [reflexivity|].
    rewrite splitGo_insep. apply IH.
  - destruct ((c =? Js.CR)%N && Js.startsWith s [Js.LF]) eqn:Hcr.
    + apply andb_prop in Hcr. destruct Hcr as [Hc Hs].
      apply N.eqb_eq in Hc. subst c. rewrite IH.
      destruct s as [|d s]; [discriminate|]. cbn [Js.startsWith] in Hs.
      apply andb_prop in Hs. destruct Hs as [Hs _].
      apply N.eqb_eq in Hs. subst d. simpl.
      apply tidy_cons_same; [|reflexivity].
      symmetry. apply trim_snoc_white. reflexivity.
    + apply IH.
Qed.

(** [segmentText] yields the paragraphs of the text, in the order of the
    text. *)
Lemma segmentText_paragraphs text : segmentText text = paragraphs text.
Proof.
  unfold segmentText, paragraphs, Js.splitNewlines.
  destruct text as [|c text]; [reflexivity|].
  cbn [Js.isEmpty]. apply (splitGo_pieces (c :: text) []).
Qed.

(* ================================================================== *)
(** * What the detector pushes *)

Lemma interleave_app a : forall n b,
  interleave n (a ++ b)
  = interleave n a ++ interleave (n + N.of_nat (List.length a)) b.
Proof.
  induction a as [|x a IH]; intros n b.
  - simpl. rewrite N.add_0_r. reflexivity.
  - cbn [interleave app List.length]. rewrite IH.
    replace (n + 1 + N.of_nat (List.length a))%N
      with (n + N.of_nat (S (List.length a)))%N by lia.
    destruct ((n + 1) mod 3 =? 0)%N; reflexivity.
Qed.

Lemma interleave_real reals : forall n,
  forallb isReal reals = true -> filter isReal (interleave n reals) = reals.
Proof.
  induction reals as [|r reals IH]; intros n H; [reflexivity|].
  simpl in H. apply andb_prop in H. destruct H as [Hr Hs].
  cbn [interleave]. destruct ((n + 1) mod 3 =? 0)%N; simpl; rewrite Hr;
    f_equal; apply IH; exact Hs.
Qed.

Lemma realItems_real d u segs : forall i,
  forallb isReal (realItems d u i segs) = true
  /\ map text (realItems d u i segs) = segs.
Proof.
  induction segs as [|seg segs IH]; intros i; simpl; [auto|].
  destruct (IH (S i)) as [H1 H2]. rewrite H1, H2. auto.
Qed.

(** What [forEach] leaves: the queue grown by the segments and their
    fillers, the counter grown by the number of segments. *)
Lemma forEachSegment_spec d u segs : forall i st,
  let r := forEachSegment d u i segs st in
  enqueued (snd r) = interleave (paragraphCount st) (realItems d u i segs)
  /\ queue (fst r) = queue st ++ enqueued (snd r)
  /\ paragraphCount (fst r)
     = (paragraphCount st + N.of_nat (List.length segs))%N
  /\ shifted (snd r) = [] /\ sent (snd r) = [] /\ dequeued (snd r) = []
  /\ inserted (snd r) = []
  /\ isProcessing (fst r) = isProcessing st
  /\ loops (fst r) = loops st
  /\ nextLoop (fst r) = nextLoop st.
Proof.
  induction segs as [|seg segs IH]; intros i st.
  - simpl. rewrite app_nil_r, N.add_0_r. repeat split; reflexivity.
  - cbn [forEachSegment realItems interleave]. unfold enqueueSegment.
    destruct (parseSpeaker seg) as [sp ui]. cbn [paragraphCount setParagraphCount
      setQueue].
    replace (0 <? paragraphCount st + 1)%N with true
      by (symmetry; apply N.ltb_lt; lia).
    cbn [andb].
    destruct ((paragraphCount st + 1) mod 3 =? 0)%N;
      match goal with
      | |- context [forEachSegment d u (S i) segs ?s] =>
          specialize (IH (S i) s);
          destruct (forEachSegment d u (S i) segs s) as [st2 o2]
      end;
      cbn [fst snd] in *;
      destruct IH as (E1 & E2 & E3 & E4 & E5 & E6 & E7 & E8 & E9 & E10);
      cbn [paragraphCount queue isProcessing loops nextLoop setQueue
           setParagraphCount] in *;
      cbn [app enqueued shifted sent dequeued inserted];
      rewrite E1 in *; rewrite E2, E3, E4, E5, E6, E7, E8, E9, E10;
      rewrite <- ?app_assoc; cbn [app];
      repeat split; try reflexivity; cbn [List.length]; lia.
Qed.

(* ================================================================== *)
(** * The consumer takes the queue in order *)

Section ConsumerOrder.

Variables (env : Env) (me : nat) (k : State -> State * list Out).
Variable rest : list QueueItem.
Hypothesis k_order : forall st, queue st = rest -> consumerOrder st (k st).

Lemma endOfBody_order st :
  queue st = rest -> consumerOrder st (endOfBody k st).
Proof. intros H. unfold endOfBody. apply (k_order (setCurrentTurnId None st) H). Qed.

Lemma commit_order item st :
  queue st = rest -> consumerOrder st (commit env me k item st).
Proof.
  intros H. unfold commit. branches; try (apply endOfBody_order; exact H).
  split; [reflexivity|constructor].
Qed.

Lemma drainLoop_order item target playStart st :
  queue st = rest ->
  consumerOrder st (drainLoop env me k item target playStart st).
Proof.
  intros H. unfold drainLoop.
  pose proof (commit_order item st H) as [H1 H2].
  destruct (commit env me k item st) as [st' o]; simpl in *.
  branches; split; simpl; auto; constructor.
Qed.

Lemma arrivalLoop_order item target pre waitStart st :
  queue st = rest ->
  consumerOrder st (arrivalLoop env me k item target pre waitStart st).
Proof.
  intros H. unfold arrivalLoop.
  pose proof (drainLoop_order item target (now env) st H) as [H1 H2].
  destruct (drainLoop env me k item target (now env) st) as [st' o];
    simpl in *.
  branches; split; simpl; auto; constructor.
Qed.

End ConsumerOrder.

Lemma whileQueue_order env me q : forall st,
  queue st = q -> consumerOrder st (whileQueue env me q st).
Proof.
  induction q as [|item rest IH]; intros st Hq; simpl.
  - split; [simpl; rewrite Hq; reflexivity|constructor].
  - destruct (clientConnected env); simpl; [|split; [reflexivity|constructor]].
    destruct (parseSpeaker (text item)) as [target textToSend] eqn:Hp.
    destruct (isBlank (scriptText (voiceStyle env) textToSend)).
    + destruct (IH (setQueue rest (setCurrentTurnId (orNull (turnId item)) st))
                  eq_refl) as [H1 H2].
      destruct (whileQueue env me rest _) as [st' o]; simpl in *.
      split; simpl; [rewrite Hq, <- H1; reflexivity|exact H2].
    + match goal with
      | |- context [arrivalLoop env me ?k ?i ?t ?p ?w ?s] =>
          destruct (arrivalLoop_order env me k IH i t p w s eq_refl)
            as [H1 H2];
          destruct (arrivalLoop env me k i t p w s) as [st' o]
      end; simpl in *.
      split; simpl; [rewrite Hq, <- H1; reflexivity|].
      constructor; [|exact H2].
      split; simpl; rewrite Hp; simpl; [reflexivity|].
      exists (voiceStyle env). reflexivity.
Qed.

Lemma resumeWhile_order env me st :
  consumerOrder st (resumeWhile env me st).
Proof. apply whileQueue_order. reflexivity. Qed.

Lemma resumeWhile_order_at env me rest st :
  queue st = rest -> consumerOrder st (resumeWhile env me st).
Proof. intros _. apply resumeWhile_order. Qed.

Lemma processQueueLoop_order env st :
  consumerOrder st (processQueueLoop env st).
Proof.
  unfold processQueueLoop. destruct (isProcessing st).
  - split; [reflexivity|constructor].
  - apply (resumeWhile_order env (nextLoop st)
             (setNextLoop (S (nextLoop st)) (setIsProcessing true st))).
Qed.

Lemma consumer_history st r :
  consumerOrder st r -> forallb consumerOut (snd r) = true ->
  historyOrder st r.
Proof.
  intros [H1 H2] Hc. apply consumer_not_segmented in Hc.
  destruct Hc as [_ Hc]. split; [|exact H2].
  rewrite Hc, app_nil_r. exact H1.
Qed.

Lemma step_order e st : historyOrder st (step e st).
Proof.
  destruct e as [env c|env u d|chunk|env me|env me ok]; simpl step.
  - apply consumer_history; [|apply (effectBody_frame env c (cleanup st))].
    unfold effectBody. destruct c; cbn [negb];
      [|split; [reflexivity|constructor]].
    destruct (0 <? List.length (queue (setIsProcessing false (cleanup st))))%nat.
    + destruct (processQueueLoop_order env (setIsProcessing false (cleanup st)))
        as [H1 H2].
      destruct (processQueueLoop env _) as [st' o]. split; assumption.
    + split; [reflexivity|constructor].
  - unfold processNewData. branches; try (split; [simpl; rewrite ?app_nil_r;
      reflexivity|constructor]).
    match goal with
    | H : forEachSegment d u 0 ?segs ?s = _ |- _ =>
        pose proof (forEachSegment_spec d u segs 0 s) as F; rewrite H in F
    end.
    cbn [fst snd] in F.
    destruct F as (_ & E2 & _ & E4 & E5 & E6 & _).
    match goal with
    | H : processQueueLoop env ?s = _ |- _ =>
        pose proof (processQueueLoop_order env s) as [P1 P2];
        pose proof (processQueueLoop_frame env s) as (_ & _ & P3);
        rewrite H in P1, P2, P3
    end.
    cbn [fst snd] in *. apply consumer_not_segmented in P3.
    destruct P3 as [_ P3].
    split; cbn [fst snd enqueued shifted sent dequeued].
    + rewrite enqueued_app, shifted_app, P3, E4, app_nil_r. cbn [app].
      rewrite <- P1, E2. reflexivity.
    + rewrite sent_app, dequeued_app, E5, E6. exact P2.
  - apply consumer_history; [|apply onOutput_frame].
    unfold onOutput. branches; split; try reflexivity; constructor.
  - apply consumer_history; [|apply onWaitOver_frame].
    unfold onWaitOver. branches; try (split; [reflexivity|constructor]).
    + exact (@arrivalLoop_order env me (resumeWhile env me) (queue st)
               (resumeWhile_order_at env me (rest:=queue st))
               item target preSendState waitStart
               (setLoops (removeLoop me (loops st)) st) eq_refl).
    + exact (@drainLoop_order env me (resumeWhile env me) (queue st)
               (resumeWhile_order_at env me (rest:=queue st))
               item target playStart
               (setLoops (removeLoop me (loops st)) st) eq_refl).
  - apply consumer_history; [|apply onInsertSettled_frame].
    unfold onInsertSettled.
    destruct (lookupLoop me (loops st)) as [[item t pre ws w|item t ps w|item]|];
      try (split; [reflexivity|constructor]).
    pose proof (@endOfBody_order (resumeWhile env me) (queue st)
                  (resumeWhile_order_at env me (rest:=queue st))
                  (setLoops (removeLoop me (loops st)) st) eq_refl) as [H1 H2].
    destruct (endOfBody _ _) as [st' o]. destruct ok; split; assumption.
Qed.

Lemma run_order es : forall st, historyOrder st (run es st).
Proof.
  induction es as [|e es IH]; intros st.
  - split; simpl; [rewrite app_nil_r; reflexivity|constructor].
  - simpl. destruct (step_order e st) as [H1 H2].
    destruct (step e st) as [st1 o1]. destruct (IH st1) as [H3 H4].
    destruct (run es st1) as [st2 o2]. cbn [fst snd] in *.
    split; cbn [fst snd].
    + rewrite enqueued_app, shifted_app, app_assoc, H1, <- !app_assoc, H3.
      reflexivity.
    + rewrite sent_app, dequeued_app. apply Forall2_app; assumption.
Qed.

(* ================================================================== *)
(** * What a history pushes *)

Lemma quiet_step st r :
  consumerFrame st r -> detectorSpec st r [].
Proof.
  intros (_ & H2 & H3). apply consumer_not_segmented in H3.
  destruct H3 as [H3 H4]. unfold detectorSpec. rewrite H3, H4, H2.
  simpl. rewrite N.add_0_r. repeat split; reflexivity.
Qed.

Lemma processNewData_spec env u d st :
  exists reals, detectorSpec st (processNewData env u d st) reals.
Proof.
  unfold processNewData.
  destruct (Js.isEmpty (full_transcript_text d));
    [exists []; apply quiet_step; repeat split; reflexivity|].
  destruct (sameId (lastProcessedId st) (id d));
    [exists []; apply quiet_step; repeat split; reflexivity|].
  destruct (0 <? List.length (segmentText (full_transcript_text d)))%nat
    eqn:Hlen.
  - pose proof (forEachSegment_spec d u (segmentText (full_transcript_text d))
                  0 (setLastProcessedId (Some (id d)) st)) as F.
    pose proof (forEachSegment_detector d u 0
                  (segmentText (full_transcript_text d))
                  (setLastProcessedId (Some (id d)) st)) as [_ F0].
    destruct (forEachSegment d u 0 _ _) as [st1 o1]. cbn [fst snd] in F, F0.
    destruct F as (E1 & _ & E3 & _).
    pose proof (processQueueLoop_frame env st1) as (_ & P2 & P3).
    destruct (processQueueLoop env st1) as [st2 o2]. cbn [fst snd] in *.
    apply consumer_not_segmented in P3. destruct P3 as [P3 P4].
    destruct (realItems_real d u (segmentText (full_transcript_text d)) 0)
      as [R1 R2].
    exists (realItems d u 0 (segmentText (full_transcript_text d))).
    unfold detectorSpec. cbn [fst snd enqueued segmented].
    rewrite enqueued_app, segmented_app, P3, P4, F0, !app_nil_r, E1, P2, E3.
    cbn [paragraphCount setLastProcessedId flat_map]. rewrite app_nil_r.
    assert (Hl : List.length (realItems d u 0
                                (segmentText (full_transcript_text d)))
                 = List.length (segmentText (full_transcript_text d))).
    { rewrite <- R2 at 2. symmetry. apply length_map. }
    rewrite Hl. repeat split; auto.
  - exists []. unfold detectorSpec. cbn [fst snd enqueued segmented flat_map
      interleave forallb map List.length].
    apply Nat.ltb_ge in Hlen.
    destruct (segmentText (full_transcript_text d)); [|simpl in Hlen; lia].
    cbn [paragraphCount setLastProcessedId]. rewrite N.add_0_r.
    repeat split; reflexivity.
Qed.

Lemma step_spec e st : exists reals, detectorSpec st (step e st) reals.
Proof.
  pose proof (step_frame e st) as Hf.
  destruct e as [env c|env u d|chunk|env me|env me ok];
    try (exists []; apply quiet_step; exact Hf).
  apply processNewData_spec.
Qed.

Lemma run_spec es : forall st, exists reals, detectorSpec st (run es st) reals.
Proof.
  induction es as [|e es IH]; intros st.
  - exists []. apply quiet_step. repeat split; reflexivity.
  - simpl. destruct (step_spec e st) as (r1 & A1 & A2 & A3 & A4).
    destruct (step e st) as [st1 o1].
    destruct (IH st1) as (r2 & B1 & B2 & B3 & B4).
    destruct (run es st1) as [st2 o2]. cbn [fst snd] in *.
    exists (r1 ++ r2). unfold detectorSpec. cbn [fst snd].
    rewrite forallb_app, A1, B1, enqueued_app, A2, B2, A3, B3, interleave_app,
      map_app, A4, B4, segmented_app, flat_map_app, length_app.
    repeat split; auto. lia.
Qed.

(* ================================================================== *)
(** * One iteration of the loop *)

Lemma whileQueue_abort env me item rest st :
  clientConnected env = false ->
  whileQueue env me (item :: rest) st
  = (setIsProcessing false st, [Aborted (item :: rest)]).
Proof. intros H. simpl. rewrite H. reflexivity. Qed.

Lemma whileQueue_drop env me item rest st :
  clientConnected env = true ->
  isBlank (scriptText (voiceStyle env) (snd (parseSpeaker (text item))))
  = true ->
  whileQueue env me (item :: rest) st
  = (fst (whileQueue env me rest
            (setQueue rest (setCurrentTurnId (orNull (turnId item)) st))),
     Dropped item (currentTranslationBuffer st)
     :: snd (whileQueue env me rest
               (setQueue rest (setCurrentTurnId (orNull (turnId item)) st)))).
Proof.
  intros Hc Hb. simpl. rewrite Hc. simpl.
  destruct (parseSpeaker (text item)) as [target textToSend].
  simpl in Hb. rewrite Hb.
  destruct (whileQueue env me rest _) as [st' o]. reflexivity.
Qed.

Lemma whileQueue_send env item :
  clientConnected env = true ->
  isBlank (scriptText (voiceStyle env) (snd (parseSpeaker (text item))))
  = false ->
  dispatches env item
    (scriptText (voiceStyle env) (snd (parseSpeaker (text item))))
    (fst (parseSpeaker (text item))).
Proof.
  intros Hc Hb me rest st. simpl. rewrite Hc. simpl.
  destruct (parseSpeaker (text item)) as [target textToSend].
  simpl in *. rewrite Hb.
  destruct (arrivalLoop _ _ _ _ _ _ _ _) as [st' o]. eauto.
Qed.

Lemma scriptText_wrap style t :
  t <> CLEARS_THROAT -> scriptText style t = styleWrap style t.
Proof.
  intros H. unfold scriptText.
  destruct (Js.eqb t CLEARS_THROAT) eqn:E.
  - apply js_eqb_eq in E. contradiction.
  - destruct style; reflexivity.
Qed.

Lemma scriptText_clears_throat style :
  scriptText style CLEARS_THROAT = CLEARS_THROAT.
Proof. reflexivity. Qed.

Lemma dequeued_shifted o : Subseq (dequeued o) (shifted o).
Proof.
  induction o as [|x o IH]; [constructor|].
  destruct x; simpl; try exact IH; constructor; exact IH.
Qed.

(* ================================================================== *)
(** * C5: the order of the segments *)

(** The scenario of the specification: the two segments are sent in the
    order of the text, the first to the channel of its tag. *)
Example end_to_end :
  sent (snd (run sessionEndToEnd initial))
  = [(js "(excitedly) Hi there", Male1);
     (js "(excitedly) Hello world", Default)].
Proof. vm_compute. reflexivity. Qed.

Example segments_in_order :
  segmentText (js "A:1\nB:2\r\n\n  C:3  \n")
  = [js "A:1"; js "B:2"; js "C:3"].
Proof. vm_compute. reflexivity. Qed.

(** C5: in every history, the real items pushed on the queue carry, in
    order, the paragraphs of the snapshots handed to the segmenter (the
    text cut at its line feeds, each piece trimmed, the empty ones
    dropped); the items leave the queue in the order in which they were
    pushed; and the texts sent are, one for one and in that order, those
    of the items that left the queue to be sent, each to the channel of
    its tag. *)
Theorem C5_order_preserved (es : list Event) :
  let st := fst (run es initial) in
  let o := snd (run es initial) in
  (forall text, segmentText text = paragraphs text)
  /\ map text (filter isReal (enqueued o))
     = flat_map (fun d => paragraphs (full_transcript_text d)) (segmented o)
  /\ enqueued o = shifted o ++ queue st
  /\ Subseq (dequeued o) (shifted o)
  /\ Forall2 dispatchOf (sent o) (dequeued o).
Proof.
  intros st o. subst st o.
  destruct (run_spec es initial) as (reals & R1 & R2 & _ & R4).
  destruct (run_order es initial) as [O1 O2].
  split; [exact segmentText_paragraphs|].
  split.
  - rewrite R2, (interleave_real _ _ R1), R4.
    apply flat_map_ext. intros d. apply segmentText_paragraphs.
  - split; [exact O1|]. split; [apply dequeued_shifted|exact O2].
Qed.

(* ================================================================== *)
(** * C7: the filler *)

(** C7: in every history, effect re-runs included, the items pushed on
    the queue are the real items with one filler right after each real
    item whose rank in the whole session is a multiple of three, and
    nowhere else; the counter is the number of real items pushed so far.
    The filler has the text "(clears throat)", no snapshot and no turn
    identifier, and the loop sends it as it is, to the default channel,
    under every style. *)
Theorem C7_filler_every_third (es : list Event) :
  let st := fst (run es initial) in
  let o := snd (run es initial) in
  enqueued o = interleave 0 (filter isReal (enqueued o))
  /\ paragraphCount st = N.of_nat (List.length (filter isReal (enqueued o)))
  /\ text filler = js "(clears throat)"
  /\ refData filler = None
  /\ turnId filler = None
  /\ (forall env, clientConnected env = true ->
        dispatches env filler (js "(clears throat)") Default).
Proof.
  intros st o. subst st o.
  destruct (run_spec es initial) as (reals & R1 & R2 & R3 & _).
  rewrite R2, (interleave_real _ _ R1), R3.
  repeat split; try reflexivity.
  intros env Hc. apply (whileQueue_send env filler Hc). reflexivity.
Qed.

Lemma C7_filler_every_third_witness :
  dispatches (envAt 0 true Dramatic silent) filler (js "(clears throat)")
             Default.
Proof.
  apply (proj2 (proj2 (proj2 (proj2 (proj2 (C7_filler_every_third [])))))).
  reflexivity.
Defined.

(* ================================================================== *)
(** * C6: the stage directions *)

(** C6, as the specification states it, fails: a segment whose text is
    "(clears throat)" is sent as it is, and not between the stage
    directions of the dramatic style. *)
Lemma C6_clears_throat_not_wrapped :
  ~ wrapClaim (envAt 0 true Dramatic silent)
              {| text := js "(clears throat)";
                 refData := Some (snapshot "s1" "(clears throat)");
                 turnId := Some (uuids 0) |}.
Proof.
  intros H. destruct (H eq_refl eq_refl 0%nat [] initial) as (st' & o & E).
  vm_compute in E. discriminate E.
Qed.

(** C6, amended: every segment that the loop sends and whose tag-stripped
    text is not exactly "(clears throat)" is sent, to the channel of its
    tag, as that text between the stage directions of the style that is
    active when it is sent. *)
Theorem C6_style_wrapping env item :
  clientConnected env = true ->
  isBlank (scriptText (voiceStyle env) (snd (parseSpeaker (text item))))
  = false ->
  snd (parseSpeaker (text item)) <> js "(clears throat)" ->
  dispatches env item
    (styleWrap (voiceStyle env) (snd (parseSpeaker (text item))))
    (fst (parseSpeaker (text item))).
Proof.
  intros Hc Hb Hn. rewrite <- (scriptText_wrap _ Hn).
  apply whileQueue_send; assumption.
Qed.

Lemma C6_style_wrapping_witness :
  dispatches (envAt 0 true Dramatic silent)
    {| text := js "Male 1: Hello";
       refData := Some (snapshot "s1" "Male 1: Hello");
       turnId := Some (uuids 0) |}
    (js "(slowly) Hello ... (long pause)") Male1.
Proof.
  apply (@C6_style_wrapping (envAt 0 true Dramatic silent)
           {| text := js "Male 1: Hello";
              refData := Some (snapshot "s1" "Male 1: Hello");
              turnId := Some (uuids 0) |});
    [reflexivity|reflexivity|vm_compute; discriminate].
Defined.

(* ================================================================== *)
(** * C10: the exemption goes by the text *)

Lemma interleave_In x reals : forall n,
  In x (interleave n reals) -> x = filler \/ In x reals.
Proof.
  induction reals as [|r reals IH]; intros n H; [contradiction|].
  cbn [interleave] in H.
  destruct ((n + 1) mod 3 =? 0)%N; simpl in H.
  - destruct H as [H|[H|H]]; [right; left; exact H|left; auto|].
    destruct (IH _ H); [left|right; right]; assumption.
  - destruct H as [H|H]; [right; left; exact H|].
    destruct (IH _ H); [left|right; right]; assumption.
Qed.

(** C10: whatever the style, an item whose tag-stripped text is exactly
    "(clears throat)" is sent as that text, whether it is the filler or
    comes from a snapshot; every item pushed on the queue is the filler or
    has a snapshot; and in the session [sessionClearsThroat] the segment
    "(clears throat)" of snapshot "s1" is pushed with its snapshot, sent
    unwrapped under the dramatic style, and its translation is stored. *)
Theorem C10_exemption_by_text :
  (forall env item,
     clientConnected env = true ->
     snd (parseSpeaker (text item)) = js "(clears throat)" ->
     dispatches env item (js "(clears throat)")
                (fst (parseSpeaker (text item))))
  /\ (forall es item,
        In item (enqueued (snd (run es initial))) ->
        item = filler \/ isReal item = true)
  /\ enqueued (snd (run sessionClearsThroat initial))
     = [{| text := js "(clears throat)";
           refData := Some (snapshot "s1" "(clears throat)");
           turnId := Some (uuids 0) |}]
  /\ sent (snd (run sessionClearsThroat initial))
     = [(js "(clears throat)", Default)]
  /\ inserted (snd (run sessionClearsThroat initial))
     = [{| meeting_id := js "meeting";
           tr_user_id := js "user";
           original_text := js "(clears throat)";
           translated_text := js "ejem";
           tr_language := js "Spanish" |}].
Proof.
  split.
  - intros env item Hc Ht.
    assert (Hs : scriptText (voiceStyle env) (snd (parseSpeaker (text item)))
                 = js "(clears throat)")
      by (rewrite Ht; reflexivity).
    rewrite <- Hs. apply whileQueue_send; [exact Hc|].
    rewrite Hs. reflexivity.
  - split.
    + intros es item Hin.
      destruct (run_spec es initial) as (reals & R1 & R2 & _).
      rewrite R2 in Hin. apply interleave_In in Hin.
      destruct Hin as [H|H]; [left; exact H|right].
      rewrite forallb_forall in R1. apply R1. exact H.
    + repeat split; vm_compute; reflexivity.
Qed.

Lemma C10_exemption_by_text_witness :
  dispatches (envAt 0 true Formal silent)
    {| text := js "Female 2: (clears throat)";
       refData := Some (snapshot "s1" "Female 2: (clears throat)");
       turnId := Some (uuids 0) |}
    (js "(clears throat)") Female2.
Proof.
  apply (proj1 C10_exemption_by_text (envAt 0 true Formal silent)
           {| text := js "Female 2: (clears throat)";
              refData := Some (snapshot "s1" "Female 2: (clears throat)");
              turnId := Some (uuids 0) |});
    reflexivity.
Defined.

(* ================================================================== *)
(** * C9: a dropped item *)

(** C9 at the snapshot "Male 1:", in the natural style: the segment is a
    bare tag, its text to send is empty and the item is dropped: nothing
    is sent and the buffer is as before, but the turn of the dropped item
    is now the active one, and stays so when the loop ends; a piece of
    translation that arrives afterwards is written to that turn. *)
Theorem C9_drop_sets_turn_context :
  sent (snd (run sessionBareTag initial)) = []
  /\ shifted (snd (run sessionBareTag initial))
     = [{| text := js "Male 1:";
           refData := Some (snapshot "s1" "Male 1:");
           turnId := Some (js "t0") |}]
  /\ queue (fst (run sessionBareTag initial)) = []
  /\ isProcessing (fst (run sessionBareTag initial)) = false
  /\ currentTranslationBuffer (fst (run sessionBareTag initial))
     = currentTranslationBuffer initial
  /\ currentTurnId initial = None
  /\ currentTurnId (fst (run sessionBareTag initial)) = Some (js "t0")
  /\ In (UpdateTurn (js "t0") (js "tarde"))
        (snd (run sessionBareTagThenText initial)).
Proof. vm_compute. repeat split. auto 20. Qed.

(* ================================================================== *)
(** * C3: the client is not connected *)

(** C3, as the specification states it, fails: the segment "two", left in
    the queue when the loop found the client disconnected, is sent when
    the effect runs again with the client connected and starts the loop
    on the queue as it finds it. *)
Lemma C3_abandoned_item_is_sent_later :
  ~ abandonClaim sessionWithAbort sessionResumed.
Proof.
  intros H.
  apply (H {| text := js "two";
              refData := Some (snapshot "s1" "one\ntwo");
              turnId := Some (js "t1") |});
    vm_compute; auto.
Qed.

(** C3, amended: when the loop, at the test of its [while], finds the
    client not connected, it stops and the processing flag is lowered,
    and the queue is left as it is; the items stay queued, and the next
    call of the loop with the client connected sends the one at the
    head. *)
Theorem C3_abort_keeps_queue env env' me item rest st :
  queue st = item :: rest ->
  clientConnected env = false ->
  clientConnected env' = true ->
  isBlank (scriptText (voiceStyle env') (snd (parseSpeaker (text item))))
  = false ->
  let r := resumeWhile env me st in
  snd r = [Aborted (item :: rest)]
  /\ queue (fst r) = item :: rest
  /\ isProcessing (fst r) = false
  /\ exists st' o,
       processQueueLoop env' (fst r)
       = (st', Sent (scriptText (voiceStyle env')
                       (snd (parseSpeaker (text item))))
                    (fst (parseSpeaker (text item)))
               :: Dequeued item :: o).
Proof.
  intros Hq Hc Hc' Hb r. subst r. unfold resumeWhile.
  rewrite Hq, (whileQueue_abort env me item rest st Hc). cbn [fst snd].
  repeat split; [exact Hq|].
  unfold processQueueLoop, resumeWhile.
  cbn [isProcessing setIsProcessing queue setNextLoop]. rewrite Hq.
  apply (whileQueue_send env' item Hc' Hb).
Qed.

Lemma C3_abort_keeps_queue_witness :
  queue (fst (resumeWhile (envAt 20 false Natural silent) 1
                          queuedWhileDisconnected))
  = queue queuedWhileDisconnected
  /\ exists st' o,
       processQueueLoop (envAt 30 true Natural silent)
         (fst (resumeWhile (envAt 20 false Natural silent) 1
                           queuedWhileDisconnected))
       = (st', Sent (js "one") Default
               :: Dequeued {| text := js "one";
                              refData := Some (snapshot "s1" "one\ntwo");
                              turnId := Some (js "t0") |} :: o).
Proof.
  destruct (@C3_abort_keeps_queue
              (envAt 20 false Natural silent) (envAt 30 true Natural silent)
              1%nat
              {| text := js "one";
                 refData := Some (snapshot "s1" "one\ntwo");
                 turnId := Some (js "t0") |}
              [{| text := js "two";
                  refData := Some (snapshot "s1" "one\ntwo");
                  turnId := Some (js "t1") |}]
              queuedWhileDisconnected eq_refl eq_refl eq_refl eq_refl)
    as (_ & H2 & _ & H4).
  split; [exact H2|exact H4].
Defined.

(* ================================================================== *)
(** * The rows stored *)

Lemma drainedMarks_app a b :
  drainedMarks (a ++ b) = drainedMarks a ++ drainedMarks b.
Proof.
  induction a as [|x a IH]; simpl; [reflexivity|].
  destruct x; simpl; rewrite IH; reflexivity.
Qed.

Section CommitGate.

Variables (env : Env) (me : nat) (k : State -> State * list Out).
Hypothesis k_gated : forall st, gated (k st).

Lemma endOfBody_gated st : gated (endOfBody k st).
Proof. apply k_gated. Qed.

Lemma commit_gated item st :
  map core (inserted (snd (commit env me k item st)))
  = commitOf (item, currentTranslationBuffer st)
    ++ flat_map commitOf (drainedMarks (snd (commit env me k item st))).
Proof.
  unfold commit, commitOf. cbn [fst snd].
  destruct (refData item) as [d|]; [|apply endOfBody_gated].
  destruct (0 <? List.length (Js.trim (currentTranslationBuffer st)))%nat;
    [reflexivity|apply endOfBody_gated].
Qed.

Lemma drainLoop_gated item target playStart st :
  gated (drainLoop env me k item target playStart st).
Proof.
  unfold drainLoop, gated. pose proof (commit_gated item st) as H.
  destruct (commit env me k item st) as [st' o]. cbn [fst snd] in H.
  branches; cbn [fst snd inserted drainedMarks flat_map map];
    try reflexivity; exact H.
Qed.

Lemma arrivalLoop_gated item target pre waitStart st :
  gated (arrivalLoop env me k item target pre waitStart st).
Proof.
  unfold arrivalLoop, gated.
  pose proof (drainLoop_gated item target (now env) st) as H.
  unfold gated in H.
  destruct (drainLoop env me k item target (now env) st) as [st' o].
  branches; cbn [fst snd inserted drainedMarks flat_map map] in *;
    try reflexivity; exact H.
Qed.

End CommitGate.

Lemma whileQueue_gated env me q : forall st, gated (whileQueue env me q st).
Proof.
  induction q as [|item rest IH]; intros st; simpl; [reflexivity|].
  destruct (clientConnected env); simpl; [|reflexivity].
  destruct (parseSpeaker (text item)) as [target textToSend].
  destruct (isBlank (scriptText (voiceStyle env) textToSend)).
  - specialize (IH (setQueue rest
                      (setCurrentTurnId (orNull (turnId item)) st))).
    destruct (whileQueue env me rest _) as [st' o]. exact IH.
  - match goal with
    | |- context [arrivalLoop env me ?k ?i ?t ?p ?w ?s] =>
        pose proof (arrivalLoop_gated env me k IH i t p w s) as H;
        destruct (arrivalLoop env me k i t p w s) as [st' o]
    end.
    exact H.
Qed.

Lemma resumeWhile_gated env me st : gated (resumeWhile env me st).
Proof. apply whileQueue_gated. Qed.

Lemma processQueueLoop_gated env st : gated (processQueueLoop env st).
Proof.
  unfold processQueueLoop. destruct (isProcessing st); [reflexivity|].
  apply resumeWhile_gated.
Qed.

Lemma forEachSegment_marks d u segs : forall i st,
  drainedMarks (snd (forEachSegment d u i segs st)) = [].
Proof.
  induction segs as [|seg segs IH]; intros i st; [reflexivity|].
  cbn [forEachSegment]. unfold enqueueSegment.
  destruct (parseSpeaker seg) as [sp ui].
  match goal with
  | |- context [if ?b then _ else _] => destruct b
  end;
    match goal with
    | |- context [forEachSegment d u (S i) segs ?s] =>
        specialize (IH (S i) s);
        destruct (forEachSegment d u (S i) segs s) as [st2 o2]
    end; exact IH.
Qed.

Lemma step_gated e st : gated (step e st).
Proof.
  destruct e as [env c|env u d|chunk|env me|env me ok]; simpl step.
  - unfold effectBody. destruct c; cbn [negb]; [|reflexivity].
    destruct (0 <? List.length (queue (setIsProcessing false (cleanup st))))%nat;
      [|reflexivity].
    pose proof (processQueueLoop_gated env
                  (setIsProcessing false (cleanup st))) as H.
    destruct (processQueueLoop env _) as [st' o]. exact H.
  - unfold processNewData. branches; try reflexivity.
    match goal with
    | H : forEachSegment d u 0 ?segs ?s = _ |- _ =>
        pose proof (forEachSegment_spec d u segs 0 s) as F;
        pose proof (forEachSegment_marks d u segs 0 s) as G;
        rewrite H in F, G
    end.
    cbn [fst snd] in F, G. destruct F as (_ & _ & _ & _ & _ & _ & E7 & _).
    match goal with
    | H : processQueueLoop env ?s = _ |- _ =>
        pose proof (processQueueLoop_gated env s) as P; rewrite H in P
    end.
    unfold gated in *. cbn [fst snd inserted drainedMarks] in *.
    rewrite inserted_app, drainedMarks_app, E7, G. exact P.
  - unfold onOutput. branches; reflexivity.
  - unfold onWaitOver. branches; try reflexivity.
    + apply arrivalLoop_gated. apply resumeWhile_gated.
    + apply drainLoop_gated. apply resumeWhile_gated.
  - unfold onInsertSettled.
    destruct (lookupLoop me (loops st)) as [[item t pre ws w|item t ps w|item]|];
      try reflexivity.
    pose proof (endOfBody_gated _ (resumeWhile_gated env me)
                  (setLoops (removeLoop me (loops st)) st)) as H.
    destruct (endOfBody _ _) as [st' o]. destruct ok; exact H.
Qed.

Lemma run_gated es : forall st, gated (run es st).
Proof.
  induction es as [|e es IH]; intros st; [reflexivity|].
  simpl. pose proof (step_gated e st) as H1.
  destruct (step e st) as [st1 o1]. specialize (IH st1).
  destruct (run es st1) as [st2 o2]. unfold gated in *. cbn [fst snd] in *.
  rewrite inserted_app, drainedMarks_app, map_app, flat_map_app, H1, IH.
  reflexivity.
Qed.

(* ================================================================== *)
(** * C4: when a row is stored *)

(** C4, as the specification states it, fails: the item "Male 1:" is
    taken from the queue when the buffer holds the translation of the
    segment before it, it has a snapshot, and no row is stored for it: it
    is dropped before the commit. *)
Lemma C4_dropped_item_not_stored : ~ commitClaim sessionDropAfterTranslation.
Proof. unfold commitClaim. vm_compute. discriminate. Qed.

(** C4, amended: in every history, the rows stored are, in order, one for
    each item sent whose drain wait has ended with a snapshot on the item
    and a buffer that is not empty once trimmed, and no other; an item
    dropped for its empty text gets none. The filler gets none whatever
    the buffer holds. When an insert fails, the loop goes on as it does
    when the insert succeeds, with one more line on the console. *)
Theorem C4_commit_gating :
  (forall es, map core (inserted (snd (run es initial)))
              = flat_map commitOf (drainedMarks (snd (run es initial))))
  /\ (forall item buffer,
        commitOf (item, buffer) <> []
        <-> refData item <> None /\ Js.trim buffer <> [])
  /\ (forall buffer, commitOf (filler, buffer) = [])
  /\ (forall env me st item,
        lookupLoop me (loops st) = Some (AtInsert item) ->
        onInsertSettled env me false st
        = (fst (onInsertSettled env me true st),
           InsertFailed :: snd (onInsertSettled env me true st))).
Proof.
  split; [intros es; apply (run_gated es initial)|].
  split.
  - intros item buffer. unfold commitOf. cbn [fst snd].
    destruct (refData item) as [d|].
    + destruct (Js.trim buffer) as [|c t]; simpl.
      * split; [intros H; contradiction H; reflexivity|].
        intros [_ H]. contradiction H. reflexivity.
      * split; [intros _; split; discriminate|intros _; discriminate].
    + split; [intros H; contradiction H; reflexivity|].
      intros [H _]. contradiction H. reflexivity.
  - split; [reflexivity|].
    intros env me st item H. unfold onInsertSettled. rewrite H.
    destruct (endOfBody _ _) as [st' o]. reflexivity.
Qed.

Lemma C4_commit_gating_witness :
  onInsertSettled (envAt 2200 true Natural fading) 0 false
    (fst (run (firstn 5 sessionDropAfterTranslation) initial))
  = (fst (onInsertSettled (envAt 2200 true Natural fading) 0 true
            (fst (run (firstn 5 sessionDropAfterTranslation) initial))),
     InsertFailed
     :: snd (onInsertSettled (envAt 2200 true Natural fading) 0 true
               (fst (run (firstn 5 sessionDropAfterTranslation) initial)))).
Proof.
  apply (proj2 (proj2 (proj2 C4_commit_gating))
           (envAt 2200 true Natural fading) 0%nat
           (fst (run (firstn 5 sessionDropAfterTranslation) initial))
           {| text := js "Hello";
              refData := Some (snapshot "s1" "Hello\nMale 1:");
              turnId := Some (js "t0") |}).
  reflexivity.
Defined.

(* ================================================================== *)
(** * One loop, one text in flight *)

Lemma singleFlight_app a : forall b c,
  singleFlight b (a ++ c)
  = singleFlight b a && singleFlight (flightAfter b a) c.
Proof.
  induction a as [|x a IH]; intros b c; [reflexivity|].
  destruct x; simpl; rewrite ?IH; try reflexivity.
  rewrite andb_assoc. reflexivity.
Qed.

Lemma flightAfter_app a : forall b c,
  flightAfter b (a ++ c) = flightAfter (flightAfter b a) c.
Proof.
  induction a as [|x a IH]; intros b c; [reflexivity|].
  destruct x; simpl; apply IH.
Qed.

Lemma flight_quiet o : forall b,
  sent o = [] -> drainedMarks o = [] ->
  singleFlight b o = true /\ flightAfter b o = b.
Proof.
  induction o as [|x o IH]; intros b Hs Hd; [auto|].
  destruct x; simpl in *; try discriminate; auto.
Qed.

Section OneLoop.

Variables (env : Env) (me : nat) (k : State -> State * list Out).
Hypothesis k_flies : forall st, ready st -> flies false (k st).

Lemma endOfBody_flies st : ready st -> flies false (endOfBody k st).
Proof. intros H. apply k_flies. exact H. Qed.

Lemma commit_flies item st :
  ready st -> flies false (commit env me k item st).
Proof.
  intros H. unfold commit. branches; try (apply endOfBody_flies; exact H).
  destruct H as [Hl Hp]. split; [reflexivity|].
  right. exists me, (AtInsert item). simpl. rewrite Hl. auto.
Qed.

Lemma drainLoop_flies item target playStart st :
  ready st -> flies true (drainLoop env me k item target playStart st).
Proof.
  intros H. unfold drainLoop.
  pose proof (@commit_flies item st H) as [H1 H2].
  destruct (commit env me k item st) as [st' o]. cbn [fst snd] in *.
  destruct H as [Hl Hp].
  branches; split; simpl; auto;
    right; eexists me, _; simpl; rewrite Hl; auto.
Qed.

Lemma arrivalLoop_flies item target pre waitStart st :
  ready st ->
  flies true (arrivalLoop env me k item target pre waitStart st).
Proof.
  intros H. unfold arrivalLoop.
  pose proof (@drainLoop_flies item target (now env) st H) as [H1 H2].
  destruct (drainLoop env me k item target (now env) st) as [st' o].
  cbn [fst snd] in *. destruct H as [Hl Hp].
  branches; split; simpl; auto;
    right; eexists me, _; simpl; rewrite Hl; auto.
Qed.

End OneLoop.

Lemma whileQueue_flies env me q : forall st,
  ready st -> flies false (whileQueue env me q st).
Proof.
  induction q as [|item rest IH]; intros st H; simpl.
  - split; [reflexivity|]. left. destruct H. simpl. auto.
  - destruct (clientConnected env); simpl;
      [|split; [reflexivity|left; destruct H; simpl; auto]].
    destruct (parseSpeaker (text item)) as [target textToSend].
    destruct (isBlank (scriptText (voiceStyle env) textToSend)).
    + destruct (IH (setQueue rest (setCurrentTurnId (orNull (turnId item)) st))
                  H) as [H1 H2].
      destruct (whileQueue env me rest _) as [st' o]. split; assumption.
    + match goal with
      | |- context [arrivalLoop env me ?k ?i ?t ?p ?w ?s] =>
          destruct (@arrivalLoop_flies env me k IH i t p w s H) as [H1 H2];
          destruct (arrivalLoop env me k i t p w s) as [st' o]
      end.
      split; assumption.
Qed.

Lemma resumeWhile_flies env me st :
  ready st -> flies false (resumeWhile env me st).
Proof. apply whileQueue_flies. Qed.

Lemma processQueueLoop_flies env st b :
  oneLoop st b -> flies b (processQueueLoop env st).
Proof.
  intros H. unfold processQueueLoop.
  destruct (isProcessing st) eqn:Hp; [split; [reflexivity|exact H]|].
  destruct H as [(Hl & _ & ->)|(m & s & _ & Hp' & _)]; [|congruence].
  apply resumeWhile_flies. split; [exact Hl|reflexivity].
Qed.

Lemma flies_after a r b :
  singleFlight b a = true -> flightAfter b a = b ->
  flies b r -> flies b (fst r, a ++ snd r).
Proof.
  intros H1 H2 [H3 H4]. split; cbn [fst snd].
  - rewrite singleFlight_app, H1, H2. exact H3.
  - rewrite flightAfter_app, H2. exact H4.
Qed.

Lemma step_flies e st b :
  noEffectRun [e] = true -> oneLoop st b -> flies b (step e st).
Proof.
  intros He H.
  destruct e as [env c|env u d|chunk|env me|env me ok]; [discriminate| | | |];
    simpl step; clear He.
  - unfold processNewData.
    destruct (Js.isEmpty (full_transcript_text d));
      [split; [reflexivity|exact H]|].
    destruct (sameId (lastProcessedId st) (id d));
      [split; [reflexivity|exact H]|].
    destruct (0 <? List.length (segmentText (full_transcript_text d)))%nat;
      [|split; [reflexivity|exact H]].
    pose proof (forEachSegment_spec d u (segmentText (full_transcript_text d))
                  0 (setLastProcessedId (Some (id d)) st)) as F.
    pose proof (forEachSegment_marks d u (segmentText (full_transcript_text d))
                  0 (setLastProcessedId (Some (id d)) st)) as G.
    destruct (forEachSegment d u 0 _ _) as [st1 o1]. cbn [fst snd] in F, G.
    destruct F as (_ & _ & _ & _ & E5 & _ & _ & E8 & E9 & _).
    destruct (flight_quiet o1 b E5 G) as [Q1 Q2].
    assert (H1 : oneLoop st1 b).
    { unfold oneLoop. rewrite E8, E9. exact H. }
    pose proof (@processQueueLoop_flies env st1 b H1) as P.
    destruct (processQueueLoop env st1) as [st2 o2].
    apply (@flies_after (Segmented d :: o1) (st2, o2) b); auto.
  - unfold onOutput. branches; (split; [reflexivity|exact H]).
  - unfold onWaitOver.
    destruct H as [(Hl & Hp & Hb)|(m & s & Hl & Hp & Hb)].
    + rewrite Hl. split; [reflexivity|left; auto].
    + rewrite Hl. cbn [lookupLoop removeLoop].
      destruct (Nat.eqb m me) eqn:Hm;
        [|split; [reflexivity|right; exists m, s; auto]].
      apply Nat.eqb_eq in Hm. subst m.
      destruct s as [item t pre ws w|item t ps w|item];
        try (split; [reflexivity|right; eexists me, _; eauto]);
        (destruct (waitPending w);
         [|split; [reflexivity|right; eexists me, _; eauto]]);
        subst b.
      * apply arrivalLoop_flies; [apply resumeWhile_flies|].
        split; [reflexivity|exact Hp].
      * apply drainLoop_flies; [apply resumeWhile_flies|].
        split; [reflexivity|exact Hp].
  - unfold onInsertSettled.
    destruct H as [(Hl & Hp & Hb)|(m & s & Hl & Hp & Hb)].
    + rewrite Hl. split; [reflexivity|left; auto].
    + rewrite Hl. cbn [lookupLoop removeLoop].
      destruct (Nat.eqb m me) eqn:Hm;
        [|split; [reflexivity|right; exists m, s; auto]].
      apply Nat.eqb_eq in Hm. subst m.
      destruct s as [item t pre ws w|item t ps w|item];
        try (split; [reflexivity|right; eexists me, _; eauto]).
      subst b.
      pose proof (@endOfBody_flies (resumeWhile env me)
                    (resumeWhile_flies env me)
                    (setLoops [] st)) as P.
      destruct (endOfBody _ _) as [st' o].
      destruct ok; apply P; split; auto.
Qed.

Lemma run_flies es : forall st b,
  noEffectRun es = true -> oneLoop st b -> flies b (run es st).
Proof.
  induction es as [|e es IH]; intros st b He H.
  - split; [reflexivity|exact H].
  - assert (He1 : noEffectRun [e] = true) by (destruct e; auto).
    assert (He2 : noEffectRun es = true) by (destruct e; auto; discriminate).
    simpl. destruct (@step_flies e st b He1 H) as [H1 H2].
    destruct (step e st) as [st1 o1]. cbn [fst snd] in *.
    destruct (IH st1 _ He2 H2) as [H3 H4].
    destruct (run es st1) as [st2 o2]. cbn [fst snd] in *.
    split; cbn [fst snd].
    + rewrite singleFlight_app, H1, H3. reflexivity.
    + rewrite flightAfter_app. exact H4.
Qed.

(* ================================================================== *)
(** * C2: single flight *)

(** C2: the flag of [processQueueLoop] is there to keep a second call
    from running beside the first, and the effect defeats it: it lowers
    the flag each time it runs (line 87) and calls the loop again (line
    178), whatever calls are still suspended. In [sessionRemount] the
    effect runs again while the loop waits for the insert of "one": a
    second call of the loop starts and sends "two"; the first one then
    wakes up and sends "three" while "two" is still in flight. Three
    texts are sent and one drain wait is over; two calls of the loop are
    left suspended. *)
Theorem C2_second_loop_after_effect : ~ flightClaim sessionRemount.
Proof.
  unfold flightClaim. intros [H _]. vm_compute in H. discriminate H.
Qed.

(** Between two runs of the effect the flag does what it is for: no text
    is sent before the drain wait of the text sent before it is over, at
    most one call of the loop is alive, and while one is alive a call of
    [processQueueLoop] does nothing. *)
Lemma single_flight_without_rerun env connected es :
  noEffectRun es = true ->
  let r := run (EffectRun env connected :: es) initial in
  singleFlight false (snd r) = true
  /\ (List.length (loops (fst r)) <= 1)%nat
  /\ (loops (fst r) <> [] ->
      forall env', processQueueLoop env' (fst r) = (fst r, [])).
Proof.
  intros He r.
  assert (H : flies false r).
  { subst r. cbn [run].
    assert (H0 : step (EffectRun env connected) initial
                 = (fst (step (EffectRun env connected) initial), []))
      by (destruct connected; reflexivity).
    assert (H1 : oneLoop (fst (step (EffectRun env connected) initial)) false)
      by (left; destruct connected; repeat split; reflexivity).
    rewrite H0.
    pose proof (@run_flies es _ false He H1) as P.
    destruct (run es _) as [st2 o2]. exact P. }
  destruct H as [H1 H2]. split; [exact H1|].
  destruct H2 as [(Hl & _ & _)|(m & s & Hl & Hp & _)]; rewrite Hl.
  - split; [simpl; lia|]. intros C. contradiction C. reflexivity.
  - split; [simpl; lia|]. intros _ env'.
    unfold processQueueLoop. rewrite Hp. reflexivity.
Qed.

(* ================================================================== *)
(** * The two waits *)

Lemma Qltb_lt x y : Qltb x y = true <-> x < y.
Proof.
  unfold Qltb. rewrite negb_true_iff. split.
  - intros H. apply Qnot_le_lt. intros C.
    apply Qle_bool_iff in C. congruence.
  - intros H. destruct (Qle_bool y x) eqn:E; [|reflexivity].
    apply Qle_bool_iff in E. exfalso. exact (Qlt_not_le _ _ H E).
Qed.

Lemma Qltb_not_lt x y : Qltb x y = false <-> ~ x < y.
Proof.
  rewrite <- Qltb_lt. destruct (Qltb x y); split; intros; congruence.
Qed.

Lemma wakeUps_cons e envs me st :
  wakeUps (e :: envs) me st
  = (fst (wakeUps envs me (fst (onWaitOver e me st))),
     snd (onWaitOver e me st)
     ++ snd (wakeUps envs me (fst (onWaitOver e me st)))).
Proof.
  unfold wakeUps. cbn [map run step].
  destruct (onWaitOver e me st) as [st1 o1]. cbn [fst snd].
  destruct (run _ st1) as [st2 o2]. reflexivity.
Qed.

Lemma lookup_suspend me s st : lookupLoop me (loops (suspend me s st)) = Some s.
Proof. simpl. rewrite Nat.eqb_refl. reflexivity. Qed.

Lemma pending_workerWait env st d : waitPending (workerWait env st d) = true.
Proof. unfold waitPending, workerWait. simpl. destruct (worker st); reflexivity. Qed.

(** Right after the send, the loop waits for the arrival. *)
Lemma whileQueue_send_state env me item rest st :
  clientConnected env = true ->
  isBlank (scriptText (voiceStyle env) (snd (parseSpeaker (text item))))
  = false ->
  exists st0,
    whileQueue env me (item :: rest) st
    = (suspend me
         (AtArrival item (fst (parseSpeaker (text item)))
                    (audio env (fst (parseSpeaker (text item)))) (now env)
                    (workerWait env st0 250))
         st0,
       [Sent (scriptText (voiceStyle env) (snd (parseSpeaker (text item))))
             (fst (parseSpeaker (text item)));
        Dequeued item]).
Proof.
  intros Hc Hb. simpl. rewrite Hc. simpl.
  destruct (parseSpeaker (text item)) as [target textToSend].
  simpl in *. rewrite Hb. unfold arrivalLoop.
  rewrite Z.sub_diag. cbn [Z.ltb Z.compare].
  assert (Ha : Qltb (endOfQueueTime (audio env target) + (1 # 10))
                    (endOfQueueTime (audio env target)) = false)
    by (apply Qltb_not_lt; lra).
  rewrite Ha. eexists. reflexivity.
Qed.

(* ================================================================== *)
(** * More on strings *)

Lemma trimStart_In x s : In x (Js.trimStart s) -> In x s.
Proof.
  induction s as [|c s IH]; simpl; [auto|].
  destruct (Js.isWhite c); [intros H; right; auto|auto].
Qed.

Lemma trim_In x s : In x (Js.trim s) -> In x s.
Proof.
  unfold Js.trim, Js.trimEnd. intros H. apply in_rev in H.
  apply trimStart_In in H. apply in_rev in H. apply trimStart_In. exact H.
Qed.

Lemma trimStart_head s :
  Js.trimStart s = []
  \/ exists c t, Js.trimStart s = c :: t /\ Js.isWhite c = false.
Proof.
  induction s as [|c s IH]; simpl; [auto|].
  destruct (Js.isWhite c) eqn:E; [exact IH|right; eauto].
Qed.

Lemma trimStart_idem s : Js.trimStart (Js.trimStart s) = Js.trimStart s.
Proof.
  destruct (trimStart_head s) as [H|(c & t & H & Hc)]; rewrite H;
    [reflexivity|]. simpl. rewrite Hc. reflexivity.
Qed.

Lemma trimEnd_idem s : Js.trimEnd (Js.trimEnd s) = Js.trimEnd s.
Proof.
  unfold Js.trimEnd. rewrite rev_involutive, trimStart_idem. reflexivity.
Qed.

Lemma trimStart_snoc_black l c :
  Js.isWhite c = false -> Js.trimStart (l ++ [c]) = Js.trimStart l ++ [c].
Proof.
  intros Hc. induction l as [|a l IH]; simpl; [rewrite Hc; reflexivity|].
  destruct (Js.isWhite a); [exact IH|reflexivity].
Qed.

Lemma trimEnd_cons_black c t :
  Js.isWhite c = false -> Js.trimEnd (c :: t) = c :: Js.trimEnd t.
Proof.
  intros Hc. unfold Js.trimEnd. simpl.
  rewrite trimStart_snoc_black by exact Hc. rewrite rev_app_distr.
  reflexivity.
Qed.

Lemma trim_idem s : Js.trim (Js.trim s) = Js.trim s.
Proof.
  unfold Js.trim.
  destruct (trimStart_head s) as [H|(c & t & H & Hc)]; rewrite H;
    [reflexivity|].
  rewrite trimEnd_cons_black by exact Hc. simpl. rewrite Hc.
  rewrite trimEnd_cons_black by exact Hc. rewrite trimEnd_idem.
  reflexivity.
Qed.

Lemma trim_cons_black c t :
  Js.isWhite c = false -> Js.trim (c :: t) = c :: Js.trimEnd t.
Proof.
  intros Hc. unfold Js.trim. simpl. rewrite Hc.
  apply trimEnd_cons_black. exact Hc.
Qed.

Lemma trimStart_length s : (List.length (Js.trimStart s) <= List.length s)%nat.
Proof.
  induction s as [|c s IH]; simpl; [lia|].
  destruct (Js.isWhite c); simpl; lia.
Qed.

Lemma trim_length s : (List.length (Js.trim s) <= List.length s)%nat.
Proof.
  unfold Js.trim, Js.trimEnd. rewrite length_rev.
  pose proof (trimStart_length (rev (Js.trimStart s))) as H.
  rewrite length_rev in H. pose proof (trimStart_length s). lia.
Qed.

Lemma trimmed_last l c : Js.trim (l ++ [c]) = l ++ [c] -> Js.isWhite c = false.
Proof.
  intros H. destruct (Js.isWhite c) eqn:E; [|reflexivity].
  rewrite trim_snoc_white in H by exact E.
  pose proof (trim_length l) as L. rewrite H, length_app in L.
  simpl in L. lia.
Qed.

Lemma trimmed_head c t : Js.trim (c :: t) = c :: t -> Js.isWhite c = false.
Proof.
  intros H. destruct (Js.isWhite c) eqn:E; [|reflexivity].
  unfold Js.trim in H. simpl in H. rewrite E in H.
  change (Js.trimEnd (Js.trimStart t)) with (Js.trim t) in H.
  pose proof (trim_length t) as L. rewrite H in L. simpl in L. lia.
Qed.

Lemma trimStart_white s :
  forallb Js.isWhite s = true -> Js.trimStart s = [].
Proof.
  induction s as [|c s IH]; simpl; [reflexivity|].
  intros H. apply andb_prop in H. destruct H as [Hc Hs].
  rewrite Hc. auto.
Qed.

Lemma trim_nil_white s : Js.trim s = [] -> forallb Js.isWhite s = true.
Proof.
  induction s as [|c s IH]; [reflexivity|].
  intros H. simpl. destruct (Js.isWhite c) eqn:E.
  - unfold Js.trim in *. simpl in H. rewrite E in H. auto.
  - rewrite trim_cons_black in H by exact E. discriminate.
Qed.

Lemma startsWith_nil s : Js.startsWith s [] = true.
Proof. destruct s; reflexivity. Qed.

Lemma startsWith_app p s : Js.startsWith (p ++ s) p = true.
Proof.
  induction p as [|a p IH]; simpl; [destruct s; reflexivity|].
  rewrite N.eqb_refl. exact IH.
Qed.

Lemma startsWith_split s p :
  Js.startsWith s p = true -> s = p ++ skipn (List.length p) s.
Proof.
  revert s. induction p as [|a p IH]; intros s H; [reflexivity|].
  destruct s as [|c s]; [discriminate|]. simpl in H.
  apply andb_prop in H. destruct H as [H1 H2].
  apply N.eqb_eq in H1. subst c. simpl. f_equal. apply IH. exact H2.
Qed.

Lemma replace_prefix p s : Js.replace (p ++ s) p [] = s.
Proof.
  destruct p as [|a p].
  - simpl. destruct s; reflexivity.
  - cbn [app Js.replace]. change (a :: p ++ s) with ((a :: p) ++ s).
    rewrite startsWith_app. cbn [app].
    change (a :: p ++ s) with ((a :: p) ++ s).
    rewrite skipn_app, skipn_all, Nat.sub_diag. reflexivity.
Qed.

(* ================================================================== *)
(** * The segmenter, further *)

Lemma pieces_no_LF s : forall cur,
  ~ In Js.LF cur -> Forall (fun p => ~ In Js.LF p) (pieces cur s).
Proof.
  induction s as [|c s IH]; intros cur Hc; simpl.
  - constructor; [|constructor]. intros H. apply in_rev in H. auto.
  - destruct (c =? Js.LF)%N eqn:E.
    + constructor; [intros H; apply in_rev in H; auto|].
      apply IH. intros [].
    + apply IH. intros [H|H]; [|auto].
      apply N.eqb_neq in E. auto.
Qed.

Lemma pieces_app s : forall cur rest,
  ~ In Js.LF s -> pieces cur (s ++ rest) = pieces (rev s ++ cur) rest.
Proof.
  induction s as [|c s IH]; intros cur rest H; [reflexivity|].
  cbn [app pieces]. destruct (c =? Js.LF)%N eqn:E.
  - apply N.eqb_eq in E. exfalso. apply H. left. exact E.
  - rewrite IH by (intros C; apply H; right; exact C).
    cbn [rev]. rewrite <- app_assoc. reflexivity.
Qed.

Lemma pieces_joinLines segs :
  segs <> [] -> Forall (fun p => ~ In Js.LF p) segs ->
  pieces [] (joinLines segs) = segs.
Proof.
  induction segs as [|s segs IH]; intros Hn Hf; [contradiction|].
  inversion Hf as [|? ? Hs Hf']; subst.
  destruct segs as [|s2 segs].
  - cbn [joinLines]. rewrite <- (app_nil_r s) at 1.
    rewrite pieces_app by exact Hs. cbn [pieces].
    rewrite app_nil_r, rev_involutive. reflexivity.
  - cbn [joinLines]. rewrite pieces_app by exact Hs. cbn [pieces].
    rewrite N.eqb_refl, app_nil_r, rev_involutive.
    f_equal. apply IH; [discriminate|exact Hf'].
Qed.

Lemma tidy_paragraphs segs : Forall paragraph segs -> tidy segs = segs.
Proof.
  induction segs as [|s segs IH]; intros H; [reflexivity|].
  inversion H as [|? ? (Hn & Ht & _) H']; subst.
  unfold tidy in *. cbn [map filter]. rewrite Ht.
  destruct s; [contradiction|]. cbn [List.length Nat.ltb Nat.leb].
  f_equal. apply IH. exact H'.
Qed.

Lemma segmentText_Forall_paragraph text :
  Forall paragraph (segmentText text).
Proof.
  rewrite segmentText_paragraphs. unfold paragraphs.
  apply Forall_forall. intros seg Hin.
  apply filter_In in Hin. destruct Hin as [Hin Hlen].
  apply in_map_iff in Hin. destruct Hin as (p & <- & Hp).
  repeat split.
  - intros E. rewrite E in Hlen. discriminate.
  - apply trim_idem.
  - intros C. apply trim_In in C.
    pose proof (@pieces_no_LF text [] (fun x => x)) as F.
    rewrite Forall_forall in F. apply (F p Hp C).
Qed.

(** X1: every segment that [segmentText] yields is a paragraph: it is not
    empty, it has no white space at either end and it holds no line
    feed. *)
Theorem X1_segments_are_paragraphs text :
  Forall paragraph (segmentText text).
Proof. apply segmentText_Forall_paragraph. Qed.

(** X2: the segmenter gives back any paragraphs that are joined by line
    feeds; so the segments of a text, joined and segmented again, are the
    same segments. *)
Theorem X2_segmentText_joinLines segs :
  Forall paragraph segs -> segmentText (joinLines segs) = segs.
Proof.
  intros H. rewrite segmentText_paragraphs. unfold paragraphs.
  change (tidy (pieces [] (joinLines segs)) = segs).
  destruct segs as [|s segs]; [reflexivity|].
  rewrite pieces_joinLines; [apply tidy_paragraphs; exact H|discriminate|].
  apply Forall_forall. intros p Hp. rewrite Forall_forall in H.
  apply (H p Hp).
Qed.

Lemma X2_segmentText_joinLines_witness :
  segmentText (joinLines [js "Male 1: Hi"; js "there"; js "(clears throat)"])
  = [js "Male 1: Hi"; js "there"; js "(clears throat)"].
Proof.
  apply X2_segmentText_joinLines.
  repeat constructor; try discriminate; vm_compute; intuition discriminate.
Defined.

(* ================================================================== *)
(** * Tags *)

(** X3: a text made of the tag of a speaker and a rest goes to that
    speaker with the rest, trimmed; a text that begins with none of the
    four tags goes to the default speaker as it is. *)
Theorem X3_parseSpeaker_tags :
  (forall sp tag rest,
     tagOf sp = Some tag -> parseSpeaker (tag ++ rest) = (sp, Js.trim rest))
  /\ (forall raw,
        (forall tag, In tag bareTags -> Js.startsWith raw tag = false) ->
        parseSpeaker raw = (Default, raw)).
Proof.
  split.
  - intros sp tag rest H.
    destruct sp; inversion H; subst; clear H; unfold parseSpeaker;
      cbn -[Js.trim]; rewrite ?startsWith_nil; reflexivity.
  - intros raw H. unfold parseSpeaker.
    rewrite !H; [reflexivity| | | |]; simpl; auto.
Qed.

Lemma X3_parseSpeaker_tags_witness :
  parseSpeaker (js "Female 1:" ++ js "  Kumusta ka? ")
  = (Female1, js "Kumusta ka?")
  /\ parseSpeaker (js "Narrator: hello") = (Default, js "Narrator: hello").
Proof.
  split.
  - apply (proj1 X3_parseSpeaker_tags Female1 (js "Female 1:")
             (js "  Kumusta ka? ") eq_refl).
  - apply (proj2 X3_parseSpeaker_tags (js "Narrator: hello")).
    intros tag [H|[H|[H|[H|[]]]]]; subst; reflexivity.
Defined.

(* ================================================================== *)
(** * Which items are dropped *)

Lemma isBlank_cons_black c t : Js.isWhite c = false -> isBlank (c :: t) = false.
Proof.
  intros H. unfold isBlank. rewrite trim_cons_black by exact H. reflexivity.
Qed.

Lemma isBlank_trimmed s : Js.trim s = s -> isBlank s = Js.isEmpty s.
Proof. intros H. unfold isBlank. rewrite H. apply orb_diag. Qed.

Lemma isBlank_script style t :
  isBlank (scriptText style t) = true <-> style = Natural /\ isBlank t = true.
Proof.
  unfold scriptText. destruct (Js.eqb t CLEARS_THROAT) eqn:E.
  - apply js_eqb_eq in E. subst t. split; [discriminate|].
    intros [_ H]. discriminate H.
  - destruct style; cbn [app Js.lit];
      try (rewrite isBlank_cons_black by reflexivity;
           split; [discriminate|intros [H _]; discriminate H]).
    split; [auto|intros [_ H]; exact H].
Qed.

Lemma white_tail_nil p r :
  Js.trim (p ++ r) = p ++ r -> forallb Js.isWhite r = true -> r = [].
Proof.
  intros Ht Hw. destruct r as [|a r]; [reflexivity|].
  destruct (@exists_last _ (a :: r)) as (r' & c & E); [discriminate|].
  rewrite E in *. rewrite forallb_app in Hw.
  apply andb_prop in Hw. destruct Hw as [_ Hc]. simpl in Hc.
  rewrite andb_true_r in Hc. rewrite app_assoc in Ht.
  apply trimmed_last in Ht. congruence.
Qed.

Lemma tagged_blank seg tag :
  Js.trim seg = seg ->
  Js.startsWith seg tag = true ->
  isBlank (Js.trim (Js.replace seg tag [])) = true ->
  seg = tag.
Proof.
  intros Ht Hs Hb. rewrite (@startsWith_split seg tag Hs) in *.
  set (r := skipn (List.length tag) seg) in *.
  rewrite replace_prefix in Hb.
  rewrite isBlank_trimmed in Hb by apply trim_idem.
  destruct (Js.trim r) eqn:E; [|discriminate].
  apply trim_nil_white in E.
  rewrite (@white_tail_nil tag r Ht E). apply app_nil_r.
Qed.

Lemma bare_tag_blank seg :
  paragraph seg ->
  (isBlank (snd (parseSpeaker seg)) = true <-> In seg bareTags).
Proof.
  intros (Hn & Ht & _). split.
  - unfold parseSpeaker.
    destruct (Js.startsWith seg (js "Male 1:")) eqn:E1;
      [intros H; rewrite (@tagged_blank seg _ Ht E1 H); simpl; auto|].
    destruct (Js.startsWith seg (js "Male 2:")) eqn:E2;
      [intros H; rewrite (@tagged_blank seg _ Ht E2 H); simpl; auto|].
    destruct (Js.startsWith seg (js "Female 1:")) eqn:E3;
      [intros H; rewrite (@tagged_blank seg _ Ht E3 H); simpl; auto|].
    destruct (Js.startsWith seg (js "Female 2:")) eqn:E4;
      [intros H; rewrite (@tagged_blank seg _ Ht E4 H); simpl; auto 6|].
    cbn [snd]. rewrite isBlank_trimmed by exact Ht.
    destruct seg; [contradiction|discriminate].
  - intros [H|[H|[H|[H|[]]]]]; subst seg; reflexivity.
Qed.

(** X4: the loop drops the item at the head of the queue, when the
    client is connected, only in the natural style and only if the text
    of the item is one of the four tags with nothing after it; every
    other segment of a snapshot is sent, and so is every segment under
    any other style. *)
Theorem X4_only_bare_tags_are_dropped source env me item rest st :
  In (text item) (segmentText source) ->
  clientConnected env = true ->
  ((exists st' o buffer,
      whileQueue env me (item :: rest) st
      = (st', Dropped item buffer :: o))
   <-> voiceStyle env = Natural /\ In (text item) bareTags)
  /\ ((exists st' o scripted target,
         whileQueue env me (item :: rest) st
         = (st', Sent scripted target :: Dequeued item :: o))
      <-> ~ (voiceStyle env = Natural /\ In (text item) bareTags)).
Proof.
  intros Hin Hc.
  pose proof (segmentText_Forall_paragraph source) as Hp.
  rewrite Forall_forall in Hp. specialize (Hp _ Hin).
  pose proof (isBlank_script (voiceStyle env)
                (snd (parseSpeaker (text item)))) as Hb.
  rewrite (@bare_tag_blank (text item) Hp) in Hb.
  destruct (isBlank (scriptText (voiceStyle env)
                       (snd (parseSpeaker (text item))))) eqn:E.
  - pose proof (@whileQueue_drop env me item rest st Hc E) as D.
    split; split.
    + intros _. apply Hb. reflexivity.
    + intros _. eexists _, _, _. exact D.
    + intros (st' & o & sc & tg & Hq) _. rewrite D in Hq. discriminate Hq.
    + intros C. contradiction C. apply Hb. reflexivity.
  - destruct (@whileQueue_send env item Hc E me rest st) as (st' & o & S).
    split; split.
    + intros (st2 & o2 & b & Hq). rewrite S in Hq. discriminate Hq.
    + intros C. apply Hb in C. discriminate C.
    + intros _ C. apply Hb in C. discriminate C.
    + intros _. eexists _, _, _, _. exact S.
Qed.

Lemma X4_only_bare_tags_are_dropped_witness :
  exists st' o buffer,
    whileQueue (envAt 0 true Natural silent) 0
      [{| text := js "Male 1:";
          refData := Some (snapshot "s1" "Hello\nMale 1:");
          turnId := Some (js "t1") |}] initial
    = (st', Dropped {| text := js "Male 1:";
                       refData := Some (snapshot "s1" "Hello\nMale 1:");
                       turnId := Some (js "t1") |} buffer :: o).
Proof.
  apply (proj1 (@X4_only_bare_tags_are_dropped
                  (js "Hello\nMale 1:") (envAt 0 true Natural silent) 0%nat
                  {| text := js "Male 1:";
                     refData := Some (snapshot "s1" "Hello\nMale 1:");
                     turnId := Some (js "t1") |}
                  [] initial
                  (or_intror (or_introl eq_refl)) eq_refl)).
  split; [reflexivity|left; reflexivity].
Defined.

(* ================================================================== *)
(** * What is sent is never blank *)

Lemma updates_app a b : updates (a ++ b) = updates a ++ updates b.
Proof.
  induction a as [|x a IH]; simpl; [reflexivity|].
  destruct x; simpl; rewrite IH; reflexivity.
Qed.

Section SoundSends.

Variables (env : Env) (me : nat) (k : State -> State * list Out).
Hypothesis k_sound : forall st, soundSends (k st).

Lemma commit_sound item st : soundSends (commit env me k item st).
Proof.
  unfold commit, endOfBody. branches; try apply k_sound.
  split; [constructor|reflexivity].
Qed.

Lemma drainLoop_sound item target playStart st :
  soundSends (drainLoop env me k item target playStart st).
Proof.
  unfold drainLoop. pose proof (commit_sound item st) as H.
  destruct (commit env me k item st) as [st' o].
  branches; try exact H; split; [constructor|reflexivity].
Qed.

Lemma arrivalLoop_sound item target pre waitStart st :
  soundSends (arrivalLoop env me k item target pre waitStart st).
Proof.
  unfold arrivalLoop.
  pose proof (drainLoop_sound item target (now env) st) as H.
  destruct (drainLoop env me k item target (now env) st) as [st' o].
  branches; try exact H; split; [constructor|reflexivity].
Qed.

End SoundSends.

Lemma whileQueue_sound env me q : forall st,
  soundSends (whileQueue env me q st).
Proof.
  induction q as [|item rest IH]; intros st; simpl;
    [split; [constructor|reflexivity]|].
  destruct (clientConnected env); simpl; [|split; [constructor|reflexivity]].
  destruct (parseSpeaker (text item)) as [target textToSend].
  destruct (isBlank (scriptText (voiceStyle env) textToSend)) eqn:E.
  - specialize (IH (setQueue rest
                      (setCurrentTurnId (orNull (turnId item)) st))).
    destruct (whileQueue env me rest _) as [st' o]. exact IH.
  - match goal with
    | |- context [arrivalLoop env me ?k ?i ?t ?p ?w ?s] =>
        destruct (@arrivalLoop_sound env me k IH i t p w s) as [H1 H2];
        destruct (arrivalLoop env me k i t p w s) as [st' o]
    end.
    split; cbn [fst snd sent updates] in *; [|exact H2].
    constructor; [exact E|exact H1].
Qed.

Lemma resumeWhile_sound env me st : soundSends (resumeWhile env me st).
Proof. apply whileQueue_sound. Qed.

Lemma processQueueLoop_sound env st : soundSends (processQueueLoop env st).
Proof.
  unfold processQueueLoop. destruct (isProcessing st);
    [split; [constructor|reflexivity]|apply resumeWhile_sound].
Qed.

Lemma step_sends_sound e st :
  Forall (fun p => isBlank (fst p) = false) (sent (snd (step e st))).
Proof.
  destruct e as [env c|env u d|chunk|env me|env me ok]; simpl step.
  - unfold effectBody. destruct c; cbn [negb]; [|constructor].
    destruct (0 <? List.length (queue (setIsProcessing false (cleanup st))))%nat;
      [|constructor].
    pose proof (processQueueLoop_sound env
                  (setIsProcessing false (cleanup st))) as [H _].
    destruct (processQueueLoop env _) as [st' o]. exact H.
  - unfold processNewData. branches; try constructor.
    match goal with
    | H : forEachSegment d u 0 ?segs ?s = _ |- _ =>
        pose proof (forEachSegment_spec d u segs 0 s) as F; rewrite H in F
    end.
    cbn [fst snd] in F. destruct F as (_ & _ & _ & _ & E5 & _).
    match goal with
    | H : processQueueLoop env ?s = _ |- _ =>
        pose proof (processQueueLoop_sound env s) as [P _]; rewrite H in P
    end.
    cbn [fst snd sent] in *. rewrite sent_app, E5. exact P.
  - unfold onOutput. branches; constructor.
  - unfold onWaitOver. branches; try constructor.
    + apply arrivalLoop_sound. apply resumeWhile_sound.
    + apply drainLoop_sound. apply resumeWhile_sound.
  - unfold onInsertSettled.
    destruct (lookupLoop me (loops st)) as [[item t pre ws w|item t ps w|item]|];
      try constructor.
    pose proof (resumeWhile_sound env me
                  (setCurrentTurnId None
                     (setLoops (removeLoop me (loops st)) st))) as [H _].
    unfold endOfBody. destruct (resumeWhile env me _) as [st' o].
    destruct ok; exact H.
Qed.

(** X5: in every history, every text sent to a channel has something in
    it besides white space. *)
Theorem X5_never_sends_blank (es : list Event) (st : State) :
  Forall (fun p => isBlank (fst p) = false) (sent (snd (run es st))).
Proof.
  revert st. induction es as [|e es IH]; intros st; [constructor|].
  simpl. pose proof (step_sends_sound e st) as H.
  destruct (step e st) as [st1 o1]. specialize (IH st1).
  destruct (run es st1) as [st2 o2]. cbn [fst snd] in *.
  rewrite sent_app. apply Forall_app. split; assumption.
Qed.

(* ================================================================== *)
(** * The rows stored, further *)

(** X7: in every history, every row handed to the storage has a
    translation that is not empty and has no white space at either end;
    it belongs to an item whose drain wait has ended: the translation is
    the buffer found then, trimmed, the original text is the text of the
    item with its tag, and the meeting and the user are those of the
    snapshot of the item. *)
Theorem X7_rows_are_sound (es : list Event) (row : Translation) :
  In row (inserted (snd (run es initial))) ->
  translated_text row <> []
  /\ Js.trim (translated_text row) = translated_text row
  /\ exists item d buffer,
       In (item, buffer) (drainedMarks (snd (run es initial)))
       /\ refData item = Some d
       /\ translated_text row = Js.trim buffer
       /\ original_text row = text item
       /\ meeting_id row = session_id d
       /\ tr_user_id row = user_id d.
Proof.
  intros Hin. apply (in_map core) in Hin.
  rewrite (run_gated es initial) in Hin.
  apply in_flat_map in Hin. destruct Hin as ([item buffer] & Hm & Hc).
  unfold commitOf in Hc. cbn [fst snd] in Hc.
  destruct (refData item) as [d|] eqn:Hd; [|contradiction].
  destruct (0 <? List.length (Js.trim buffer))%nat eqn:Hl; [|contradiction].
  destruct Hc as [Hc|[]]. unfold core in Hc.
  injection Hc as E1 E2 E3 E4.
  rewrite <- E4. repeat split.
  - intros C. rewrite C in Hl. discriminate Hl.
  - apply trim_idem.
  - exists item, d, buffer. repeat split; auto.
Qed.

Lemma X7_rows_are_sound_witness :
  translated_text {| meeting_id := js "meeting";
                     tr_user_id := js "user";
                     original_text := js "(clears throat)";
                     translated_text := js "ejem";
                     tr_language := js "Spanish" |} <> [].
Proof.
  apply (@X7_rows_are_sound sessionClearsThroat
           {| meeting_id := js "meeting";
              tr_user_id := js "user";
              original_text := js "(clears throat)";
              translated_text := js "ejem";
              tr_language := js "Spanish" |}).
  vm_compute. left. reflexivity.
Defined.

(* ================================================================== *)
(** * What a run of the loop leaves of the state *)

Lemma lookup_suspend_other m me s st :
  m <> me -> lookupLoop m (loops (suspend me s st)) = lookupLoop m (loops st).
Proof.
  intros H. simpl. destruct (Nat.eqb me m) eqn:E; [|reflexivity].
  apply Nat.eqb_eq in E. congruence.
Qed.

Lemma lookup_remove_other m me l :
  m <> me -> lookupLoop m (removeLoop me l) = lookupLoop m l.
Proof.
  intros H. induction l as [|[n s] l IH]; [reflexivity|]. simpl.
  destruct (Nat.eqb n me) eqn:E1; destruct (Nat.eqb n m) eqn:E2; simpl;
    rewrite ?E2; auto.
  apply Nat.eqb_eq in E1. apply Nat.eqb_eq in E2. congruence.
Qed.

Lemma lookup_remove_same me l : lookupLoop me (removeLoop me l) = None.
Proof.
  induction l as [|[n s] l IH]; [reflexivity|]. simpl.
  destruct (Nat.eqb n me) eqn:E; [exact IH|]. simpl. rewrite E. exact IH.
Qed.

Lemma alive_workerWait_arrival env st item target pre waitStart d :
  alive (AtArrival item target pre waitStart (workerWait env st d)) = true.
Proof. apply pending_workerWait. Qed.

Lemma alive_workerWait_drain env st item target playStart d :
  alive (AtDrain item target playStart (workerWait env st d)) = true.
Proof. apply pending_workerWait. Qed.

Section LoopFrame.

Variables (env : Env) (me : nat) (k : State -> State * list Out).
Hypothesis k_frame : forall st, loopFrame me st (k st).

Lemma endOfBody_loopFrame st : loopFrame me st (endOfBody k st).
Proof. apply (k_frame (setCurrentTurnId None st)). Qed.

Lemma suspended_loopFrame s st :
  alive s = true -> loopFrame me st (suspend me s st, []).
Proof.
  intros H. repeat split; try reflexivity.
  - intros m Hm. apply lookup_suspend_other. exact Hm.
  - right. split; [reflexivity|]. exists s.
    split; [apply lookup_suspend|exact H].
Qed.

Lemma loopFrame_cons x st r :
  sent [x] = [] -> loopFrame me st r -> loopFrame me st (fst r, x :: snd r).
Proof.
  intros Hx (H1 & H2). split; [|exact H2].
  cbn [fst snd]. destruct x; try discriminate; exact H1.
Qed.

Lemma commit_loopFrame item st : loopFrame me st (commit env me k item st).
Proof.
  unfold commit. branches; try apply endOfBody_loopFrame.
  apply (loopFrame_cons (Inserted _) (r := (suspend me (AtInsert item) st, [])));
    [reflexivity|].
  apply suspended_loopFrame. reflexivity.
Qed.

Lemma drainLoop_loopFrame item target playStart st :
  loopFrame me st (drainLoop env me k item target playStart st).
Proof.
  unfold drainLoop. pose proof (commit_loopFrame item st) as H.
  apply (loopFrame_cons (Drained item (currentTranslationBuffer st)))
    in H; [|reflexivity].
  destruct (commit env me k item st) as [st' o]. cbn [fst snd] in H.
  branches; try exact H.
  apply suspended_loopFrame. apply alive_workerWait_drain.
Qed.

Lemma arrivalLoop_loopFrame item target pre waitStart st :
  loopFrame me st (arrivalLoop env me k item target pre waitStart st).
Proof.
  unfold arrivalLoop.
  pose proof (drainLoop_loopFrame item target (now env) st) as H.
  pose proof (loopFrame_cons Warned eq_refl H) as H'.
  destruct (drainLoop env me k item target (now env) st) as [st' o].
  cbn [fst snd] in H'.
  branches; try exact H; try exact H'.
  apply suspended_loopFrame. apply alive_workerWait_arrival.
Qed.

End LoopFrame.

Lemma forEachSegment_buffer d u segs : forall i st,
  currentTranslationBuffer (fst (forEachSegment d u i segs st))
  = currentTranslationBuffer st.
Proof.
  induction segs as [|seg segs IH]; intros i st; [reflexivity|].
  cbn [forEachSegment]. unfold enqueueSegment.
  destruct (parseSpeaker seg) as [sp ui].
  match goal with
  | |- context [if ?b then _ else _] => destruct b
  end;
    match goal with
    | |- context [forEachSegment d u (S i) segs ?s] =>
        specialize (IH (S i) s);
        destruct (forEachSegment d u (S i) segs s) as [st2 o2]
    end; exact IH.
Qed.

Lemma whileQueue_loopFrame env me q : forall st,
  loopFrame me st (whileQueue env me q st).
Proof.
  induction q as [|item rest IH]; intros st; simpl.
  - repeat split; try reflexivity. left. split; reflexivity.
  - destruct (clientConnected env); simpl;
      [|repeat split; try reflexivity; left; split; reflexivity].
    destruct (parseSpeaker (text item)) as [target textToSend].
    destruct (isBlank (scriptText (voiceStyle env) textToSend)).
    + pose proof (IH (setQueue rest
                        (setCurrentTurnId (orNull (turnId item)) st))) as H.
      apply (loopFrame_cons (Dropped item (currentTranslationBuffer st)))
        in H; [|reflexivity].
      destruct (whileQueue env me rest _) as [st' o]. exact H.
    + match goal with
      | |- context [arrivalLoop env me ?k ?i ?t ?p ?w ?s] =>
          pose proof (@arrivalLoop_loopFrame env me k IH i t p w s) as H;
          destruct (arrivalLoop env me k i t p w s) as [st' o]
      end.
      destruct H as (H1 & H2). split; [|exact H2].
      cbn [fst snd sent] in *. destruct (sent o); exact H1.
Qed.

Lemma resumeWhile_loopFrame env me st :
  loopFrame me st (resumeWhile env me st).
Proof. apply whileQueue_loopFrame. Qed.

(** The buffer after a step that runs the loop [me] from [st0], which
    has the buffer of [st]. *)
Lemma loopFrame_buffer me st0 st r :
  loopFrame me st0 r ->
  currentTranslationBuffer st0 = currentTranslationBuffer st ->
  currentTranslationBuffer (fst r)
  = match sent (snd r) with
    | [] => currentTranslationBuffer st
    | _ :: _ => []
    end.
Proof. intros (H & _) E. rewrite H, E. reflexivity. Qed.

(** X6: a step that sends a text leaves the translation buffer empty;
    any other step leaves it as it was, with the piece of text appended
    when the step is the output listener's. *)
Theorem X6_buffer_since_last_send (e : Event) (st : State) :
  currentTranslationBuffer (fst (step e st))
  = match sent (snd (step e st)) with
    | _ :: _ => []
    | [] => match e with
            | OutputText chunk => currentTranslationBuffer st ++ chunk
            | _ => currentTranslationBuffer st
            end
    end.
Proof.
  assert (Hloop : forall me st0 r,
            loopFrame me st0 r ->
            currentTranslationBuffer st0 = currentTranslationBuffer st ->
            currentTranslationBuffer (fst r)
            = match sent (snd r) with
              | _ :: _ => []
              | [] => currentTranslationBuffer st
              end).
  { intros me st0 r H E. rewrite (@loopFrame_buffer me st0 st r H E).
    destruct (sent (snd r)); reflexivity. }
  destruct e as [env c|env u d|chunk|env me|env me ok]; simpl step.
  - unfold effectBody. destruct c; cbn [negb]; [|reflexivity].
    destruct (0 <? List.length (queue (setIsProcessing false (cleanup st))))%nat;
      [|reflexivity].
    unfold processQueueLoop. cbn [isProcessing setIsProcessing].
    pose proof (resumeWhile_loopFrame env
                  (nextLoop (setIsProcessing false (cleanup st)))
                  (setNextLoop (S (nextLoop (setIsProcessing false (cleanup st))))
                     (setIsProcessing true
                        (setIsProcessing false (cleanup st))))) as H.
    apply Hloop in H; [|reflexivity].
    destruct (resumeWhile env _ _) as [st' o]. exact H.
  - unfold processNewData.
    destruct (Js.isEmpty (full_transcript_text d)); [reflexivity|].
    destruct (sameId (lastProcessedId st) (id d)); [reflexivity|].
    destruct (0 <? List.length (segmentText (full_transcript_text d)))%nat;
      [|reflexivity].
    pose proof (forEachSegment_spec d u (segmentText (full_transcript_text d))
                  0 (setLastProcessedId (Some (id d)) st)) as F.
    pose proof (forEachSegment_buffer d u
                  (segmentText (full_transcript_text d))
                  0 (setLastProcessedId (Some (id d)) st)) as G.
    destruct (forEachSegment d u 0 _ _) as [s o1]. cbn [fst snd] in F, G.
    destruct F as (_ & _ & _ & _ & E5 & _).
    cbn [currentTranslationBuffer setLastProcessedId] in G.
    unfold processQueueLoop. destruct (isProcessing s) eqn:Ep.
    + cbn [fst snd sent]. rewrite sent_app, E5. exact G.
    + pose proof (resumeWhile_loopFrame env (nextLoop s)
                    (setNextLoop (S (nextLoop s))
                       (setIsProcessing true s))) as H.
      apply Hloop in H; [|exact G].
      destruct (resumeWhile env _ _) as [st' o2].
      cbn [fst snd sent] in *. rewrite sent_app, E5. exact H.
  - unfold onOutput. cbn [currentTurnId setBuffer].
    destruct (currentTurnId st) as [[|c t]|]; reflexivity.
  - unfold onWaitOver.
    destruct (lookupLoop me (loops st)) as [[item t pre ws w|item t ps w|item]|];
      try reflexivity; (destruct (waitPending w); [|reflexivity]).
    + apply (Hloop me (setLoops (removeLoop me (loops st)) st));
        [|reflexivity].
      apply arrivalLoop_loopFrame. apply resumeWhile_loopFrame.
    + apply (Hloop me (setLoops (removeLoop me (loops st)) st));
        [|reflexivity].
      apply drainLoop_loopFrame. apply resumeWhile_loopFrame.
  - unfold onInsertSettled.
    destruct (lookupLoop me (loops st)) as [[item t pre ws w|item t ps w|item]|];
      try reflexivity.
    pose proof (@endOfBody_loopFrame me (resumeWhile env me)
                  (resumeWhile_loopFrame env me)
                  (setLoops (removeLoop me (loops st)) st)) as H.
    apply Hloop in H; [|reflexivity].
    destruct (endOfBody _ _) as [st' o]. destruct ok; exact H.
Qed.

(* ================================================================== *)
(** * The flag is held by a loop *)

Lemma loopFrame_flagHeld me st0 r : loopFrame me st0 r -> flagHeld (fst r).
Proof.
  intros (_ & _ & _ & _ & [[H _]|[_ (s & Hs & Ha)]]) Hp.
  - congruence.
  - exists me, s. auto.
Qed.

Lemma processQueueLoop_flagHeld env st :
  flagHeld st -> flagHeld (fst (processQueueLoop env st)).
Proof.
  intros H. unfold processQueueLoop. destruct (isProcessing st) eqn:E;
    [exact H|].
  apply (@loopFrame_flagHeld (nextLoop st)
           (setNextLoop (S (nextLoop st)) (setIsProcessing true st))).
  apply resumeWhile_loopFrame.
Qed.

Lemma step_flagHeld e st : flagHeld st -> flagHeld (fst (step e st)).
Proof.
  intros H.
  destruct e as [env c|env u d|chunk|env me|env me ok]; simpl step.
  - unfold effectBody. destruct c; cbn [negb]; [|intros C; discriminate C].
    destruct (0 <? List.length (queue (setIsProcessing false (cleanup st))))%nat;
      [|intros C; discriminate C].
    assert (H0 : flagHeld (setIsProcessing false (cleanup st)))
      by (intros C; discriminate C).
    apply (processQueueLoop_flagHeld env) in H0.
    destruct (processQueueLoop env _) as [st' o]. exact H0.
  - unfold processNewData.
    destruct (Js.isEmpty (full_transcript_text d)); [exact H|].
    destruct (sameId (lastProcessedId st) (id d)); [exact H|].
    destruct (0 <? List.length (segmentText (full_transcript_text d)))%nat;
      [|exact H].
    pose proof (forEachSegment_spec d u (segmentText (full_transcript_text d))
                  0 (setLastProcessedId (Some (id d)) st)) as F.
    destruct (forEachSegment d u 0 _ _) as [s o1]. cbn [fst snd] in F.
    destruct F as (_ & _ & _ & _ & _ & _ & _ & E8 & E9 & _).
    assert (H0 : flagHeld s).
    { unfold flagHeld. rewrite E8, E9. exact H. }
    apply (processQueueLoop_flagHeld env) in H0.
    destruct (processQueueLoop env s) as [st' o2]. exact H0.
  - unfold onOutput. cbn [currentTurnId setBuffer].
    destruct (currentTurnId st) as [[|c t]|]; exact H.
  - unfold onWaitOver.
    destruct (lookupLoop me (loops st)) as [[item t pre ws w|item t ps w|item]|];
      try exact H; (destruct (waitPending w); [|exact H]).
    + apply (@loopFrame_flagHeld me (setLoops (removeLoop me (loops st)) st)).
      apply arrivalLoop_loopFrame. apply resumeWhile_loopFrame.
    + apply (@loopFrame_flagHeld me (setLoops (removeLoop me (loops st)) st)).
      apply drainLoop_loopFrame. apply resumeWhile_loopFrame.
  - unfold onInsertSettled.
    destruct (lookupLoop me (loops st)) as [[item t pre ws w|item t ps w|item]|];
      try exact H.
    pose proof (@endOfBody_loopFrame me (resumeWhile env me)
                  (resumeWhile_loopFrame env me)
                  (setLoops (removeLoop me (loops st)) st)) as F.
    apply loopFrame_flagHeld in F.
    destruct (endOfBody _ _) as [st' o]. destruct ok; exact F.
Qed.

(** X8: in every history, effect re-runs included, whenever the
    processing flag is up there is a suspended call of the loop that can
    still be resumed: the flag never stays up behind a loop that has
    returned or whose timer has been destroyed. *)
Theorem X8_flag_held_by_a_loop (es : list Event) :
  isProcessing (fst (run es initial)) = true ->
  exists me s,
    lookupLoop me (loops (fst (run es initial))) = Some s /\ alive s = true.
Proof.
  assert (G : forall st, flagHeld st -> flagHeld (fst (run es st))).
  { induction es as [|e es IH]; intros st H; [exact H|].
    simpl. apply (step_flagHeld e) in H.
    destruct (step e st) as [st1 o1]. cbn [fst] in H. apply IH in H.
    destruct (run es st1) as [st2 o2]. exact H. }
  apply G. intros C. discriminate C.
Qed.

Lemma X8_flag_held_by_a_loop_witness :
  exists me s,
    lookupLoop me (loops (fst (run sessionClearsThroat initial))) = Some s
    /\ alive s = true.
Proof. apply (X8_flag_held_by_a_loop sessionClearsThroat). reflexivity. Defined.

(* ================================================================== *)
(** * A loop whose worker is gone *)

Lemma lookup_cleanup me st :
  lookupLoop me (loops (cleanup st))
  = option_map orphan (lookupLoop me (loops st)).
Proof.
  unfold cleanup. cbn [loops setWorker setLoops].
  induction (loops st) as [|[n s] l IH]; [reflexivity|].
  cbn [map fst snd lookupLoop]. destruct (Nat.eqb n me); [reflexivity|exact IH].
Qed.

Lemma orphan_dead s : alive s = false -> orphan s = s.
Proof.
  destruct s as [item t pre ws w|item t ps w|item]; simpl; try discriminate;
    unfold waitPending, orphanWait; destruct w as [v i m]; cbn [via];
    destruct v; try discriminate; reflexivity.
Qed.

Lemma orphan_onWorker s : onWorker s = true -> alive (orphan s) = false.
Proof.
  destruct s as [item t pre ws w|item t ps w|item]; simpl; try discriminate;
    unfold waitPending, orphanWait; destruct w as [v i m]; cbn [via];
    destruct v; try discriminate; reflexivity.
Qed.

Lemma loopFrame_other me st0 r m :
  loopFrame me st0 r -> m <> me ->
  lookupLoop m (loops (fst r)) = lookupLoop m (loops st0)
  /\ nextLoop (fst r) = nextLoop st0.
Proof. intros (_ & H & N & _) Hm. split; [apply H; exact Hm|exact N]. Qed.

Lemma processQueueLoop_other env st m :
  (m < nextLoop st)%nat ->
  lookupLoop m (loops (fst (processQueueLoop env st)))
  = lookupLoop m (loops st)
  /\ (m < nextLoop (fst (processQueueLoop env st)))%nat.
Proof.
  intros H. unfold processQueueLoop. destruct (isProcessing st); [auto|].
  destruct (@loopFrame_other (nextLoop st)
              (setNextLoop (S (nextLoop st)) (setIsProcessing true st))
              (resumeWhile env (nextLoop st)
                 (setNextLoop (S (nextLoop st)) (setIsProcessing true st)))
              m (resumeWhile_loopFrame _ _ _)) as [H1 H2]; [lia|].
  rewrite H1, H2. cbn [loops nextLoop setNextLoop setIsProcessing].
  split; [reflexivity|lia].
Qed.

Lemma step_keeps_dead e st me s :
  lookupLoop me (loops st) = Some s -> alive s = false ->
  (me < nextLoop st)%nat ->
  lookupLoop me (loops (fst (step e st))) = Some s
  /\ (me < nextLoop (fst (step e st)))%nat.
Proof.
  intros Hl Ha Hn.
  destruct e as [env c|env u d|chunk|env m|env m ok]; simpl step.
  - assert (Hc : lookupLoop me (loops (setIsProcessing false (cleanup st)))
                 = Some s).
    { cbn [loops setIsProcessing]. rewrite lookup_cleanup, Hl. simpl.
      rewrite orphan_dead by exact Ha. reflexivity. }
    unfold effectBody. destruct c; cbn [negb]; [|split; [exact Hc|exact Hn]].
    destruct (0 <? List.length (queue (setIsProcessing false (cleanup st))))%nat;
      [|split; [exact Hc|exact Hn]].
    destruct (@processQueueLoop_other env
                (setIsProcessing false (cleanup st)) me Hn) as [H1 H2].
    destruct (processQueueLoop env _) as [st' o]. cbn [fst] in *.
    split; [rewrite <- Hc; exact H1|exact H2].
  - unfold processNewData.
    destruct (Js.isEmpty (full_transcript_text d)); [auto|].
    destruct (sameId (lastProcessedId st) (id d)); [auto|].
    destruct (0 <? List.length (segmentText (full_transcript_text d)))%nat;
      [|auto].
    pose proof (forEachSegment_spec d u (segmentText (full_transcript_text d))
                  0 (setLastProcessedId (Some (id d)) st)) as F.
    destruct (forEachSegment d u 0 _ _) as [s1 o1]. cbn [fst snd] in F.
    destruct F as (_ & _ & _ & _ & _ & _ & _ & _ & E9 & E10).
    cbn [loops nextLoop setLastProcessedId] in E9, E10.
    assert (Hn1 : (me < nextLoop s1)%nat) by (rewrite E10; exact Hn).
    destruct (@processQueueLoop_other env s1 me Hn1) as [H1 H2].
    destruct (processQueueLoop env s1) as [st' o2]. cbn [fst] in *.
    split; [rewrite H1, E9; exact Hl|exact H2].
  - unfold onOutput. cbn [currentTurnId setBuffer].
    destruct (currentTurnId st) as [[|c t]|]; auto.
  - unfold onWaitOver.
    destruct (Nat.eq_dec m me) as [->|Hm].
    + rewrite Hl.
      destruct s as [item t pre ws w|item t ps w|item]; simpl in Ha;
        try discriminate; rewrite Ha; auto.
    + destruct (lookupLoop m (loops st))
        as [[item t pre ws w|item t ps w|item]|]; auto;
        (destruct (waitPending w); [|auto]).
      * destruct (@loopFrame_other m (setLoops (removeLoop m (loops st)) st)
                    (arrivalLoop env m (resumeWhile env m) item t pre ws
                       (setLoops (removeLoop m (loops st)) st))
                    me) as [H1 H2];
          [apply arrivalLoop_loopFrame; apply resumeWhile_loopFrame|auto|].
        rewrite H1, H2. cbn [loops nextLoop setLoops].
        rewrite lookup_remove_other by auto. auto.
      * destruct (@loopFrame_other m (setLoops (removeLoop m (loops st)) st)
                    (drainLoop env m (resumeWhile env m) item t ps
                       (setLoops (removeLoop m (loops st)) st))
                    me) as [H1 H2];
          [apply drainLoop_loopFrame; apply resumeWhile_loopFrame|auto|].
        rewrite H1, H2. cbn [loops nextLoop setLoops].
        rewrite lookup_remove_other by auto. auto.
  - unfold onInsertSettled.
    destruct (Nat.eq_dec m me) as [->|Hm].
    + rewrite Hl.
      destruct s as [item t pre ws w|item t ps w|item]; simpl in Ha;
        try discriminate; auto.
    + destruct (lookupLoop m (loops st))
        as [[item t pre ws w|item t ps w|item]|]; auto.
      destruct (@loopFrame_other m (setLoops (removeLoop m (loops st)) st)
                  (endOfBody (resumeWhile env m)
                     (setLoops (removeLoop m (loops st)) st))
                  me) as [H1 H2];
        [apply endOfBody_loopFrame; apply resumeWhile_loopFrame|auto|].
      destruct (endOfBody _ _) as [st' o]. cbn [fst] in *.
      rewrite H1, H2. cbn [loops nextLoop setLoops].
      rewrite lookup_remove_other by auto. destruct ok; auto.
Qed.

Lemma run_keeps_dead es : forall st me s,
  lookupLoop me (loops st) = Some s -> alive s = false ->
  (me < nextLoop st)%nat ->
  lookupLoop me (loops (fst (run es st))) = Some s.
Proof.
  induction es as [|e es IH]; intros st me s Hl Ha Hn; [exact Hl|].
  simpl. destruct (@step_keeps_dead e st me s Hl Ha Hn) as [H1 H2].
  destruct (step e st) as [st1 o1]. cbn [fst] in *.
  pose proof (IH st1 me s H1 Ha H2) as H.
  destruct (run es st1) as [st2 o2]. exact H.
Qed.

(** X9: a call of the loop that waits for a message of the worker when
    the effect is cleaned up is stuck for good: whatever happens
    afterwards, it stays suspended at the same [await], with a wait that
    nothing will end. *)
Theorem X9_loop_stuck_after_cleanup env connected es st me s :
  lookupLoop me (loops st) = Some s ->
  onWorker s = true ->
  (me < nextLoop st)%nat ->
  lookupLoop me (loops (fst (run (EffectRun env connected :: es) st)))
  = Some (orphan s)
  /\ alive (orphan s) = false.
Proof.
  intros Hl Hw Hn. split; [|apply orphan_onWorker; exact Hw].
  change (EffectRun env connected :: es)
    with ([EffectRun env connected] ++ es).
  assert (Hc : lookupLoop me (loops (cleanup st)) = Some (orphan s))
    by (rewrite lookup_cleanup, Hl; reflexivity).
  assert (Hn' : (me < nextLoop (cleanup st))%nat) by exact Hn.
  cbn [app run step].
  assert (H1 : lookupLoop me
                 (loops (fst (effectBody env connected (cleanup st))))
               = Some (orphan s)
               /\ (me < nextLoop (fst (effectBody env connected
                                                  (cleanup st))))%nat).
  { unfold effectBody. destruct connected; cbn [negb]; [|auto].
    destruct (0 <? List.length (queue (setIsProcessing false (cleanup st))))%nat;
      [|auto].
    destruct (@processQueueLoop_other env
                (setIsProcessing false (cleanup st)) me Hn') as [P1 P2].
    destruct (processQueueLoop env _) as [st' o]. cbn [fst] in *.
    split; [rewrite <- Hc; exact P1|exact P2]. }
  destruct (effectBody env connected (cleanup st)) as [st1 o1].
  cbn [fst] in H1. destruct H1 as [H1 H2].
  pose proof (@run_keeps_dead es st1 me (orphan s) H1
                (orphan_onWorker s Hw) H2) as H.
  destruct (run es st1) as [st2 o2]. exact H.
Qed.

Lemma X9_loop_stuck_after_cleanup_witness :
  exists s,
    lookupLoop 0 (loops (fst (run (EffectRun (envAt 20 true Dramatic silent)
                                             true
                                   :: skipn 2 sessionClearsThroat)
                                  (fst (run (firstn 2 sessionClearsThroat)
                                            initial)))))
    = Some s
    /\ alive s = false.
Proof.
  eexists.
  apply (@X9_loop_stuck_after_cleanup (envAt 20 true Dramatic silent) true
           (skipn 2 sessionClearsThroat)
           (fst (run (firstn 2 sessionClearsThroat) initial)) 0%nat
           (AtArrival {| text := js "(clears throat)";
                         refData := Some (snapshot "s1" "(clears throat)");
                         turnId := Some (js "t0") |}
                      Default silent 10
                      {| via := ViaWorker; issuedAt := 10; ms := 250 |}));
    [reflexivity|reflexivity|vm_compute; lia].
Defined.

(* ================================================================== *)
(** * C8: a wait that never ends *)

Lemma run_app es1 : forall es2 st,
  run (es1 ++ es2) st
  = (fst (run es2 (fst (run es1 st))),
     snd (run es1 st) ++ snd (run es2 (fst (run es1 st)))).
Proof.
  induction es1 as [|e es1 IH]; intros es2 st.
  - cbn [app run fst snd]. destruct (run es2 st); reflexivity.
  - cbn [app run]. destruct (step e st) as [st1 o1]. rewrite IH.
    destruct (run es1 st1) as [st2 o2]. cbn [fst snd].
    rewrite app_assoc. reflexivity.
Qed.

(** A wake-up does nothing to a loop whose wait is lost. *)
Lemma onWaitOver_dead env me st s :
  lookupLoop me (loops st) = Some s -> alive s = false ->
  onWaitOver env me st = (st, []).
Proof.
  intros Hl Ha. unfold onWaitOver. rewrite Hl.
  destruct s as [item t pre ws w|item t ps w|item]; simpl in Ha;
    try rewrite Ha; try reflexivity.
Qed.

Lemma wakeUps_dead envs me st s :
  lookupLoop me (loops st) = Some s -> alive s = false ->
  wakeUps envs me st = (st, []).
Proof.
  intros Hl Ha. induction envs as [|e envs IH]; [reflexivity|].
  rewrite wakeUps_cons, (@onWaitOver_dead e me st s Hl Ha). cbn [fst snd].
  rewrite IH. reflexivity.
Qed.

(** C8: the bounds of 15 and 60 seconds are tested only when the loop
    wakes up from its [workerWait], and the clean-up of the effect
    terminates the worker without settling the waits it owes. In
    [sessionStalled] the text "one" is sent and its loop waits for the
    arrival when the connection closes: from then on the loop stays at
    that wait, which nothing ends. No number of wake-ups, at whatever
    time and with whatever audio, makes it do anything, and whatever
    happens to the component afterwards it is still there: the drain
    wait of "one" is never over, the row of its translation "uno" is
    never written by this loop, and the loop never advances. *)
Theorem C8_stalled_wait_never_ends (envs : list Env) (es : list Event) :
  sent (snd (run sessionStalled initial)) = [(js "one", Default)]
  /\ updates (snd (run sessionStalled initial)) = [(js "t0", js "uno")]
  /\ drainedMarks (snd (run sessionStalled initial)) = []
  /\ lookupLoop 0 (loops (fst (run sessionStalled initial))) = Some lostWait
  /\ alive lostWait = false
  /\ wakeUps envs 0 (fst (run sessionStalled initial))
     = (fst (run sessionStalled initial), [])
  /\ lookupLoop 0 (loops (fst (run (sessionStalled ++ es) initial)))
     = Some lostWait.
Proof.
  assert (Hl : lookupLoop 0 (loops (fst (run sessionStalled initial)))
               = Some lostWait) by (vm_compute; reflexivity).
  assert (Ha : alive lostWait = false) by reflexivity.
  assert (Hn : (0 < nextLoop (fst (run sessionStalled initial)))%nat)
    by (vm_compute; lia).
  split; [vm_compute; reflexivity|].
  split; [vm_compute; reflexivity|].
  split; [vm_compute; reflexivity|].
  split; [exact Hl|]. split; [exact Ha|]. split.
  - exact (@wakeUps_dead envs 0%nat _ lostWait Hl Ha).
  - rewrite run_app. cbn [fst].
    exact (@run_keeps_dead es (fst (run sessionStalled initial)) 0%nat
             lostWait Hl Ha Hn).
Qed.

(* ================================================================== *)
(** * The log store *)

Section LogStoreFacts.

Variables ToolCall ToolResponse Grounding : Type.

Let Turn := ConversationTurn ToolCall ToolResponse Grounding.
Let Update := TurnUpdate ToolCall ToolResponse Grounding.

Lemma spread_idem (t : Turn) (u : Update) :
  spread (spread t u) u = spread t u.
Proof.
  destruct u as [a b c d e f g h i j k]. unfold spread. cbn.
  destruct a, b, c, d, e, f, g, h, i, j, k; reflexivity.
Qed.

Lemma hasId_eq (i : jsstring) (t : Turn) :
  hasId i t = true <-> turn_id t = Some i.
Proof.
  unfold hasId. destruct (turn_id t) as [j|]; [|split; discriminate].
  rewrite js_eqb_eq. split; congruence.
Qed.

Lemma updateTurn_unknown (i : jsstring) (u : Update) (turns : list Turn) :
  (forall t, In t turns -> hasId i t = false) -> updateTurn i u turns = turns.
Proof.
  intros H. unfold updateTurn. rewrite <- (map_id turns) at 2.
  apply map_ext_in. intros t Ht. rewrite (H t Ht). reflexivity.
Qed.

(** X10: [updateTurn] keeps the number and the order of the turns, leaves
    every turn with another identifier as it is, rewrites every turn with
    the identifier given (not only the first), does nothing when no turn
    has it, and done twice is as done once. *)
Theorem X10_updateTurn (i : jsstring) (u : Update) (turns : list Turn) :
  List.length (updateTurn i u turns) = List.length turns
  /\ (forall n t,
        nth_error turns n = Some t ->
        nth_error (updateTurn i u turns) n
        = Some (if hasId i t then spread t u else t))
  /\ ((forall t, In t turns -> hasId i t = false) ->
      updateTurn i u turns = turns)
  /\ updateTurn i u (updateTurn i u turns) = updateTurn i u turns.
Proof.
  split; [apply length_map|]. split.
  - intros n t H. unfold updateTurn.
    apply (map_nth_error
             (fun turn => if hasId i turn then spread turn u else turn)
             n turns H).
  - split; [apply updateTurn_unknown|].
    unfold updateTurn. rewrite map_map. apply map_ext. intros t.
    destruct (hasId i t) eqn:E; [|rewrite E; reflexivity].
    destruct (hasId i (spread t u)); [apply spread_idem|reflexivity].
Qed.

(** X18: [updateLastTurn] does nothing to an empty log and otherwise
    rewrites the last turn only; when the last turn has an identifier
    that no turn before it has, it does what [updateTurn] does for that
    identifier. *)
Theorem X18_updateLastTurn (u : Update) :
  updateLastTurn u (@nil Turn) = []
  /\ (forall turns (lastTurn : Turn),
        updateLastTurn u (turns ++ [lastTurn])
        = turns ++ [spread lastTurn u])
  /\ (forall turns (lastTurn : Turn) i,
        turn_id lastTurn = Some i ->
        (forall t, In t turns -> hasId i t = false) ->
        updateLastTurn u (turns ++ [lastTurn])
        = updateTurn i u (turns ++ [lastTurn])).
Proof.
  assert (L : forall turns (lastTurn : Turn),
            updateLastTurn u (turns ++ [lastTurn])
            = turns ++ [spread lastTurn u]).
  { intros turns lastTurn. unfold updateLastTurn.
    rewrite rev_app_distr. cbn [rev app]. rewrite rev_involutive.
    reflexivity. }
  split; [reflexivity|]. split; [exact L|].
  intros turns lastTurn i Hi Hn. rewrite L. unfold updateTurn.
  rewrite map_app. cbn [map].
  apply hasId_eq in Hi. rewrite Hi.
  f_equal. symmetry. apply updateTurn_unknown. exact Hn.
Qed.

End LogStoreFacts.

Lemma X10_updateTurn_witness :
  updateTurn (js "t9") (translationOnly unit unit unit (js "hola"))
             [bridgeTurn unit unit unit (js "t0") (js "Hi") (js "Hi") Default]
  = [bridgeTurn unit unit unit (js "t0") (js "Hi") (js "Hi") Default].
Proof.
  apply (proj1 (proj2 (proj2 (@X10_updateTurn unit unit unit (js "t9")
                                (translationOnly unit unit unit (js "hola"))
                                [bridgeTurn unit unit unit (js "t0") (js "Hi")
                                            (js "Hi") Default])))).
  intros t [<-|[]]. reflexivity.
Defined.

Lemma X18_updateLastTurn_witness :
  updateLastTurn (translationOnly unit unit unit (js "hola"))
    ([bridgeTurn unit unit unit (js "t0") (js "Hi") (js "Hi") Default]
     ++ [bridgeTurn unit unit unit (js "t1") (js "Yo") (js "Yo") Default])
  = updateTurn (js "t1") (translationOnly unit unit unit (js "hola"))
      ([bridgeTurn unit unit unit (js "t0") (js "Hi") (js "Hi") Default]
       ++ [bridgeTurn unit unit unit (js "t1") (js "Yo") (js "Yo") Default]).
Proof.
  apply (proj2 (proj2 (@X18_updateLastTurn unit unit unit
                         (translationOnly unit unit unit (js "hola"))))).
  - reflexivity.
  - intros t [<-|[]]. reflexivity.
Defined.

(* ================================================================== *)
(** * The log mirrors the queue *)

Lemma added_app a b : added (a ++ b) = added a ++ added b.
Proof.
  induction a as [|x a IH]; simpl; [reflexivity|].
  destruct x; simpl; rewrite IH; reflexivity.
Qed.

Lemma consumer_not_added o : forallb consumerOut o = true -> added o = [].
Proof.
  induction o as [|x o IH]; simpl; [auto|].
  intros H. apply andb_prop in H. destruct H as [Hx Ho].
  destruct x; simpl in *; try discriminate; auto.
Qed.

Lemma forEachSegment_added d u segs : forall i st,
  map addedBrief (added (snd (forEachSegment d u i segs st)))
  = map itemBrief (realItems d u i segs).
Proof.
  induction segs as [|seg segs IH]; intros i st; [reflexivity|].
  cbn [forEachSegment realItems]. unfold enqueueSegment.
  destruct (parseSpeaker seg) as [sp ui] eqn:Hp.
  match goal with
  | |- context [if ?b then _ else _] => destruct b
  end;
    match goal with
    | |- context [forEachSegment d u (S i) segs ?s] =>
        specialize (IH (S i) s);
        destruct (forEachSegment d u (S i) segs s) as [st2 o2]
    end;
    cbn [fst snd app added map] in *; rewrite IH;
    unfold itemBrief, addedBrief; cbn [text turnId]; rewrite Hp;
    reflexivity.
Qed.

Lemma step_added e st :
  map addedBrief (added (snd (step e st)))
  = map itemBrief (filter isReal (enqueued (snd (step e st)))).
Proof.
  pose proof (step_frame e st) as Hf.
  assert (Hq : forall r, consumerFrame st r ->
                 map addedBrief (added (snd r))
                 = map itemBrief (filter isReal (enqueued (snd r)))).
  { intros r (_ & _ & H). rewrite (consumer_not_added _ H).
    apply consumer_not_segmented in H. destruct H as [_ H]. rewrite H.
    reflexivity. }
  destruct e as [env c|env u d|chunk|env me|env me ok];
    try (apply Hq; exact Hf).
  clear Hf Hq. simpl step. unfold processNewData.
  destruct (Js.isEmpty (full_transcript_text d)); [reflexivity|].
  destruct (sameId (lastProcessedId st) (id d)); [reflexivity|].
  destruct (0 <? List.length (segmentText (full_transcript_text d)))%nat;
    [|reflexivity].
  pose proof (forEachSegment_spec d u (segmentText (full_transcript_text d))
                0 (setLastProcessedId (Some (id d)) st)) as F.
  pose proof (forEachSegment_added d u (segmentText (full_transcript_text d))
                0 (setLastProcessedId (Some (id d)) st)) as G.
  destruct (forEachSegment d u 0 _ _) as [s o1]. cbn [fst snd] in F, G.
  destruct F as (E1 & _).
  pose proof (processQueueLoop_frame env s) as (_ & _ & P).
  destruct (processQueueLoop env s) as [st' o2]. cbn [fst snd] in *.
  pose proof (consumer_not_added _ P) as A.
  apply consumer_not_segmented in P. destruct P as [_ P].
  cbn [added enqueued]. rewrite added_app, enqueued_app, P, A, !app_nil_r, G, E1.
  rewrite interleave_real; [reflexivity|]. apply realItems_real.
Qed.

Lemma run_added es : forall st,
  map addedBrief (added (snd (run es st)))
  = map itemBrief (filter isReal (enqueued (snd (run es st)))).
Proof.
  induction es as [|e es IH]; intros st; [reflexivity|].
  simpl. pose proof (step_added e st) as H.
  destruct (step e st) as [st1 o1]. specialize (IH st1).
  destruct (run es st1) as [st2 o2]. cbn [fst snd] in *.
  rewrite added_app, enqueued_app, filter_app, !map_app, H, IH.
  reflexivity.
Qed.

Section BridgeLogFacts.

Variables ToolCall ToolResponse Grounding : Type.

Lemma brief_updateTurn t tr
    (turns : list (ConversationTurn ToolCall ToolResponse Grounding)) :
  map (@brief _ _ _) (updateTurn t (translationOnly _ _ _ tr) turns)
  = map (@brief _ _ _) turns.
Proof.
  unfold updateTurn. rewrite map_map. apply map_ext. intros x.
  destruct (hasId t x); reflexivity.
Qed.

Lemma logAfter_brief date o : forall n
    (turns : list (ConversationTurn ToolCall ToolResponse Grounding)),
  map (@brief _ _ _) (logAfter date n o turns)
  = map (@brief _ _ _) turns ++ map addedBrief (added o).
Proof.
  induction o as [|x o IH]; intros n turns;
    [cbn [logAfter added map]; rewrite app_nil_r; reflexivity|].
  destruct x; cbn [logAfter added map]; rewrite IH; try reflexivity.
  - unfold addTurn. rewrite map_app, <- app_assoc. reflexivity.
  - rewrite brief_updateTurn. reflexivity.
Qed.

(** X11: in every history, the log store holds one turn for each item
    pushed on the queue for a segment of a snapshot, and no other, in the
    order of the queue; the turn has the identifier of the item, its text
    without the tag as text, its text as source text, the key of its
    speaker, the role of the system, and is final. *)
Theorem X11_log_mirrors_queue (es : list Event) (date : nat -> Z) :
  map (@brief ToolCall ToolResponse Grounding)
      (logAfter date 0 (snd (run es initial)) [])
  = map itemBrief (filter isReal (enqueued (snd (run es initial)))).
Proof. rewrite logAfter_brief. apply run_added. Qed.

End BridgeLogFacts.

(* ================================================================== *)
(** * The active turn *)

Section TurnFrame.

Variables (env : Env) (me : nat) (k : State -> State * list Out).
Variable rest : list QueueItem.
Hypothesis k_turn : forall st, queue st = rest -> turnFrame st (k st).

Lemma endOfBody_turn st : queue st = rest -> turnFrame st (endOfBody k st).
Proof.
  intros H. unfold endOfBody.
  destruct (k_turn (setCurrentTurnId None st) H) as [E|[E|(i & Hi & E)]].
  - right. left. exact E.
  - right. left. exact E.
  - right. right. exists i. split; assumption.
Qed.

Lemma commit_turn item st :
  queue st = rest -> turnFrame st (commit env me k item st).
Proof.
  intros H. unfold commit. branches; try (apply endOfBody_turn; exact H).
  left. reflexivity.
Qed.

Lemma drainLoop_turn item target playStart st :
  queue st = rest ->
  turnFrame st (drainLoop env me k item target playStart st).
Proof.
  intros H. unfold drainLoop. pose proof (commit_turn item st H) as C.
  destruct (commit env me k item st) as [st' o].
  branches; try exact C. left. reflexivity.
Qed.

Lemma arrivalLoop_turn item target pre waitStart st :
  queue st = rest ->
  turnFrame st (arrivalLoop env me k item target pre waitStart st).
Proof.
  intros H. unfold arrivalLoop.
  pose proof (drainLoop_turn item target (now env) st H) as C.
  destruct (drainLoop env me k item target (now env) st) as [st' o].
  branches; try exact C. left. reflexivity.
Qed.

End TurnFrame.

Lemma whileQueue_turn env me q : forall st,
  queue st = q -> turnFrame st (whileQueue env me q st).
Proof.
  induction q as [|item rest IH]; intros st Hq; simpl; [left; reflexivity|].
  destruct (clientConnected env); simpl; [|left; reflexivity].
  destruct (parseSpeaker (text item)) as [target textToSend].
  destruct (isBlank (scriptText (voiceStyle env) textToSend)).
  - pose proof (IH (setQueue rest
                      (setCurrentTurnId (orNull (turnId item)) st)) eq_refl)
      as H.
    destruct (whileQueue env me rest _) as [st' o].
    unfold turnFrame in *. cbn [fst currentTurnId queue setQueue
                                setCurrentTurnId] in *.
    destruct H as [E|[E|(i & Hi & E)]].
    + right. right. exists item. rewrite Hq. split; [left; reflexivity|exact E].
    + right. left. exact E.
    + right. right. exists i. rewrite Hq. split; [right; exact Hi|exact E].
  - match goal with
    | |- context [arrivalLoop env me ?k ?i ?t ?p ?w ?s] =>
        pose proof (@arrivalLoop_turn env me k rest IH i t p w s eq_refl) as H;
        destruct (arrivalLoop env me k i t p w s) as [st' o]
    end.
    unfold turnFrame in *. cbn [fst currentTurnId queue setQueue setBuffer
                                setCurrentTurnId] in *.
    destruct H as [E|[E|(i & Hi & E)]].
    + right. right. exists item. rewrite Hq. split; [left; reflexivity|exact E].
    + right. left. exact E.
    + right. right. exists i. rewrite Hq. split; [right; exact Hi|exact E].
Qed.

Lemma resumeWhile_turn env me st : turnFrame st (resumeWhile env me st).
Proof. apply whileQueue_turn. reflexivity. Qed.

Lemma resumeWhile_turn_at env me rest st :
  queue st = rest -> turnFrame st (resumeWhile env me st).
Proof. intros _. apply resumeWhile_turn. Qed.

Lemma processQueueLoop_turn env st : turnFrame st (processQueueLoop env st).
Proof.
  unfold processQueueLoop. destruct (isProcessing st); [left; reflexivity|].
  apply (resumeWhile_turn env (nextLoop st)
           (setNextLoop (S (nextLoop st)) (setIsProcessing true st))).
Qed.

Lemma onWaitOver_turn env me st : turnFrame st (onWaitOver env me st).
Proof.
  unfold onWaitOver.
  destruct (lookupLoop me (loops st)) as [[item t pre ws w|item t ps w|item]|];
    try (left; reflexivity);
    (destruct (waitPending w); [|left; reflexivity]).
  - exact (@arrivalLoop_turn env me (resumeWhile env me) (queue st)
             (resumeWhile_turn_at env me (rest := queue st))
             item t pre ws (setLoops (removeLoop me (loops st)) st) eq_refl).
  - exact (@drainLoop_turn env me (resumeWhile env me) (queue st)
             (resumeWhile_turn_at env me (rest := queue st))
             item t ps (setLoops (removeLoop me (loops st)) st) eq_refl).
Qed.

Lemma onInsertSettled_turn env me ok st :
  turnFrame st (onInsertSettled env me ok st).
Proof.
  unfold onInsertSettled.
  destruct (lookupLoop me (loops st)) as [[item t pre ws w|item t ps w|item]|];
    try (left; reflexivity).
  pose proof (@endOfBody_turn (resumeWhile env me) (queue st)
                (resumeWhile_turn_at env me (rest := queue st))
                (setLoops (removeLoop me (loops st)) st) eq_refl) as H.
  destruct (endOfBody _ _) as [st' o]. exact H.
Qed.

Lemma effectBody_turn env connected st :
  turnFrame st (effectBody env connected st).
Proof.
  unfold effectBody. destruct connected; cbn [negb]; [|left; reflexivity].
  destruct (0 <? List.length (queue (setIsProcessing false st)))%nat;
    [|left; reflexivity].
  pose proof (processQueueLoop_turn env (setIsProcessing false st)) as H.
  destruct (processQueueLoop env _) as [st' o]. exact H.
Qed.

Lemma effectBody_sound env connected st :
  soundSends (effectBody env connected st).
Proof.
  unfold effectBody. destruct connected; cbn [negb];
    [|split; [constructor|reflexivity]].
  destruct (0 <? List.length (queue (setIsProcessing false st)))%nat;
    [|split; [constructor|reflexivity]].
  pose proof (processQueueLoop_sound env (setIsProcessing false st)) as H.
  destruct (processQueueLoop env _) as [st' o]. exact H.
Qed.

Lemma onWaitOver_sound env me st : soundSends (onWaitOver env me st).
Proof.
  unfold onWaitOver.
  destruct (lookupLoop me (loops st)) as [[item t pre ws w|item t ps w|item]|];
    try (split; [constructor|reflexivity]);
    (destruct (waitPending w); [|split; [constructor|reflexivity]]).
  - apply arrivalLoop_sound. apply resumeWhile_sound.
  - apply drainLoop_sound. apply resumeWhile_sound.
Qed.

Lemma onInsertSettled_sound env me ok st :
  soundSends (onInsertSettled env me ok st).
Proof.
  unfold onInsertSettled.
  destruct (lookupLoop me (loops st)) as [[item t pre ws w|item t ps w|item]|];
    try (split; [constructor|reflexivity]).
  pose proof (resumeWhile_sound env me
                (setCurrentTurnId None
                   (setLoops (removeLoop me (loops st)) st))) as [H U].
  unfold endOfBody. destruct (resumeWhile env me _) as [st' o].
  destruct ok; split; assumption.
Qed.

(** ** Updates of the log hit known turns *)

Lemma hits_app o1 : forall known o2,
  hits known (o1 ++ o2) <-> hits known o1 /\ hits (knownAfter known o1) o2.
Proof.
  induction o1 as [|x o1 IH]; intros known o2; simpl; [tauto|].
  destruct x; simpl; rewrite ?IH; tauto.
Qed.

Lemma knownAfter_app o1 : forall known o2,
  knownAfter known (o1 ++ o2) = knownAfter (knownAfter known o1) o2.
Proof.
  induction o1 as [|x o1 IH]; intros known o2; simpl; [reflexivity|].
  destruct x; simpl; apply IH.
Qed.

Lemma knownAfter_grows o : forall known t,
  In t known -> In t (knownAfter known o).
Proof.
  induction o as [|x o IH]; intros known t H; simpl; [exact H|].
  destruct x; simpl; apply IH; simpl; auto.
Qed.

Lemma knownAfter_no_add o known : added o = [] -> knownAfter known o = known.
Proof.
  revert known. induction o as [|x o IH]; intros known H; simpl; [reflexivity|].
  destruct x; simpl in *; try discriminate; apply IH; exact H.
Qed.

Lemma hits_no_update o : forall known, updates o = [] -> hits known o.
Proof.
  induction o as [|x o IH]; intros known H; simpl; [exact I|].
  destruct x; simpl in *; try discriminate; apply IH; exact H.
Qed.

(** A run of the consumer keeps the turns known. *)
Lemma consumer_turnsKnown known st r :
  turnFrame st r -> historyOrder st r -> consumerFrame st r ->
  turnsKnown known st -> turnsKnown (knownAfter known (snd r)) (fst r).
Proof.
  intros T [O _] (_ & _ & C) [K1 K2].
  rewrite (knownAfter_no_add _ known (consumer_not_added _ C)).
  apply consumer_not_segmented in C. destruct C as [_ C].
  rewrite C, app_nil_r in O.
  assert (Q : forall item, In item (queue (fst r)) -> In item (queue st)).
  { intros item H. rewrite O. apply in_or_app. right. exact H. }
  split.
  - intros t E. destruct T as [T|[T|(item & Hi & T)]].
    + apply K1. rewrite <- T. exact E.
    + rewrite T in E. discriminate.
    + apply (K2 item t Hi). rewrite <- T. exact E.
  - intros item t Hi E. apply (K2 item t (Q item Hi) E).
Qed.

Lemma forEachSegment_turns d u segs : forall i st known,
  turnsKnown known st ->
  turnsKnown (knownAfter known (snd (forEachSegment d u i segs st)))
             (fst (forEachSegment d u i segs st))
  /\ updates (snd (forEachSegment d u i segs st)) = [].
Proof.
  induction segs as [|seg segs IH]; intros i st known K;
    [split; [exact K|reflexivity]|].
  cbn [forEachSegment]. unfold enqueueSegment.
  destruct (parseSpeaker seg) as [sp ui].
  destruct K as [K1 K2].
  match goal with
  | |- context [if ?b then _ else _] => destruct b
  end;
    match goal with
    | |- context [forEachSegment d u (S i) segs ?s] =>
        specialize (IH (S i) s (u i :: known));
        destruct (forEachSegment d u (S i) segs s) as [st2 o2]
    end;
    cbn [fst snd app knownAfter updates] in *; apply IH; split;
    cbn [currentTurnId queue setQueue setParagraphCount];
    try (intros t E; right; apply K1; exact E);
    intros item t Hi E;
    repeat (apply in_app_or in Hi; destruct Hi as [Hi|Hi]);
    try (right; apply (K2 item t Hi E));
    destruct Hi as [Hi|[]]; subst item; cbn [turnId orNull filler] in E;
    try discriminate;
    unfold orNull in E; cbn [turnId] in E;
    destruct (u i) as [|c cs]; try discriminate;
    injection E as <-; left; reflexivity.
Qed.

Lemma step_turns known e st :
  turnsKnown known st ->
  hits known (snd (step e st))
  /\ turnsKnown (knownAfter known (snd (step e st))) (fst (step e st)).
Proof.
  intros K.
  assert (Hc : forall r, turnFrame st r -> historyOrder st r ->
                 consumerFrame st r -> updates (snd r) = [] ->
                 hits known (snd r)
                 /\ turnsKnown (knownAfter known (snd r)) (fst r)).
  { intros r T O C U. split; [apply hits_no_update; exact U|].
    apply (consumer_turnsKnown T O C K). }
  pose proof (step_order e st) as O. pose proof (step_frame e st) as F.
  destruct e as [env c|env u d|chunk|env me|env me ok].
  - apply Hc; auto.
    + apply (effectBody_turn env c (cleanup st)).
    + apply (effectBody_sound env c (cleanup st)).
  - clear Hc O F. simpl step. unfold processNewData.
    destruct (Js.isEmpty (full_transcript_text d)); [split; [exact I|exact K]|].
    destruct (sameId (lastProcessedId st) (id d)); [split; [exact I|exact K]|].
    destruct (0 <? List.length (segmentText (full_transcript_text d)))%nat;
      [|split; [exact I|exact K]].
    pose proof (@forEachSegment_turns d u
                  (segmentText (full_transcript_text d)) 0%nat
                  (setLastProcessedId (Some (id d)) st) known K) as [G U].
    destruct (forEachSegment d u 0 _ _) as [s o1]. cbn [fst snd] in G, U.
    pose proof (processQueueLoop_turn env s) as T.
    pose proof (processQueueLoop_order env s) as P.
    pose proof (processQueueLoop_frame env s) as C.
    pose proof (processQueueLoop_sound env s) as [_ U2].
    pose proof (consumer_turnsKnown T
                  (consumer_history P (proj2 (proj2 C))) C G) as R.
    destruct (processQueueLoop env s) as [st' o2]. cbn [fst snd] in *.
    cbn [hits knownAfter]. rewrite hits_app, knownAfter_app.
    split; [split; apply hits_no_update; assumption|exact R].
  - clear Hc O F. simpl step. unfold onOutput. destruct K as [K1 K2].
    assert (K' : turnsKnown known
                   (setBuffer (currentTranslationBuffer st ++ chunk) st))
      by (split; [exact K1|exact K2]).
    cbn [currentTurnId setBuffer].
    destruct (currentTurnId st) as [[|c t]|] eqn:E;
      cbn [fst snd hits knownAfter]; (split; [|exact K']); try exact I.
    split; [apply K1; reflexivity|exact I].
  - apply Hc; auto.
    + apply onWaitOver_turn.
    + apply onWaitOver_sound.
  - apply Hc; auto.
    + apply onInsertSettled_turn.
    + apply onInsertSettled_sound.
Qed.

Lemma run_turns es : forall known st,
  turnsKnown known st -> hits known (snd (run es st)).
Proof.
  induction es as [|e es IH]; intros known st K; [exact I|].
  cbn [run]. destruct (step_turns e K) as [H1 H2].
  destruct (step e st) as [st1 o1]. cbn [fst snd] in *.
  specialize (IH _ st1 H2). destruct (run es st1) as [st2 o2].
  cbn [snd] in *. apply hits_app. split; assumption.
Qed.

(** X19. Every update of the log that the output listener asks for names
    a turn that [processNewData] has added before: whatever happens to
    the component from its start, no [updateTurn] is lost on a turn that
    the log does not hold. *)
Theorem X19_updates_hit_added_turns (es : list Event) :
  hits [] (snd (run es initial)).
Proof.
  apply run_turns. split.
  - intros t E. discriminate E.
  - intros item t [].
Qed.

(* ================================================================== *)
(** * The tool store *)

Lemma numberToString_inj n m : numberToString n = numberToString m -> n = m.
Proof.
  unfold numberToString. intros H.
  apply DecimalN.Unsigned.to_uint_inj.
  assert (E : forall a b : list ascii,
            map N_of_ascii a = map N_of_ascii b -> a = b).
  { induction a as [|x a IH]; intros [|y b] Hab; simpl in Hab;
      try discriminate; [reflexivity|].
    injection Hab as Hx Hr. f_equal; [|apply IH; exact Hr].
    rewrite <- (ascii_N_embedding x), <- (ascii_N_embedding y), Hx.
    reflexivity. }
  apply E in H.
  apply (f_equal string_of_list_ascii) in H.
  rewrite !string_of_list_ascii_of_string in H.
  apply (f_equal NilEmpty.uint_of_string) in H.
  rewrite !NilEmpty.usu in H. injection H as H. exact H.
Qed.

Lemma candidate_succ i :
  candidate (i + 1) = js "new_function_" ++ numberToString (i + 1).
Proof.
  unfold candidate. destruct (N.eqb_spec (i + 1) 0) as [E|_]; [lia|].
  reflexivity.
Qed.

Lemma candidate_inj i j : candidate i = candidate j -> i = j.
Proof.
  unfold candidate.
  destruct (N.eqb_spec i 0) as [Ei|Ei], (N.eqb_spec j 0) as [Ej|Ej];
    intros H.
  - congruence.
  - cbv [Js.lit app] in H. discriminate H.
  - cbv [Js.lit app] in H. discriminate H.
  - apply app_inv_head in H. apply numberToString_inj. exact H.
Qed.

Section ToolStoreFacts.

Variables Schema Scheduling : Type.
Variable emptyObject : Schema.
Variable INTERRUPT : Scheduling.

Local Abbreviation Tool := (FunctionCall Schema Scheduling).

Lemma someNamed_In n (tools : list Tool) :
  someNamed n tools = true <-> In n (map (@name _ _) tools).
Proof.
  unfold someNamed. rewrite existsb_exists, in_map_iff. split.
  - intros (t & Ht & E). apply js_eqb_eq in E. exists t. auto.
  - intros (t & E & Ht). exists t. split; [exact Ht|].
    apply js_eqb_eq. exact E.
Qed.

Lemma whileTaken_some (tools : list Tool) fuel : forall i n,
  whileTaken fuel tools (candidate i) (i + 1) = Some n ->
  exists k, n = candidate k /\ (i <= k)%N
            /\ someNamed (candidate k) tools = false
            /\ forall j, (i <= j < k)%N ->
                         someNamed (candidate j) tools = true.
Proof.
  induction fuel as [|fuel IH]; intros i n; cbn [whileTaken];
    destruct (someNamed (candidate i) tools) eqn:T; intros H;
    try discriminate.
  - injection H as <-. exists i. repeat split; auto; try lia.
  - rewrite <- candidate_succ in H. apply IH in H.
    destruct H as (k & E & Hk & F & A). exists k.
    repeat split; auto; try lia.
    intros j Hj. destruct (N.eq_dec j i) as [->|Hn]; [exact T|].
    apply A. lia.
  - injection H as <-. exists i. repeat split; auto; try lia.
Qed.

Lemma whileTaken_none (tools : list Tool) fuel : forall i,
  whileTaken fuel tools (candidate i) (i + 1) = None ->
  forall j, (i <= j <= i + N.of_nat fuel)%N ->
            someNamed (candidate j) tools = true.
Proof.
  induction fuel as [|fuel IH]; intros i; cbn [whileTaken];
    destruct (someNamed (candidate i) tools) eqn:T; intros H j Hj;
    try discriminate.
  - replace j with i by lia. exact T.
  - rewrite <- candidate_succ in H.
    destruct (N.eq_dec j i) as [->|Hn]; [exact T|].
    apply (IH _ H). lia.
Qed.

(** More names than tools cannot all be taken. *)
Lemma not_all_taken (tools : list Tool) :
  ~ (forall j, (j <= N.of_nat (List.length tools))%N ->
               someNamed (candidate j) tools = true).
Proof.
  intros A.
  pose (l := map (fun i => candidate (N.of_nat i))
                 (seq 0 (S (List.length tools)))).
  assert (D : NoDup l).
  { unfold l. apply NoDup_map_NoDup_ForallPairs; [|apply seq_NoDup].
    intros a b _ _ E. apply candidate_inj in E. lia. }
  assert (I : incl l (map (@name _ _) tools)).
  { intros x Hx. unfold l in Hx. apply in_map_iff in Hx.
    destruct Hx as (i & <- & Hi). apply in_seq in Hi.
    apply someNamed_In. apply A. lia. }
  pose proof (NoDup_incl_length D I) as L.
  unfold l in L. rewrite !length_map, length_seq in L.
  exact (Nat.nle_succ_diag_l _ L).
Qed.

Lemma addTool_spec (tools : list Tool) :
  exists k,
    addTool emptyObject INTERRUPT tools
    = Some (tools ++ [newTool emptyObject INTERRUPT (candidate k)])
    /\ someNamed (candidate k) tools = false
    /\ forall j, (j < k)%N -> someNamed (candidate j) tools = true.
Proof.
  unfold addTool.
  change (js "new_function") with (candidate 0).
  change 1%N with (0 + 1)%N.
  match goal with
  | |- context [whileTaken ?f ?t ?c ?i] =>
      destruct (whileTaken f t c i) as [n|] eqn:W
  end.
  - apply whileTaken_some in W. destruct W as (k & -> & _ & F & A).
    exists k. split; [reflexivity|]. split; [exact F|].
    intros j Hj. apply A. lia.
  - exfalso. apply (@not_all_taken tools). intros j Hj.
    apply (@whileTaken_none tools _ _ W). lia.
Qed.

Lemma toggleTool_names n (tools : list Tool) :
  map (@name _ _) (toggleTool n tools) = map (@name _ _) tools.
Proof.
  unfold toggleTool. rewrite map_map. apply map_ext. intros t.
  destruct (Js.eqb (name t) n); reflexivity.
Qed.

Lemma removeTool_names n (tools : list Tool) :
  map (@name _ _) (removeTool n tools)
  = filter (fun m => negb (Js.eqb m n)) (map (@name _ _) tools).
Proof.
  unfold removeTool. induction tools as [|t tools IH]; [reflexivity|].
  simpl. destruct (Js.eqb (name t) n); simpl; rewrite IH; reflexivity.
Qed.

Lemma updateTool_unique old (new : Tool) tools :
  NoDup (map (@name _ _) tools) ->
  NoDup (map (@name _ _) (updateTool old new tools)).
Proof.
  intros D. unfold updateTool.
  destruct (Js.eqb old (name new)) eqn:E; cbn [negb andb].
  - apply js_eqb_eq in E. subst old.
    replace (map (@name _ _) (map _ tools)) with (map (@name _ _) tools);
      [exact D|].
    rewrite map_map. apply map_ext. intros t.
    destruct (Js.eqb (name t) (name new)) eqn:F; [|reflexivity].
    apply js_eqb_eq in F. exact F.
  - destruct (someNamed (name new) tools) eqn:S; [exact D|].
    assert (Hn : ~ In (name new) (map (@name _ _) tools)).
    { intros H. apply someNamed_In in H. congruence. }
    replace (map (@name _ _) (map _ tools))
      with (map (fun m => if Js.eqb m old then name new else m)
                (map (@name _ _) tools)).
    + apply NoDup_map_NoDup_ForallPairs; [|exact D].
      intros a b Ha Hb. 
      destruct (Js.eqb a old) eqn:Ea, (Js.eqb b old) eqn:Eb; intros H.
      * apply js_eqb_eq in Ea, Eb. congruence.
      * subst b. contradiction.
      * subst a. contradiction.
      * exact H.
    + rewrite !map_map. apply map_ext. intros t.
      destruct (Js.eqb (name t) old); reflexivity.
Qed.

Lemma act_unique (tools : list Tool) a :
  NoDup (map (@name _ _) tools) ->
  NoDup (map (@name _ _) (act emptyObject INTERRUPT tools a)).
Proof.
  intros D. destruct a as [n| |n|old new]; cbn [act].
  - rewrite toggleTool_names. exact D.
  - destruct (addTool_spec tools) as (k & -> & F & _).
    rewrite map_app. cbn [map name newTool].
    apply NoDup_app; [exact D|constructor; [intros []|constructor]|].
    intros n Hn [<-|[]]. apply someNamed_In in Hn. congruence.
  - rewrite removeTool_names. apply NoDup_filter. exact D.
  - apply updateTool_unique. exact D.
Qed.

(** X14. [addTool] always ends, and the tool it appends bears the first
    name of [new_function], [new_function_1], [new_function_2], ... that
    no tool of the store bears. *)
Theorem X14_addTool_takes_first_free_name (tools : list Tool) :
  exists k,
    addTool emptyObject INTERRUPT tools
    = Some (tools ++ [newTool emptyObject INTERRUPT (candidate k)])
    /\ someNamed (candidate k) tools = false
    /\ forall j, (j < k)%N -> someNamed (candidate j) tools = true.
Proof. apply addTool_spec. Qed.

(** X15. Whatever sequence of [toggleTool], [addTool], [removeTool] and
    [updateTool] the store goes through from its initial state, no two
    of its tools bear the same name. *)
Theorem X15_tool_names_unique (actions : list (ToolAction Schema Scheduling)) :
  NoDup (map (@name _ _) (toolsAfter emptyObject INTERRUPT actions)).
Proof.
  unfold toolsAfter.
  assert (G : forall tools : list Tool,
            NoDup (map (@name _ _) tools) ->
            NoDup (map (@name _ _)
                       (fold_left (act emptyObject INTERRUPT) actions tools))).
  { induction actions as [|a actions IH]; intros tools D; [exact D|].
    cbn [fold_left]. apply IH. apply act_unique. exact D. }
  apply G. constructor.
Qed.

(** X16. Toggling a tool twice gives the store back. *)
Theorem X16_toggleTool_twice n (tools : list Tool) :
  toggleTool n (toggleTool n tools) = tools.
Proof.
  unfold toggleTool. rewrite map_map. rewrite <- (map_id tools) at 2.
  apply map_ext. intros [nm d p e s]. cbn [name].
  destruct (Js.eqb nm n) eqn:E; cbn [name isEnabled description parameters
                                      scheduling]; rewrite E;
    [rewrite negb_involutive|]; reflexivity.
Qed.

End ToolStoreFacts.

(* ================================================================== *)
(** * The speakers' channels *)

(** X12. For each speaker that the bridge names, the streamer whose
    state [getAudioStreamerState] reports is the one that receives the
    audio of the client that [sendToSpeaker] sends the text to; before
    the streamers exist the report is silence. *)
Theorem X12_polled_stream_is_the_addressed_one
    (report : jsstring -> AudioState) (sp : Speaker) :
  getAudioStreamerState (streamersOf report) (speakerKey sp)
  = report (audioKey (sendToSpeaker (speakerKey sp)))
  /\ getAudioStreamerState [] (speakerKey sp) = silent.
Proof.
  split; [|destruct sp; reflexivity].
  destruct sp; cbv [speakerKey sendToSpeaker audioKey]; cbn;
    destruct (report _); reflexivity.
Qed.

(* ================================================================== *)
(** * The control tray *)

(** X17. The connect button is disabled exactly when its title asks for
    a language, which is exactly when the indicator is empty; it is
    never disabled while connected, and a click that gets through
    connects when disconnected and disconnects when connected. *)
Theorem X17_connect_button (connected : bool) (language : jsstring) :
  (isPlayDisabled connected language = true
   <-> connectButtonTitle connected language
       = js "Select a language to start")
  /\ (isPlayDisabled connected language = true
      <-> textIndicator connected language = [])
  /\ (connected = true -> click connected language = Some CallDisconnect)
  /\ (click connected language = Some CallConnect
      <-> connected = false /\ language <> []).
Proof.
  unfold isPlayDisabled, connectButtonTitle, textIndicator, click,
    isPlayDisabled, onClick.
  destruct connected, language as [|c l]; cbn;
    (split; [|split; [|split]]); try split;
    try discriminate; try reflexivity; try congruence;
    try (intros [H1 H2]; congruence);
    try (intros _; split; congruence).
Qed.

Lemma X17_connect_button_witness :
  click true (js "Tagalog") = Some CallDisconnect.
Proof.
  apply (proj1 (proj2 (proj2 (X17_connect_button true (js "Tagalog"))))).
  reflexivity.
Defined.

(* ================================================================== *)
(** * The settings store *)

Section SettingsFacts.

Variable Num : Type.
Variable generateSystemPrompt : jsstring -> Num -> VoiceStyle -> jsstring.
Variables DEFAULT_LIVE_API_MODEL DEFAULT_VOICE : jsstring.
Variables one fifth : Num.

Local Abbreviation gen := (Settings.generated generateSystemPrompt).
Local Abbreviation act := (Settings.act generateSystemPrompt).

Lemma act_generates s a : Settings.generates a = true -> gen (act s a).
Proof. destruct a; intros H; try discriminate H; reflexivity. Qed.

Lemma act_keeps_generated s a :
  Settings.writesPrompt a = false -> gen s -> gen (act s a).
Proof.
  unfold Settings.generated.
  destruct a; intros H G; try discriminate H; cbn; try exact G; reflexivity.
Qed.

Lemma fold_keeps_generated actions : forall s,
  forallb (fun a => negb (Settings.writesPrompt a)) actions = true ->
  gen s -> gen (fold_left act actions s).
Proof.
  induction actions as [|a actions IH]; intros s H G; [exact G|].
  cbn [forallb] in H. apply andb_prop in H. destruct H as [Ha H].
  cbn [fold_left]. apply IH; [exact H|].
  apply act_keeps_generated; [|exact G].
  destruct (Settings.writesPrompt a); [discriminate Ha|reflexivity].
Qed.

(** X13. As long as [setSystemPrompt] is not called, the prompt of the
    store is the one generated from its language, speech rate and voice
    style; and once one of [setVoiceStyle], [setLanguage] and
    [setSpeechRate] is called after it, the prompt is the generated one
    again: a prompt written by [setSystemPrompt] does not survive the
    next change of one of these settings. *)
Theorem X13_prompt_follows_settings
    (before rest : list (Settings.Action Num)) :
  forallb (fun a => negb (Settings.writesPrompt a)) rest = true ->
  (before = [] \/ exists pre a, before = pre ++ [a]
                                /\ Settings.generates a = true) ->
  gen (Settings.after generateSystemPrompt DEFAULT_LIVE_API_MODEL
                      DEFAULT_VOICE one fifth (before ++ rest)).
Proof.
  intros H B. unfold Settings.after. rewrite fold_left_app.
  apply fold_keeps_generated; [exact H|].
  destruct B as [->|(pre & a & -> & G)]; [reflexivity|].
  rewrite fold_left_app. cbn [fold_left]. apply act_generates. exact G.
Qed.

End SettingsFacts.

Lemma X13_prompt_follows_settings_witness :
  Settings.systemPrompt
    (Settings.after (fun l (_ : Q) _ => js "Speak in " ++ l)
                    (js "model") (js "voice") 1%Q (1 # 5)%Q
                    [Settings.SetSystemPrompt Q (js "Be brief.");
                     Settings.SetLanguage Q (js "French");
                     Settings.SetVoice Q (js "Kore")])
  = js "Speak in French".
Proof.
  apply (@X13_prompt_follows_settings Q
           (fun l (_ : Q) _ => js "Speak in " ++ l)
           (js "model") (js "voice") 1%Q (1 # 5)%Q
           [Settings.SetSystemPrompt Q (js "Be brief.");
            Settings.SetLanguage Q (js "French")]
           [Settings.SetVoice Q (js "Kore")]).
  - reflexivity.
  - right. exists [Settings.SetSystemPrompt Q (js "Be brief.")],
                  (Settings.SetLanguage Q (js "French")).
    split; reflexivity.
Defined.

(* ================================================================== *)
(** * The loop that the effect starts *)

Section ViaFrame.

Variables (env : Env) (me : nat) (k : State -> State * list Out).
Hypothesis k_via : forall st, viaFrame me st (k st).

Lemma endOfBody_via st : viaFrame me st (endOfBody k st).
Proof. exact (k_via (setCurrentTurnId None st)). Qed.

Lemma commit_via item st : viaFrame me st (commit env me k item st).
Proof.
  unfold commit.
  destruct (refData item) as [d|]; [|apply endOfBody_via].
  destruct (0 <? List.length (Js.trim (currentTranslationBuffer st)))%nat;
    [|apply endOfBody_via].
  intros s H. cbn [fst] in H. rewrite lookup_suspend in H.
  injection H as <-. right. intros C. discriminate C.
Qed.

Lemma suspended_via s0 st :
  (onWorker s0 = true -> worker st = true) ->
  viaFrame me st (suspend me s0 st, []).
Proof.
  intros W s H. cbn [fst] in H. rewrite lookup_suspend in H.
  injection H as <-. right. exact W.
Qed.

Lemma onWorker_workerWait_drain item target playStart st d :
  onWorker (AtDrain item target playStart (workerWait env st d)) = true ->
  worker st = true.
Proof. simpl. destruct (worker st); [reflexivity|discriminate]. Qed.

Lemma onWorker_workerWait_arrival item target pre waitStart st d :
  onWorker (AtArrival item target pre waitStart (workerWait env st d)) = true ->
  worker st = true.
Proof. simpl. destruct (worker st); [reflexivity|discriminate]. Qed.

Lemma drainLoop_via item target playStart st :
  viaFrame me st (drainLoop env me k item target playStart st).
Proof.
  unfold drainLoop. pose proof (commit_via item st) as C.
  destruct (commit env me k item st) as [st' o].
  destruct (now env - playStart <? 60000)%Z; [|exact C].
  destruct (Qle_bool (duration (audio env target)) (1 # 2)); [exact C|].
  apply suspended_via. apply onWorker_workerWait_drain.
Qed.

Lemma arrivalLoop_via item target pre waitStart st :
  viaFrame me st (arrivalLoop env me k item target pre waitStart st).
Proof.
  unfold arrivalLoop.
  pose proof (drainLoop_via item target (now env) st) as C.
  destruct (drainLoop env me k item target (now env) st) as [st' o].
  destruct (now env - waitStart <? 15000)%Z; [|exact C].
  destruct (Qltb _ _); [exact C|].
  apply suspended_via. apply onWorker_workerWait_arrival.
Qed.

End ViaFrame.

Lemma whileQueue_via env me q : forall st,
  viaFrame me st (whileQueue env me q st).
Proof.
  induction q as [|item rest IH]; intros st; simpl.
  - intros s H. left. exact H.
  - destruct (clientConnected env); simpl; [|intros s H; left; exact H].
    destruct (parseSpeaker (text item)) as [target textToSend].
    destruct (isBlank (scriptText (voiceStyle env) textToSend)).
    + pose proof (IH (setQueue rest
                        (setCurrentTurnId (orNull (turnId item)) st))) as H.
      destruct (whileQueue env me rest _) as [st' o]. exact H.
    + match goal with
      | |- context [arrivalLoop env me ?k ?i ?t ?p ?w ?s] =>
          pose proof (@arrivalLoop_via env me k IH i t p w s) as H;
          destruct (arrivalLoop env me k i t p w s) as [st' o]
      end.
      exact H.
Qed.

Lemma onWorker_orphan s : onWorker (orphan s) = false.
Proof.
  destruct s as [item t pre ws w|item t ps w|item]; simpl; try reflexivity;
    unfold orphanWait; destruct w as [v i m]; cbn [via];
    destruct v; reflexivity.
Qed.

Lemma cleanup_off_worker me st s :
  lookupLoop me (loops (cleanup st)) = Some s -> onWorker s = false.
Proof.
  rewrite lookup_cleanup. destruct (lookupLoop me (loops st)) as [s0|];
    [|discriminate].
  intros H. injection H as <-. apply onWorker_orphan.
Qed.

(** X20. Right after the effect has run, no suspended call of the loop
    waits for a message of the worker: the waits that did are lost with
    the worker that the clean-up has terminated, and the call that the
    effect makes itself finds no worker yet, so that its first
    [workerWait] falls back on [setTimeout]. *)
Theorem X20_effect_loop_waits_on_timeout env connected st me s :
  lookupLoop me (loops (fst (step (EffectRun env connected) st))) = Some s ->
  onWorker s = false.
Proof.
  cbn [step]. unfold effectBody.
  destruct connected; cbn [negb];
    [|intros H; exact (@cleanup_off_worker me st s H)].
  destruct (0 <? List.length (queue (setIsProcessing false (cleanup st))))%nat;
    [|intros H; exact (@cleanup_off_worker me st s H)].
  unfold processQueueLoop. cbn [isProcessing setIsProcessing].
  set (st0 := setNextLoop _ _).
  pose proof (resumeWhile_loopFrame env (nextLoop (cleanup st)) st0) as F.
  pose proof (@whileQueue_via env (nextLoop (cleanup st)) (queue st0) st0)
    as V.
  fold (resumeWhile env (nextLoop (cleanup st)) st0) in V.
  change (nextLoop (setIsProcessing false (cleanup st)))
    with (nextLoop (cleanup st)).
  destruct (resumeWhile env (nextLoop (cleanup st)) st0) as [st' o].
  cbn [fst loops setWorker]. intros H.
  destruct (Nat.eq_dec me (nextLoop (cleanup st))) as [->|Hm].
  - destruct (V s H) as [E|W].
    + exact (@cleanup_off_worker _ st s E).
    + destruct (onWorker s); [|reflexivity].
      specialize (W eq_refl). discriminate W.
  - destruct F as (_ & O & _). cbn [fst] in O. rewrite (O me Hm) in H.
    exact (@cleanup_off_worker me st s H).
Qed.

Lemma X20_effect_loop_waits_on_timeout_witness :
  exists s,
    lookupLoop 1 (loops (fst (step (EffectRun (envAt 5000 true Natural silent)
                                              true)
                                   queuedWhileDisconnected)))
    = Some s
    /\ alive s = true /\ onWorker s = false.
Proof.
  eexists. split; [vm_compute; reflexivity|]. split; [reflexivity|].
  apply (@X20_effect_loop_waits_on_timeout
           (envAt 5000 true Natural silent) true queuedWhileDisconnected 1%nat).
  vm_compute. reflexivity.
Defined.
